(** * github-release-stats: the comparison engine, embedded and verified

    A shallow embedding of the TypeScript sources
    [src/github-release-stats.ts] (the engine: repository set, display
    order, batch fetch, lazy supplemental fetch, saved sets, CSV export,
    the address of the page, the probe of a user name),
    [src/components/chart-display.ts] (the time-series transforms),
    [src/components/summary-table.ts] (the rows on display) and
    [src/localization/registry.ts] (the translations).

    Conventions of the embedding:
    - JavaScript numbers that hold counts, sizes and epoch milliseconds
      are integers [Z];
    - a date string is represented by the value of
      [new Date(s).getTime()], an optional date ([string | null]) by
      [option Z], so that the truthiness test on it is [Some _];
    - a [Map<string, V>] or a [Record<string, V>] is a [gmap string V];
    - a promise is the value it settles to: [Some v] when it resolves
      with [v], [None] when it rejects;
    - a handler that makes requests is given twice: with its requests
      settling before anything else happens ([run], [reaches]), and taken
      apart at its [await] into the part that runs at the call and the
      part that runs at the settling, other handlers running in between
      ([start], [settle], [arrives]);
    - [this.localize.t] is a parameter [t] of the engine. *)

From Stdlib Require Import ZArith Ascii.
From stdpp Require Import base option list gmap strings pretty sorting.

Open Scope Z_scope.

(** ** Array.prototype.sort

    The sort of an array under a comparator [compareFn] that returns a
    negative, zero or positive number.  The engines sort stably, which an
    insertion written with [foldr] does: an element is put in front of the
    first element it does not exceed, so equal elements keep their order. *)
Fixpoint sort_insert {A} (compareFn : A → A → Z) (x : A) (l : list A)
  : list A :=
  match l with
  | [] => [x]
  | y :: l' =>
      if decide (compareFn x y ≤ 0) then x :: y :: l'
      else y :: sort_insert compareFn x l'
  end.

Definition js_sort {A} (compareFn : A → A → Z) (l : list A) : list A :=
  foldr (sort_insert compareFn) [] l.

(** ** Promise.all

    Resolves with all the values, in the order of the promises, when every
    promise resolves, and rejects when one of them rejects. *)
Definition Promise_all {A} (promises : list (option A)) : option (list A) :=
  mapM id promises.

(** ** Strings *)

Definition dquote : ascii := "034"%char.
Definition newline : ascii := "010"%char.
Definition comma : ascii := ","%char.
Definition slash : ascii := "/"%char.

(** [s.includes(c)] for a needle of one character. *)
Fixpoint includes (c : ascii) (s : string) : bool :=
  match s with
  | EmptyString => false
  | String c' rest => if decide (c' = c) then true else includes c rest
  end.

(** [s.split(sep)] for a separator of one character. *)
Fixpoint split (sep : ascii) (s : string) : list string :=
  match s with
  | EmptyString => [EmptyString]
  | String c rest =>
      if decide (c = sep) then EmptyString :: split sep rest
      else match split sep rest with
           | cur :: more => String c cur :: more
           | [] => [String c EmptyString]
           end
  end.

(** [l.join(sep)] *)
Definition join (sep : ascii) (l : list string) : string :=
  String.concat (String sep EmptyString) l.

(** * Time-series transforms of the chart component
    ([src/components/chart-display.ts]) *)
Module Chart.

(** [Point] of chart.js. *)
Record Point := mkPoint { x : Z; y : Z }.

(** [{ starred_at: string }] *)
Record StarEvent := { starred_at : Z }.

(** [{ created_at: string; closed_at: string | null }] *)
Record IssueEvent := { created_at : Z; closed_at : option Z }.

(** *** [_getStarChartConfig]: the cumulative star series *)

(** [let cumulativeStars = 0; sortedEvents.map((event) => {
      cumulativeStars++; return { x: ..., y: cumulativeStars } })] *)
Fixpoint cumulate (cumulativeStars : Z) (sortedEvents : list StarEvent)
  : list Point :=
  match sortedEvents with
  | [] => []
  | event :: rest =>
      let cumulativeStars := cumulativeStars + 1 in
      {| x := starred_at event; y := cumulativeStars |}
        :: cumulate cumulativeStars rest
  end.

(** The [data] of one dataset, from the events of one repository. *)
Definition starData (starEvents : list StarEvent) : list Point :=
  let sortedEvents :=
    js_sort (λ a b, starred_at a - starred_at b) starEvents in
  cumulate 0 sortedEvents.

(** [order] is [repoOrder] when it is not empty and
    [Array.from(map.keys())] otherwise.  [keys] are the keys of the map in
    the order of their insertion, which a [gmap] does not keep: the charts
    take them beside the map. *)
Definition chartOrder (repoOrder keys : list string) : list string :=
  if decide (0 < length repoOrder)%nat then repoOrder else keys.

(** The datasets, as pairs of label and data; a repository with no
    events, or with an empty list of them, is skipped. *)
Definition starDatasets (repoOrder keys : list string)
    (stargazersData : gmap string (list StarEvent))
  : list (string * list Point) :=
  omap (λ repoIdentifier,
          match stargazersData !! repoIdentifier with
          | None | Some [] => None
          | Some starEvents => Some (repoIdentifier, starData starEvents)
          end)
       (chartOrder repoOrder keys).

(** *** [_getIssueChartConfig]: the open-issue sweep line *)

(** The body of [issues.forEach]: the deltas of one issue go into
    [eventsByTime]; [get(..) || 0] is [default 0]. *)
Definition addIssue (eventsByTime : gmap Z Z) (issue : IssueEvent)
  : gmap Z Z :=
  let createdTime := created_at issue in
  let eventsByTime :=
    <[createdTime := default 0 (eventsByTime !! createdTime) + 1]>
      eventsByTime in
  match closed_at issue with
  | Some closedTime =>
      <[closedTime := default 0 (eventsByTime !! closedTime) - 1]>
        eventsByTime
  | None => eventsByTime
  end.

Definition eventsByTime (issues : list IssueEvent) : gmap Z Z :=
  foldl addIssue ∅ issues.

(** [Array.from(eventsByTime.keys()).sort((a, b) => a - b)] *)
Definition sortedTimes (eventsByTime : gmap Z Z) : list Z :=
  js_sort (λ a b, a - b) (map_to_list eventsByTime).*1.

(** [for (const time of sortedTimes) { openIssues += ...; data.push }] *)
Fixpoint sweep (eventsByTime : gmap Z Z) (openIssues : Z)
    (times : list Z) : list Point :=
  match times with
  | [] => []
  | time :: rest =>
      let openIssues := openIssues + default 0 (eventsByTime !! time) in
      {| x := time; y := openIssues |} :: sweep eventsByTime openIssues rest
  end.

(** The [data] of one dataset, from the issues of one repository. *)
Definition issueData (issues : list IssueEvent) : list Point :=
  let eventsByTime := eventsByTime issues in
  let sortedTimes := sortedTimes eventsByTime in
  let anchor :=
    match sortedTimes with
    | first :: _ => [{| x := first - 1; y := 0 |}]
    | [] => []
    end in
  anchor ++ sweep eventsByTime 0 sortedTimes.

Definition issueDatasets (repoOrder keys : list string)
    (issuesData : gmap string (list IssueEvent))
  : list (string * list Point) :=
  omap (λ repoIdentifier,
          match issuesData !! repoIdentifier with
          | None | Some [] => None
          | Some issues => Some (repoIdentifier, issueData issues)
          end)
       (chartOrder repoOrder keys).

(** The value that the stepped line through [data] shows at [time]: the
    [y] of the last point at or before it. *)
Definition stepAt (data : list Point) (time : Z) : Z :=
  foldl (λ shown p, if decide (x p ≤ time) then y p else shown) 0 data.

End Chart.

(** * The engine ([src/github-release-stats.ts]) *)

(** [SortKey] of the summary table. *)
Module SortKey.
Inductive t :=
  stars | latestVersion | lastUpdate | size | totalDownloads | openIssues
| manual.
#[global] Instance eq_dec : EqDecision t.
Proof. solve_decision. Defined.
End SortKey.

Module Engine.

Abbreviation SortKey := SortKey.t.

Inductive Direction := asc | desc.
#[global] Instance Direction_eq_dec : EqDecision Direction.
Proof. solve_decision. Defined.

(** An entry of [_repos]. *)
Record Repo := { username : string; repository : string }.
#[global] Instance Repo_eq_dec : EqDecision Repo.
Proof. solve_decision. Defined.

(** [`${r.username}/${r.repository}`] *)
Definition repoIdentifier (r : Repo) : string :=
  username r +:+ String slash EmptyString +:+ repository r.

(** The fields of a release and of the repository details that the engine
    reads from the responses. *)
Record GitHubReleaseAsset := { download_count : Z }.
Record GitHubRelease := {
  tag_name : string;
  published_at : option Z;
  assets : list GitHubReleaseAsset
}.
Record RepoDetails := {
  stargazers_count : Z;
  pushed_at : string;
  repo_size : Z;   (* the field [size] of the response *)
  open_issues_count : Z
}.

(** An item of a page of [issues.listForRepo]; [pull_request] says whether
    the item has that field. *)
Record IssueItem := {
  created_at : Z;
  closed_at : option Z;
  pull_request : bool
}.

Record RepoSummary := {
  identifier : string;
  stars : Z;
  latestVersion : string;
  lastUpdate : string;
  size : Z;
  totalDownloads : Z;
  openIssues : Z
}.

(** The remote API as the engine sees it through [this.octokit].  A paged
    endpoint is the list of the pages that [paginate.iterator] yields, each
    the outcome of one request. *)
Record Octokit := {
  listReleases : string → string → option (list GitHubRelease);
  get : string → string → option RepoDetails;
  listStargazersForRepo :
    string → string → list (option (list Chart.StarEvent));
  listForRepo : string → string → list (option (list IssueItem))
}.

(** The reactive state of the component, and [location_repos] for the
    [repos] parameter of the address bar. *)
Record State := mkState {
  _newUsername : string;
  _newRepository : string;
  _repos : list Repo;
  _releasesData : gmap string (list GitHubRelease);
  _downloadsData : gmap string Z;
  _stargazersData : gmap string (list Chart.StarEvent);
  _issuesData : gmap string (list Chart.IssueEvent);
  _repoSummaryData : list RepoSummary;
  _repoOrder : list string;
  _chartMetric : SortKey;
  _sortKey : SortKey;
  _sortDirection : Direction;
  _loading : bool;
  _error : string;
  _authError : string;
  _githubToken : string;
  _savedSets : gmap string (list string);
  location_repos : option string
}.

(** Assignment to a field: [s <| f := v |>] is [s] after [this.f = v]. *)
Class Setter {F : Type} (proj : State → F) := set : F → State → State.
Arguments set {F} proj {Setter} v s /.
Notation "s <| proj := v |>" := (set proj v s)
  (at level 1, left associativity, format "s  <| proj  :=  v |>").

#[global] Instance set_newUsername : Setter _newUsername := λ v s,
  mkState v (_newRepository s) (_repos s) (_releasesData s)
    (_downloadsData s) (_stargazersData s) (_issuesData s)
    (_repoSummaryData s) (_repoOrder s) (_chartMetric s) (_sortKey s)
    (_sortDirection s) (_loading s) (_error s) (_authError s)
    (_githubToken s) (_savedSets s) (location_repos s).
Arguments set_newUsername _ _ /.
#[global] Instance set_newRepository : Setter _newRepository := λ v s,
  mkState (_newUsername s) v (_repos s) (_releasesData s) (_downloadsData
    s) (_stargazersData s) (_issuesData s) (_repoSummaryData s)
    (_repoOrder s) (_chartMetric s) (_sortKey s) (_sortDirection s)
    (_loading s) (_error s) (_authError s) (_githubToken s) (_savedSets s)
    (location_repos s).
Arguments set_newRepository _ _ /.
#[global] Instance set_repos : Setter _repos := λ v s,
  mkState (_newUsername s) (_newRepository s) v (_releasesData s)
    (_downloadsData s) (_stargazersData s) (_issuesData s)
    (_repoSummaryData s) (_repoOrder s) (_chartMetric s) (_sortKey s)
    (_sortDirection s) (_loading s) (_error s) (_authError s)
    (_githubToken s) (_savedSets s) (location_repos s).
Arguments set_repos _ _ /.
#[global] Instance set_releasesData : Setter _releasesData := λ v s,
  mkState (_newUsername s) (_newRepository s) (_repos s) v (_downloadsData
    s) (_stargazersData s) (_issuesData s) (_repoSummaryData s)
    (_repoOrder s) (_chartMetric s) (_sortKey s) (_sortDirection s)
    (_loading s) (_error s) (_authError s) (_githubToken s) (_savedSets s)
    (location_repos s).
Arguments set_releasesData _ _ /.
#[global] Instance set_downloadsData : Setter _downloadsData := λ v s,
  mkState (_newUsername s) (_newRepository s) (_repos s) (_releasesData s)
    v (_stargazersData s) (_issuesData s) (_repoSummaryData s) (_repoOrder
    s) (_chartMetric s) (_sortKey s) (_sortDirection s) (_loading s)
    (_error s) (_authError s) (_githubToken s) (_savedSets s)
    (location_repos s).
Arguments set_downloadsData _ _ /.
#[global] Instance set_stargazersData : Setter _stargazersData := λ v s,
  mkState (_newUsername s) (_newRepository s) (_repos s) (_releasesData s)
    (_downloadsData s) v (_issuesData s) (_repoSummaryData s) (_repoOrder
    s) (_chartMetric s) (_sortKey s) (_sortDirection s) (_loading s)
    (_error s) (_authError s) (_githubToken s) (_savedSets s)
    (location_repos s).
Arguments set_stargazersData _ _ /.
#[global] Instance set_issuesData : Setter _issuesData := λ v s,
  mkState (_newUsername s) (_newRepository s) (_repos s) (_releasesData s)
    (_downloadsData s) (_stargazersData s) v (_repoSummaryData s)
    (_repoOrder s) (_chartMetric s) (_sortKey s) (_sortDirection s)
    (_loading s) (_error s) (_authError s) (_githubToken s) (_savedSets s)
    (location_repos s).
Arguments set_issuesData _ _ /.
#[global] Instance set_repoSummaryData : Setter _repoSummaryData := λ v s,
  mkState (_newUsername s) (_newRepository s) (_repos s) (_releasesData s)
    (_downloadsData s) (_stargazersData s) (_issuesData s) v (_repoOrder
    s) (_chartMetric s) (_sortKey s) (_sortDirection s) (_loading s)
    (_error s) (_authError s) (_githubToken s) (_savedSets s)
    (location_repos s).
Arguments set_repoSummaryData _ _ /.
#[global] Instance set_repoOrder : Setter _repoOrder := λ v s,
  mkState (_newUsername s) (_newRepository s) (_repos s) (_releasesData s)
    (_downloadsData s) (_stargazersData s) (_issuesData s)
    (_repoSummaryData s) v (_chartMetric s) (_sortKey s) (_sortDirection
    s) (_loading s) (_error s) (_authError s) (_githubToken s) (_savedSets
    s) (location_repos s).
Arguments set_repoOrder _ _ /.
#[global] Instance set_chartMetric : Setter _chartMetric := λ v s,
  mkState (_newUsername s) (_newRepository s) (_repos s) (_releasesData s)
    (_downloadsData s) (_stargazersData s) (_issuesData s)
    (_repoSummaryData s) (_repoOrder s) v (_sortKey s) (_sortDirection s)
    (_loading s) (_error s) (_authError s) (_githubToken s) (_savedSets s)
    (location_repos s).
Arguments set_chartMetric _ _ /.
#[global] Instance set_sortKey : Setter _sortKey := λ v s,
  mkState (_newUsername s) (_newRepository s) (_repos s) (_releasesData s)
    (_downloadsData s) (_stargazersData s) (_issuesData s)
    (_repoSummaryData s) (_repoOrder s) (_chartMetric s) v (_sortDirection
    s) (_loading s) (_error s) (_authError s) (_githubToken s) (_savedSets
    s) (location_repos s).
Arguments set_sortKey _ _ /.
#[global] Instance set_sortDirection : Setter _sortDirection := λ v s,
  mkState (_newUsername s) (_newRepository s) (_repos s) (_releasesData s)
    (_downloadsData s) (_stargazersData s) (_issuesData s)
    (_repoSummaryData s) (_repoOrder s) (_chartMetric s) (_sortKey s) v
    (_loading s) (_error s) (_authError s) (_githubToken s) (_savedSets s)
    (location_repos s).
Arguments set_sortDirection _ _ /.
#[global] Instance set_loading : Setter _loading := λ v s,
  mkState (_newUsername s) (_newRepository s) (_repos s) (_releasesData s)
    (_downloadsData s) (_stargazersData s) (_issuesData s)
    (_repoSummaryData s) (_repoOrder s) (_chartMetric s) (_sortKey s)
    (_sortDirection s) v (_error s) (_authError s) (_githubToken s)
    (_savedSets s) (location_repos s).
Arguments set_loading _ _ /.
#[global] Instance set_error : Setter _error := λ v s,
  mkState (_newUsername s) (_newRepository s) (_repos s) (_releasesData s)
    (_downloadsData s) (_stargazersData s) (_issuesData s)
    (_repoSummaryData s) (_repoOrder s) (_chartMetric s) (_sortKey s)
    (_sortDirection s) (_loading s) v (_authError s) (_githubToken s)
    (_savedSets s) (location_repos s).
Arguments set_error _ _ /.
#[global] Instance set_authError : Setter _authError := λ v s,
  mkState (_newUsername s) (_newRepository s) (_repos s) (_releasesData s)
    (_downloadsData s) (_stargazersData s) (_issuesData s)
    (_repoSummaryData s) (_repoOrder s) (_chartMetric s) (_sortKey s)
    (_sortDirection s) (_loading s) (_error s) v (_githubToken s)
    (_savedSets s) (location_repos s).
Arguments set_authError _ _ /.
#[global] Instance set_githubToken : Setter _githubToken := λ v s,
  mkState (_newUsername s) (_newRepository s) (_repos s) (_releasesData s)
    (_downloadsData s) (_stargazersData s) (_issuesData s)
    (_repoSummaryData s) (_repoOrder s) (_chartMetric s) (_sortKey s)
    (_sortDirection s) (_loading s) (_error s) (_authError s) v
    (_savedSets s) (location_repos s).
Arguments set_githubToken _ _ /.
#[global] Instance set_savedSets : Setter _savedSets := λ v s,
  mkState (_newUsername s) (_newRepository s) (_repos s) (_releasesData s)
    (_downloadsData s) (_stargazersData s) (_issuesData s)
    (_repoSummaryData s) (_repoOrder s) (_chartMetric s) (_sortKey s)
    (_sortDirection s) (_loading s) (_error s) (_authError s)
    (_githubToken s) v (location_repos s).
Arguments set_savedSets _ _ /.
#[global] Instance set_location_repos : Setter location_repos := λ v s,
  mkState (_newUsername s) (_newRepository s) (_repos s) (_releasesData s)
    (_downloadsData s) (_stargazersData s) (_issuesData s)
    (_repoSummaryData s) (_repoOrder s) (_chartMetric s) (_sortKey s)
    (_sortDirection s) (_loading s) (_error s) (_authError s)
    (_githubToken s) (_savedSets s) v.
Arguments set_location_repos _ _ /.

(** A request of the lazy supplemental fetch: a call of
    [_fetchStargazers] or of [_fetchIssues] for a repository. *)
Inductive Request :=
| FetchStargazers (repo : Repo)
| FetchIssues (repo : Repo).

(** *** The bounded page collectors *)

Definition MAX_STARGAZER_PAGES : nat := 10.
Definition MAX_ISSUE_PAGES : nat := 10.

(** The [for await] loop of [_fetchStargazers] over the pages that the
    iterator still has to yield.  The result is the array returned and the
    number of pages consumed; a request that fails rejects the call. *)
Fixpoint stargazersLoop (iterator : list (option (list Chart.StarEvent)))
    (stargazers : list Chart.StarEvent) (pageCount : nat)
  : option (list Chart.StarEvent * nat) :=
  match iterator with
  | [] => Some (stargazers, pageCount)
  | None :: _ => None
  | Some pageData :: iterator =>
      let stargazers := stargazers ++ pageData in
      let pageCount := S pageCount in
      if decide (MAX_STARGAZER_PAGES ≤ pageCount)%nat
      then Some (stargazers, pageCount)
      else stargazersLoop iterator stargazers pageCount
  end.

Definition _fetchStargazers (octokit : Octokit) (owner repo : string)
  : option (list Chart.StarEvent) :=
  fst <$> stargazersLoop (listStargazersForRepo octokit owner repo) [] 0.

(** The server sends at most [per_page: 100] items a page. *)
Definition page_sizes_ok {A} (pages : list (option (list A))) : Prop :=
  Forall (from_option (λ items, (length items ≤ 100)%nat) True) pages.

(** The loop of [_fetchIssues]: pull requests are filtered out of each
    page and the two dates of each issue are kept. *)
Definition issuesOnly (pageData : list IssueItem) : list Chart.IssueEvent :=
  (λ i, {| Chart.created_at := created_at i;
           Chart.closed_at := closed_at i |})
    <$> filter (λ issue, pull_request issue = false) pageData.

Fixpoint issuesLoop (iterator : list (option (list IssueItem)))
    (issues : list Chart.IssueEvent) (pageCount : nat)
  : option (list Chart.IssueEvent * nat) :=
  match iterator with
  | [] => Some (issues, pageCount)
  | None :: _ => None
  | Some pageData :: iterator =>
      let issues := issues ++ issuesOnly pageData in
      let pageCount := S pageCount in
      if decide (MAX_ISSUE_PAGES ≤ pageCount)%nat
      then Some (issues, pageCount)
      else issuesLoop iterator issues pageCount
  end.

Definition _fetchIssues (octokit : Octokit) (owner repo : string)
  : option (list Chart.IssueEvent) :=
  fst <$> issuesLoop (listForRepo octokit owner repo) [] 0.

(** *** State at construction *)

(** The field initialisers and the constructor, for the token and the saved
    sets found in the storage. *)
Definition initial (token : string) (sets : gmap string (list string))
  : State :=
  {| _newUsername := EmptyString; _newRepository := EmptyString;
     _repos := []; _releasesData := ∅; _downloadsData := ∅;
     _stargazersData := ∅; _issuesData := ∅; _repoSummaryData := [];
     _repoOrder := [];
     _chartMetric := SortKey.totalDownloads;
     _sortKey := SortKey.totalDownloads; _sortDirection := desc;
     _loading := false; _error := EmptyString; _authError := EmptyString;
     _githubToken := token; _savedSets := sets; location_repos := None |}.

Section handlers.
(** [this.localize.t] *)
Context (t : string → string).

(** *** [_updateURL] *)
Definition _updateURL (s : State) : State :=
  if decide (0 < length (_repoOrder s))%nat
  then s <| location_repos := Some (join comma (_repoOrder s)) |>
  else s <| location_repos := None |>.

(** *** [_fetchDataForRepos] *)

(** The two requests for a repository, joined by the inner [Promise.all]. *)
Definition fetchPair (octokit : Octokit) (r : Repo)
  : option (list GitHubRelease * RepoDetails) :=
  releasesResponse ← listReleases octokit (username r) (repository r);
  repoDetailsResponse ← get octokit (username r) (repository r);
  Some (releasesResponse, repoDetailsResponse).

(** [releases.reduce((total, release) => total + release.assets.reduce(
      (sum, asset) => sum + asset.download_count, 0), 0)] *)
Definition totalDownloadsOf (releases : list GitHubRelease) : Z :=
  foldl (λ total release,
           total + foldl (λ sum asset, sum + download_count asset) 0
                     (assets release))
        0 releases.

(** [releases[0]?.tag_name || this.localize.t('common.notAvailable')] *)
Definition latestVersionOf (releases : list GitHubRelease) : string :=
  match releases with
  | release :: _ =>
      if decide (tag_name release = EmptyString)
      then t "common.notAvailable" else tag_name release
  | [] => t "common.notAvailable"
  end.

(** The three accumulators of the commit. *)
Record Batch := {
  newReleasesData : gmap string (list GitHubRelease);
  newDownloadsData : gmap string Z;
  newSummaryData : list RepoSummary
}.

(** The body of [results.forEach] for the result at [index]; [repos] is
    [this._repos] when the results are committed. *)
Definition commitResult (repos : list Repo) (index : nat)
    (result : list GitHubRelease * RepoDetails) (acc : Batch) : Batch :=
  let '(releasesResponse, repoDetails) := result in
  match repos !! index with
  | Some repo =>
      let repoIdentifier := repoIdentifier repo in
      let releases :=
        filter (λ r, is_Some (published_at r)) releasesResponse in
      let totalDownloads := totalDownloadsOf releases in
      {| newReleasesData :=
           <[repoIdentifier := releases]> (newReleasesData acc);
         newDownloadsData :=
           <[repoIdentifier := totalDownloads]> (newDownloadsData acc);
         newSummaryData :=
           newSummaryData acc ++
           [{| identifier := repoIdentifier;
               stars := stargazers_count repoDetails;
               latestVersion := latestVersionOf releases;
               lastUpdate := pushed_at repoDetails;
               size := repo_size repoDetails;
               totalDownloads := totalDownloads;
               openIssues := open_issues_count repoDetails |}] |}
  | None => acc
  end.

Fixpoint commitResults (repos : list Repo) (index : nat)
    (results : list (list GitHubRelease * RepoDetails)) (acc : Batch)
  : Batch :=
  match results with
  | [] => acc
  | result :: results =>
      commitResults repos (S index) results
        (commitResult repos index result acc)
  end.

(** The part of [_fetchDataForRepos] that runs at the call: the flags and
    the fan-out of the requests. *)
Definition fetchBegin (octokit : Octokit) (s : State)
  : State * list (option (list GitHubRelease * RepoDetails)) :=
  let s := s <| _loading := true |> <| _error := EmptyString |> in
  (s, fetchPair octokit <$> _repos s).

(** The part after [await Promise.all(fetchPromises)], on the state of
    that moment. *)
Definition fetchSettle
    (fetchPromises : list (option (list GitHubRelease * RepoDetails)))
    (s : State) : State :=
  match Promise_all fetchPromises with
  | Some results =>
      let batch :=
        commitResults (_repos s) 0 results
          {| newReleasesData := ∅; newDownloadsData := ∅;
             newSummaryData := [] |} in
      s <| _releasesData := newReleasesData batch |>
        <| _downloadsData := newDownloadsData batch |>
        <| _repoSummaryData := newSummaryData batch |>
        <| _repoOrder := repoIdentifier <$> _repos s |>
        <| _loading := false |>
  | None =>
      s <| _error := t "errors.fetchRepoData" |> <| _loading := false |>
  end.

(** A batch fetch that no other handler interleaves with. *)
Definition _fetchDataForRepos (octokit : Octokit) (s : State) : State :=
  let '(s, fetchPromises) := fetchBegin octokit s in
  fetchSettle fetchPromises s.

(** *** [_handleFormSubmit] *)

(** The handler and then, nothing interleaving, the rest of the fetch that
    it started: [_updateURL] and the reset of the form run before the
    requests settle. *)
Definition _handleFormSubmit (octokit : Octokit) (s : State) : State :=
  if decide (_newUsername s = EmptyString ∨ _newRepository s = EmptyString)
  then s
  else
    let newRepo :=
      {| username := _newUsername s; repository := _newRepository s |} in
    if decide (newRepo ∈ _repos s)
    then s <| _newRepository := EmptyString |>
    else
      let s := s <| _repos := _repos s ++ [newRepo] |> in
      let '(s, fetchPromises) := fetchBegin octokit s in
      let s := _updateURL s in
      let s := s <| _newRepository := EmptyString |> in
      fetchSettle fetchPromises s.

(** *** [_handleRemoveRepo] *)
Definition _handleRemoveRepo (repoToRemove : Repo) (s : State) : State :=
  let repoIdentifier' := repoIdentifier repoToRemove in
  let s :=
    s <| _repos := filter (λ r, repoIdentifier r ≠ repoIdentifier')
                     (_repos s) |> in
  let s :=
    s <| _repoOrder := filter (λ id, id ≠ repoIdentifier')
                         (_repoOrder s) |> in
  let s := s <| _releasesData := delete repoIdentifier' (_releasesData s) |> in
  let s :=
    s <| _downloadsData := delete repoIdentifier' (_downloadsData s) |> in
  let s :=
    s <| _stargazersData := delete repoIdentifier' (_stargazersData s) |> in
  let s := s <| _issuesData := delete repoIdentifier' (_issuesData s) |> in
  let s :=
    s <| _repoSummaryData := filter (λ d, identifier d ≠ repoIdentifier')
                               (_repoSummaryData s) |> in
  _updateURL s.

(** *** [_setNewOrder] *)
Definition _setNewOrder (newOrder : list string) (s : State) : State :=
  let s := s <| _repoOrder := newOrder |> in
  let s := s <| _sortKey := SortKey.manual |> in
  _updateURL s.

(** *** [_handleRequestSort] *)

(** [comparison] of the comparator, from the [>] and [<] of the values. *)
Definition comparison {V} (lt : V → V → bool) (valA valB : V) : Z :=
  if lt valB valA then 1 else if lt valA valB then -1 else 0.

(** The comparator for [a[newSortKey]] and [b[newSortKey]]: numbers by
    value, strings by their characters. *)
Definition compareBy (newSortKey : SortKey) (a b : RepoSummary) : Z :=
  match newSortKey with
  | SortKey.stars => comparison Z.ltb (stars a) (stars b)
  | SortKey.latestVersion =>
      comparison String.ltb (latestVersion a) (latestVersion b)
  | SortKey.lastUpdate =>
      comparison String.ltb (lastUpdate a) (lastUpdate b)
  | SortKey.size => comparison Z.ltb (size a) (size b)
  | SortKey.totalDownloads =>
      comparison Z.ltb (totalDownloads a) (totalDownloads b)
  | SortKey.openIssues => comparison Z.ltb (openIssues a) (openIssues b)
  | SortKey.manual => 0
  end.

Definition sortCompare (newSortKey : SortKey) (newSortDirection : Direction)
    (a b : RepoSummary) : Z :=
  let comparison := compareBy newSortKey a b in
  match newSortDirection with asc => comparison | desc => - comparison end.

(** The body of the [forEach] that merges the results of a supplemental
    fetch into the copy of the cache. *)
Fixpoint mergeResults {V} (reposToFetch : list Repo) (index : nat)
    (results : list V) (newData : gmap string V) : gmap string V :=
  match results with
  | [] => newData
  | result :: results =>
      mergeResults reposToFetch (S index) results
        match reposToFetch !! index with
        | Some repo => <[repoIdentifier repo := result]> newData
        | None => newData
        end
  end.

(** The lazy fetch of the star events after a sort by stars. *)
Definition loadStargazers (octokit : Octokit) (s : State)
  : State * list Request :=
  let reposToFetch :=
    filter (λ repo, _stargazersData s !! repoIdentifier repo = None)
      (_repos s) in
  if decide (0 < length reposToFetch)%nat then
    let s := s <| _loading := true |> in
    let stargazerPromises :=
      (λ repo, _fetchStargazers octokit (username repo) (repository repo))
        <$> reposToFetch in
    let s :=
      match Promise_all stargazerPromises with
      | Some results =>
          s <| _stargazersData :=
                 mergeResults reposToFetch 0 results (_stargazersData s) |>
      | None => s <| _error := t "errors.fetchStarHistory" |>
      end in
    (s <| _loading := false |>, FetchStargazers <$> reposToFetch)
  else (s, []).

(** The lazy fetch of the issue events after a sort by open issues. *)
Definition loadIssues (octokit : Octokit) (s : State)
  : State * list Request :=
  let reposToFetch :=
    filter (λ repo, _issuesData s !! repoIdentifier repo = None)
      (_repos s) in
  if decide (0 < length reposToFetch)%nat then
    let s := s <| _loading := true |> in
    let issuePromises :=
      (λ repo, _fetchIssues octokit (username repo) (repository repo))
        <$> reposToFetch in
    let s :=
      match Promise_all issuePromises with
      | Some results =>
          s <| _issuesData :=
                 mergeResults reposToFetch 0 results (_issuesData s) |>
      | None => s <| _error := t "errors.fetchIssueHistory" |>
      end in
    (s <| _loading := false |>, FetchIssues <$> reposToFetch)
  else (s, []).

(** The handler, with the collector calls that it made. *)
Definition _handleRequestSort (octokit : Octokit) (newSortKey : SortKey)
    (s : State) : State * list Request :=
  let s := s <| _authError := EmptyString |> in
  if decide ((newSortKey = SortKey.stars ∨ newSortKey = SortKey.openIssues)
             ∧ _githubToken s = EmptyString)
  then (s <| _authError := t "errors.authRequired" |>, [])
  else if decide (newSortKey = SortKey.manual) then (s, [])
  else
    let newSortDirection :=
      if decide (_sortKey s = newSortKey)
      then match _sortDirection s with asc => desc | desc => asc end
      else if decide (newSortKey = SortKey.latestVersion
                      ∨ newSortKey = SortKey.lastUpdate)
           then asc else desc in
    let s := s <| _sortKey := newSortKey |> in
    let s := s <| _sortDirection := newSortDirection |> in
    let s := s <| _chartMetric := newSortKey |> in
    let sorted :=
      js_sort (sortCompare newSortKey newSortDirection)
        (_repoSummaryData s) in
    let s := s <| _repoOrder := identifier <$> sorted |> in
    let s := _updateURL s in
    if decide (newSortKey = SortKey.stars) then loadStargazers octokit s
    else if decide (newSortKey = SortKey.openIssues)
         then loadIssues octokit s
         else (s, []).

(** *** [_handleClearAllRepos]: the action run on confirmation *)
Definition clearAction (s : State) : State :=
  let s := s <| _repos := [] |> in
  let s := s <| _releasesData := ∅ |> in
  let s := s <| _downloadsData := ∅ |> in
  let s := s <| _stargazersData := ∅ |> in
  let s := s <| _issuesData := ∅ |> in
  let s := s <| _repoSummaryData := [] |> in
  let s := s <| _repoOrder := [] |> in
  let s := s <| _error := EmptyString |> in
  let s := s <| _authError := EmptyString |> in
  _updateURL s.

(** *** Saved sets *)

(** [_handleSaveSetConfirm]; [setName] is the trimmed value of the input. *)
Definition _handleSaveSetConfirm (setName : string) (s : State) : State :=
  if decide (setName = EmptyString) then s
  else
    let repoIdentifiers := repoIdentifier <$> _repos s in
    s <| _savedSets := <[setName := repoIdentifiers]> (_savedSets s) |>.

(** [const [username, repository] = r.split('/')
     return username && repository ? { username, repository } : null] *)
Definition parseRepo (r : string) : option Repo :=
  match split slash r with
  | username :: repository :: _ =>
      if decide (username ≠ EmptyString ∧ repository ≠ EmptyString)
      then Some {| username := username; repository := repository |}
      else None
  | _ => None
  end.

(** [_handleLoadSet], and then the rest of the fetch that it started. *)
Definition _handleLoadSet (octokit : Octokit) (setName : string)
    (s : State) : State :=
  match _savedSets s !! setName with
  | Some repoIdentifiers =>
      let s := s <| _repos := omap parseRepo repoIdentifiers |> in
      let '(s, fetchPromises) := fetchBegin octokit s in
      let s := _updateURL s in
      fetchSettle fetchPromises s
  | None => s
  end.

(** [_handleDeleteSet]: the action run on confirmation. *)
Definition deleteAction (setName : string) (s : State) : State :=
  s <| _savedSets := delete setName (_savedSets s) |>.

(** [_handleUpdateSet] *)
Definition _handleUpdateSet (setName : string) (s : State) : State :=
  let repoIdentifiers := repoIdentifier <$> _repos s in
  s <| _savedSets := <[setName := repoIdentifiers]> (_savedSets s) |>.

(** *** [_updateAuthToken]; [octokit] is the client made for the token. *)
Definition _updateAuthToken (octokit : Octokit) (token : string)
    (s : State) : State :=
  let s := s <| _githubToken := token |> in
  if decide (0 < length (_repos s))%nat
  then _fetchDataForRepos octokit s else s.

(** *** [_handleExportCsv] *)

(** [String(n)] for an integer. *)
Definition String_of (n : Z) : string := pretty n.

(** The [replace] of [escapeCsv]: every double quote becomes two. *)
Fixpoint doubleQuotes (s : string) : string :=
  match s with
  | EmptyString => EmptyString
  | String c rest =>
      if decide (c = dquote)
      then String dquote (String dquote (doubleQuotes rest))
      else String c (doubleQuotes rest)
  end.

Definition escapeCsv (s : string) : string :=
  if includes comma s || includes dquote s || includes newline s
  then String dquote (doubleQuotes s +:+ String dquote EmptyString)
  else s.

Definition headers : list string :=
  ["Repository"; "Stars"; "Latest Version"; "Last Update"; "Size (KB)";
   "Total Downloads"].

Definition csvRow (repo : RepoSummary) : string :=
  join comma
    [escapeCsv (identifier repo); String_of (stars repo);
     escapeCsv (latestVersion repo); lastUpdate repo;
     String_of (size repo); String_of (totalDownloads repo)].

(** The text of the file offered for download, [None] when the handler
    returns before making one. *)
Definition _handleExportCsv (s : State) : option string :=
  if decide (length (_repoSummaryData s) = 0)%nat then None
  else
    let sortedData :=
      omap (λ identifier',
              snd <$> list_find (λ d, identifier d = identifier')
                        (_repoSummaryData s))
           (_repoOrder s) in
    let rows := csvRow <$> sortedData in
    Some (join newline (join comma headers :: rows)).
End handlers.

(** *** Intents of the rendering layer *)

(** What the rendering layer can ask of the engine; an intent that makes
    requests carries the remote API as it answers them. *)
Inductive Intent :=
| AddRepo (newUsername newRepository : string) (octokit : Octokit)
| RemoveRepo (repoToRemove : Repo)
| RequestSort (newSortKey : SortKey) (octokit : Octokit)
| SetManualOrder (newOrder : list string)
| ClearAll
| SaveSet (setName : string)
| LoadSet (setName : string) (octokit : Octokit)
| DeleteSet (setName : string)
| UpdateSet (setName : string)
| SetCredential (token : string) (octokit : Octokit).

(** The state after an intent has been handled and its requests have
    settled.  Adding a repository is typing the two names and submitting
    the form. *)
Definition run (t : string → string) (s : State) (i : Intent) : State :=
  match i with
  | AddRepo newUsername newRepository octokit =>
      _handleFormSubmit t octokit
        (s <| _newUsername := newUsername |>
           <| _newRepository := newRepository |>)
  | RemoveRepo repoToRemove => _handleRemoveRepo repoToRemove s
  | RequestSort newSortKey octokit =>
      (_handleRequestSort t octokit newSortKey s).1
  | SetManualOrder newOrder => _setNewOrder newOrder s
  | ClearAll => clearAction s
  | SaveSet setName => _handleSaveSetConfirm setName s
  | LoadSet setName octokit => _handleLoadSet t octokit setName s
  | DeleteSet setName => deleteAction setName s
  | UpdateSet setName => _handleUpdateSet setName s
  | SetCredential token octokit => _updateAuthToken t octokit token s
  end.

(** The pills that [render] draws in the container that the drag widget
    reorders: the identifiers of [_repoOrder] found in [_repos]. *)
Definition pills (s : State) : list string :=
  filter (λ id, id ∈ repoIdentifier <$> _repos s) (_repoOrder s).

(** What the collaborators guarantee of an intent: the names typed into
    the form are names of the hosting service, which have no slash; a repo
    is removed through its pill; the drag widget hands over the pills in
    their new order. *)
Definition intent_wf (s : State) (i : Intent) : Prop :=
  match i with
  | AddRepo newUsername newRepository _ =>
      includes slash newUsername = false
      ∧ includes slash newRepository = false
  | RemoveRepo repoToRemove => repoToRemove ∈ _repos s
  | SetManualOrder newOrder => newOrder ≡ₚ pills s
  | _ => True
  end.

(** The batch of primary requests that an intent makes, if any: the client
    and the repositories asked about. *)
Definition batchOf (s : State) (i : Intent) : option (Octokit * list Repo) :=
  match i with
  | AddRepo newUsername newRepository octokit =>
      let newRepo :=
        {| username := newUsername; repository := newRepository |} in
      if decide (newUsername = EmptyString ∨ newRepository = EmptyString)
      then None
      else if decide (newRepo ∈ _repos s) then None
           else Some (octokit, _repos s ++ [newRepo])
  | LoadSet setName octokit =>
      match _savedSets s !! setName with
      | Some repoIdentifiers =>
          Some (octokit, omap parseRepo repoIdentifiers)
      | None => None
      end
  | SetCredential _ octokit =>
      if decide (0 < length (_repos s))%nat
      then Some (octokit, _repos s) else None
  | _ => None
  end.

(** Every request of the batch of the intent is answered. *)
Definition batch_succeeds (s : State) (i : Intent) : Prop :=
  match batchOf s i with
  | Some (octokit, repos) =>
      is_Some (Promise_all (fetchPair octokit <$> repos))
  | None => True
  end.

(** The saved sets found in the storage were written by the engine: each
    lists, without repetition, identifiers of repositories with proper
    names. *)
Definition valid_name (name : string) : Prop :=
  name ≠ EmptyString ∧ includes slash name = false.

Definition valid_repo (r : Repo) : Prop :=
  valid_name (username r) ∧ valid_name (repository r).

Definition sets_wf (sets : gmap string (list string)) : Prop :=
  ∀ setName repoIdentifiers,
    sets !! setName = Some repoIdentifiers →
    NoDup repoIdentifiers
    ∧ ∃ repos, Forall valid_repo repos
               ∧ repoIdentifiers = repoIdentifier <$> repos.

(** The states that the engine reaches from [s0] through intents that
    satisfy [ok]. *)
Inductive reaches (t : string → string) (ok : State → Intent → Prop)
    (s0 : State) : State → Prop :=
| reaches_here : reaches t ok s0 s0
| reaches_step s i :
    reaches t ok s0 s → ok s i → reaches t ok s0 (run t s i).

(** *** Handlers and the settling of their fetches, apart

    A handler runs up to its first [await]; what follows the [await] runs
    when the requests have settled, on the state of that moment, and other
    handlers run in between.  [_handleFormSubmit], [_handleLoadSet] and
    [_updateAuthToken] do not wait for the batch fetch that they start, and
    no handler is held back while a fetch is under way. *)

(** A fetch under way: the promises that it waits for and, for a
    supplemental fetch, the repositories that it asks about. *)
Inductive Fetch :=
| BatchFetch
    (fetchPromises : list (option (list GitHubRelease * RepoDetails)))
| StargazersFetch (reposToFetch : list Repo)
    (stargazerPromises : list (option (list Chart.StarEvent)))
| IssuesFetch (reposToFetch : list Repo)
    (issuePromises : list (option (list Chart.IssueEvent))).

(** [_handleFormSubmit] up to its return: the batch fetch that it starts
    is left under way. *)
Definition startFormSubmit (octokit : Octokit) (s : State)
  : State * list Fetch :=
  if decide (_newUsername s = EmptyString ∨ _newRepository s = EmptyString)
  then (s, [])
  else
    let newRepo :=
      {| username := _newUsername s; repository := _newRepository s |} in
    if decide (newRepo ∈ _repos s)
    then (s <| _newRepository := EmptyString |>, [])
    else
      let s := s <| _repos := _repos s ++ [newRepo] |> in
      let '(s, fetchPromises) := fetchBegin octokit s in
      let s := _updateURL s in
      let s := s <| _newRepository := EmptyString |> in
      (s, [BatchFetch fetchPromises]).

(** [_handleLoadSet] up to its return. *)
Definition startLoadSet (octokit : Octokit) (setName : string) (s : State)
  : State * list Fetch :=
  match _savedSets s !! setName with
  | Some repoIdentifiers =>
      let s := s <| _repos := omap parseRepo repoIdentifiers |> in
      let '(s, fetchPromises) := fetchBegin octokit s in
      let s := _updateURL s in
      (s, [BatchFetch fetchPromises])
  | None => (s, [])
  end.

(** [_updateAuthToken] up to its return. *)
Definition startAuthToken (octokit : Octokit) (token : string) (s : State)
  : State * list Fetch :=
  let s := s <| _githubToken := token |> in
  if decide (0 < length (_repos s))%nat
  then
    let '(s, fetchPromises) := fetchBegin octokit s in
    (s, [BatchFetch fetchPromises])
  else (s, []).

(** The lazy fetch of the star events up to its [await]. *)
Definition startStargazers (octokit : Octokit) (s : State)
  : State * list Fetch :=
  let reposToFetch :=
    filter (λ repo, _stargazersData s !! repoIdentifier repo = None)
      (_repos s) in
  if decide (0 < length reposToFetch)%nat then
    let s := s <| _loading := true |> in
    let stargazerPromises :=
      (λ repo, _fetchStargazers octokit (username repo) (repository repo))
        <$> reposToFetch in
    (s, [StargazersFetch reposToFetch stargazerPromises])
  else (s, []).

(** The lazy fetch of the issue events up to its [await]. *)
Definition startIssues (octokit : Octokit) (s : State)
  : State * list Fetch :=
  let reposToFetch :=
    filter (λ repo, _issuesData s !! repoIdentifier repo = None)
      (_repos s) in
  if decide (0 < length reposToFetch)%nat then
    let s := s <| _loading := true |> in
    let issuePromises :=
      (λ repo, _fetchIssues octokit (username repo) (repository repo))
        <$> reposToFetch in
    (s, [IssuesFetch reposToFetch issuePromises])
  else (s, []).

(** [_handleRequestSort] up to its first [await]. *)
Definition startRequestSort (t : string → string) (octokit : Octokit)
    (newSortKey : SortKey) (s : State) : State * list Fetch :=
  let s := s <| _authError := EmptyString |> in
  if decide ((newSortKey = SortKey.stars ∨ newSortKey = SortKey.openIssues)
             ∧ _githubToken s = EmptyString)
  then (s <| _authError := t "errors.authRequired" |>, [])
  else if decide (newSortKey = SortKey.manual) then (s, [])
  else
    let newSortDirection :=
      if decide (_sortKey s = newSortKey)
      then match _sortDirection s with asc => desc | desc => asc end
      else if decide (newSortKey = SortKey.latestVersion
                      ∨ newSortKey = SortKey.lastUpdate)
           then asc else desc in
    let s := s <| _sortKey := newSortKey |> in
    let s := s <| _sortDirection := newSortDirection |> in
    let s := s <| _chartMetric := newSortKey |> in
    let sorted :=
      js_sort (sortCompare newSortKey newSortDirection)
        (_repoSummaryData s) in
    let s := s <| _repoOrder := identifier <$> sorted |> in
    let s := _updateURL s in
    if decide (newSortKey = SortKey.stars) then startStargazers octokit s
    else if decide (newSortKey = SortKey.openIssues)
         then startIssues octokit s
         else (s, []).

(** The state when the handler of an intent returns, and the fetches that
    it leaves under way. *)
Definition start (t : string → string) (s : State) (i : Intent)
  : State * list Fetch :=
  match i with
  | AddRepo newUsername newRepository octokit =>
      startFormSubmit octokit
        (s <| _newUsername := newUsername |>
           <| _newRepository := newRepository |>)
  | RemoveRepo repoToRemove => (_handleRemoveRepo repoToRemove s, [])
  | RequestSort newSortKey octokit =>
      startRequestSort t octokit newSortKey s
  | SetManualOrder newOrder => (_setNewOrder newOrder s, [])
  | ClearAll => (clearAction s, [])
  | SaveSet setName => (_handleSaveSetConfirm setName s, [])
  | LoadSet setName octokit => startLoadSet octokit setName s
  | DeleteSet setName => (deleteAction setName s, [])
  | UpdateSet setName => (_handleUpdateSet setName s, [])
  | SetCredential token octokit => startAuthToken octokit token s
  end.

(** What follows the [await] of a fetch, on the state [s] of the moment at
    which its promises have settled. *)
Definition settle (t : string → string) (fetch : Fetch) (s : State)
  : State :=
  match fetch with
  | BatchFetch fetchPromises => fetchSettle t fetchPromises s
  | StargazersFetch reposToFetch stargazerPromises =>
      let s :=
        match Promise_all stargazerPromises with
        | Some results =>
            s <| _stargazersData :=
                   mergeResults reposToFetch 0 results (_stargazersData s) |>
        | None => s <| _error := t "errors.fetchStarHistory" |>
        end in
      s <| _loading := false |>
  | IssuesFetch reposToFetch issuePromises =>
      let s :=
        match Promise_all issuePromises with
        | Some results =>
            s <| _issuesData :=
                   mergeResults reposToFetch 0 results (_issuesData s) |>
        | None => s <| _error := t "errors.fetchIssueHistory" |>
        end in
      s <| _loading := false |>
  end.

(** The engine with the fetches that are under way.  From [s0] with no
    fetch under way, a handler runs on the state as it is and adds its
    fetches to those under way, and any fetch under way settles, in any
    order, on the state as it is then. *)
Inductive arrives (t : string → string) (s0 : State)
  : State → list Fetch → Prop :=
| arrives_here : arrives t s0 s0 []
| arrives_start s fetches i :
    arrives t s0 s fetches → intent_wf s i →
    arrives t s0 (start t s i).1 (fetches ++ (start t s i).2)
| arrives_settle s fetches1 fetch fetches2 :
    arrives t s0 s (fetches1 ++ fetch :: fetches2) →
    arrives t s0 (settle t fetch s) (fetches1 ++ fetches2).

(** A batch fetch that fails, or a supplemental fetch: its settling
    commits no summary row and no display order. *)
Definition commits_nothing (fetch : Fetch) : Prop :=
  match fetch with
  | BatchFetch fetchPromises => Promise_all fetchPromises = None
  | _ => True
  end.

(** Where the display order is known to list the repo set.  It does at
    the start.  From any state that the engine arrives at, it does when a
    batch fetch settles that succeeds and that had asked about as many
    repositories, at least, as the repo set holds at that moment.  And
    from then on it goes on doing so through the handlers that start no
    batch fetch (a remove, a sort, a manual order, a clear, the handlers
    of the saved sets but a load, and an add or a load that is refused),
    through a change of the credential, and through the settling of a
    supplemental fetch or of a batch fetch that fails. *)
Inductive settled (t : string → string) (s0 : State)
  : State → list Fetch → Prop :=
| settled_start : settled t s0 s0 []
| settled_commit s fetches1 fetchPromises fetches2 :
    arrives t s0 s (fetches1 ++ BatchFetch fetchPromises :: fetches2) →
    is_Some (Promise_all fetchPromises) →
    (length (_repos s) ≤ length fetchPromises)%nat →
    settled t s0 (settle t (BatchFetch fetchPromises) s)
      (fetches1 ++ fetches2)
| settled_quiet s fetches i :
    settled t s0 s fetches → intent_wf s i → batchOf s i = None →
    settled t s0 (start t s i).1 (fetches ++ (start t s i).2)
| settled_credential s fetches token octokit :
    settled t s0 s fetches →
    settled t s0 (start t s (SetCredential token octokit)).1
      (fetches ++ (start t s (SetCredential token octokit)).2)
| settled_settle s fetches1 fetch fetches2 :
    settled t s0 s (fetches1 ++ fetch :: fetches2) →
    commits_nothing fetch →
    settled t s0 (settle t fetch s) (fetches1 ++ fetches2).

End Engine.

(** * More of the chart component ([src/components/chart-display.ts]) *)
Module ChartMore.

(** [Point & { label: string }], a point of the chart of the downloads. *)
Record LabelledPoint := { px : Z; py : Z; label : string }.

(** [release.assets.reduce((sum, asset) => sum + asset.download_count, 0)] *)
Definition releaseDownloads (release : Engine.GitHubRelease) : Z :=
  foldl (λ sum asset, sum + Engine.download_count asset) 0
    (Engine.assets release).

(** The [data] of one dataset of [_getLineChartData]: a point for each
    release, those without downloads dropped, by publication date.  The
    date of a release that has none is [new Date(null).getTime()], 0. *)
Definition lineData (releases : list Engine.GitHubRelease)
  : list LabelledPoint :=
  js_sort (λ a b, px a - px b)
    (filter (λ d, 0 < py d)
       ((λ release,
           {| px := default 0 (Engine.published_at release);
              py := releaseDownloads release;
              label := Engine.tag_name release |})
          <$> releases)).

(** The datasets of [_getLineChartData], as pairs of label and data;
    [keys] are the keys of the map in the order of their insertion. *)
Definition lineDatasets (repoOrder keys : list string)
    (releasesData : gmap string (list Engine.GitHubRelease))
  : list (string * list LabelledPoint) :=
  omap (λ repoIdentifier,
          match releasesData !! repoIdentifier with
          | None | Some [] => None
          | Some releases => Some (repoIdentifier, lineData releases)
          end)
       (Chart.chartOrder repoOrder keys).

(** [_getStarChartConfig] with what it does to its input.  The array of
    the events of a repository is sorted where it is, [starEvents.sort],
    and the map is the very map of the engine, so the body of the
    [forEach] takes the datasets and the map and gives both back. *)
Definition drawStar
    (acc : list (string * list Chart.Point)
           * gmap string (list Chart.StarEvent))
    (repoIdentifier : string)
  : list (string * list Chart.Point) * gmap string (list Chart.StarEvent) :=
  let '(datasets, stargazersData) := acc in
  match stargazersData !! repoIdentifier with
  | None | Some [] => acc
  | Some starEvents =>
      let sortedEvents :=
        js_sort (λ a b, Chart.starred_at a - Chart.starred_at b)
          starEvents in
      (datasets ++ [(repoIdentifier, Chart.cumulate 0 sortedEvents)],
       <[repoIdentifier := sortedEvents]> stargazersData)
  end.

Definition drawStars (repoOrder keys : list string)
    (stargazersData : gmap string (list Chart.StarEvent))
  : list (string * list Chart.Point) * gmap string (list Chart.StarEvent) :=
  foldl drawStar ([], stargazersData)
    (Chart.chartOrder repoOrder keys).

End ChartMore.

(** * The summary table ([src/components/summary-table.ts]) *)
Module Table.

(** [orderedData] of [render]: for each identifier of the display order the
    first row that has it, the identifiers without a row left out. *)
Definition orderedData (repoOrder : list string)
    (summaryData : list Engine.RepoSummary) : list Engine.RepoSummary :=
  omap (λ id,
          snd <$> list_find (λ d, Engine.identifier d = id) summaryData)
       repoOrder.

End Table.

(** * More of the engine *)

(** ** The start of the engine *)
Module Startup.
Import Engine.

(** [_readStateFromURL], called when the component is connected, and then
    the rest of the fetch that it started; [repos] is the value of the
    parameter [repos] of the address, if it has one. *)
Definition _readStateFromURL (t : string → string) (octokit : Octokit)
    (repos : option string) (s : State) : State :=
  let reposFromUrl :=
    match repos with
    | Some value => split comma value
    | None => []
    end in
  let s := s <| _repos := omap parseRepo reposFromUrl |> in
  if decide (0 < length (_repos s))%nat
  then _fetchDataForRepos t octokit s else s.

End Startup.

(** ** The probe of a user name and the suggestions *)
Module Probe.
Import Engine.

(** The state of the component that the search form shows, beside the
    state of the engine. *)
Record Form := mkForm {
  engine : State;
  _repoSuggestions : list string;
  _repoCountForConfirm : Z;
  _userForConfirm : string;
  _suggestionsLoading : bool
}.

(** The remote as the probe sees it.  [users.getByUsername] answers with
    the number of the public repositories of the user, or fails with an
    error that may carry a status; [paginate(repos.listForUser)] answers
    with the names of all the repositories of the user, or fails. *)
Record Users := {
  getByUsername : string → Z + option Z;
  listForUser : string → option (list string)
}.

Definition SUGGESTION_THRESHOLD : Z := 50.

(** The fields at construction, around an engine. *)
Definition initialForm (s : State) : Form :=
  {| engine := s; _repoSuggestions := []; _repoCountForConfirm := 0;
     _userForConfirm := EmptyString; _suggestionsLoading := false |}.

(** [_getUserRepos], and then the settling of its request. *)
Definition _getUserRepos (users : Users) (username : string) (f : Form)
  : Form :=
  if decide (username = EmptyString) then f
  else
    let f :=
      {| engine := engine f; _repoSuggestions := _repoSuggestions f;
         _repoCountForConfirm := 0; _userForConfirm := EmptyString;
         _suggestionsLoading := true |} in
    let suggestions :=
      match listForUser users username with
      | Some repos => repos
      | None => []
      end in
    {| engine := engine f; _repoSuggestions := suggestions;
       _repoCountForConfirm := _repoCountForConfirm f;
       _userForConfirm := _userForConfirm f;
       _suggestionsLoading := false |}.

(** [_handleUsernameInput] *)
Definition _handleUsernameInput (detail : string) (f : Form) : Form :=
  {| engine := (engine f) <| _newUsername := detail |>;
     _repoSuggestions := _repoSuggestions f;
     _repoCountForConfirm := _repoCountForConfirm f;
     _userForConfirm := _userForConfirm f;
     _suggestionsLoading := _suggestionsLoading f |}.

(** [_handleRepoInput]: a name that is among the suggestions submits the
    form at once. *)
Definition _handleRepoInput (t : string → string) (octokit : Octokit)
    (detail : string) (f : Form) : Form :=
  let s := (engine f) <| _newRepository := detail |> in
  {| engine :=
       if decide (_newRepository s ∈ _repoSuggestions f)
       then _handleFormSubmit t octokit s else s;
     _repoSuggestions := _repoSuggestions f;
     _repoCountForConfirm := _repoCountForConfirm f;
     _userForConfirm := _userForConfirm f;
     _suggestionsLoading := _suggestionsLoading f |}.

(** [_handleUsernameChange], and then the settling of its requests. *)
Definition _handleUsernameChange (t : string → string) (users : Users)
    (f : Form) : Form :=
  let newUsername := _newUsername (engine f) in
  if decide (newUsername = EmptyString) then f
  else
    let f :=
      {| engine := (engine f) <| _error := EmptyString |>;
         _repoSuggestions := []; _repoCountForConfirm := 0;
         _userForConfirm := EmptyString;
         _suggestionsLoading := _suggestionsLoading f |} in
    match getByUsername users newUsername with
    | inl repoCount =>
        if decide (SUGGESTION_THRESHOLD < repoCount) then
          {| engine := engine f; _repoSuggestions := _repoSuggestions f;
             _repoCountForConfirm := repoCount;
             _userForConfirm := newUsername;
             _suggestionsLoading := _suggestionsLoading f |}
        else if decide (0 < repoCount) then _getUserRepos users newUsername f
        else f
    | inr (Some status) =>
        if decide (status = 403) then
          {| engine :=
               (engine f) <| _error := t "errors.rateLimitExceeded" |>;
             _repoSuggestions := _repoSuggestions f;
             _repoCountForConfirm := _repoCountForConfirm f;
             _userForConfirm := _userForConfirm f;
             _suggestionsLoading := _suggestionsLoading f |}
        else if decide (status = 404) then
          {| engine := engine f; _repoSuggestions := [];
             _repoCountForConfirm := _repoCountForConfirm f;
             _userForConfirm := _userForConfirm f;
             _suggestionsLoading := _suggestionsLoading f |}
        else
          {| engine := (engine f) <| _error := t "errors.networkError" |>;
             _repoSuggestions := _repoSuggestions f;
             _repoCountForConfirm := _repoCountForConfirm f;
             _userForConfirm := _userForConfirm f;
             _suggestionsLoading := _suggestionsLoading f |}
    | inr None => f
    end.

(** *** The handlers of the probe and the settling of their requests,
    apart

    [_handleUsernameChange] and [_getUserRepos] run up to their [await];
    what follows runs when the request has settled, on the form of that
    moment, and reads the user name that the form holds then.  Nothing
    holds the form back while a request is under way. *)

(** A request of the probe under way: the lookup of a user with the answer
    that it will get, or the listing of the repositories of a user. *)
Inductive Lookup :=
| UserLookup (users : Users) (answer : Z + option Z)
| RepoListing (answer : option (list string)).

(** [_getUserRepos] up to its [await]. *)
Definition startUserRepos (users : Users) (username : string) (f : Form)
  : Form * list Lookup :=
  if decide (username = EmptyString) then (f, [])
  else
    ({| engine := engine f; _repoSuggestions := _repoSuggestions f;
        _repoCountForConfirm := 0; _userForConfirm := EmptyString;
        _suggestionsLoading := true |},
     [RepoListing (listForUser users username)]).

(** [_handleUsernameChange] up to its [await]. *)
Definition startUsernameChange (users : Users) (f : Form)
  : Form * list Lookup :=
  let newUsername := _newUsername (engine f) in
  if decide (newUsername = EmptyString) then (f, [])
  else
    ({| engine := (engine f) <| _error := EmptyString |>;
        _repoSuggestions := []; _repoCountForConfirm := 0;
        _userForConfirm := EmptyString;
        _suggestionsLoading := _suggestionsLoading f |},
     [UserLookup users (getByUsername users newUsername)]).

(** What follows the [await] of a request, on the form [f] of the moment
    at which it has settled; the lookup of a user with few repositories
    goes on to list them. *)
Definition settleLookup (t : string → string) (lookup : Lookup) (f : Form)
  : Form * list Lookup :=
  match lookup with
  | UserLookup users (inl repoCount) =>
      if decide (SUGGESTION_THRESHOLD < repoCount) then
        ({| engine := engine f; _repoSuggestions := _repoSuggestions f;
            _repoCountForConfirm := repoCount;
            _userForConfirm := _newUsername (engine f);
            _suggestionsLoading := _suggestionsLoading f |}, [])
      else if decide (0 < repoCount)
           then startUserRepos users (_newUsername (engine f)) f
           else (f, [])
  | UserLookup users (inr (Some status)) =>
      if decide (status = 403) then
        ({| engine :=
              (engine f) <| _error := t "errors.rateLimitExceeded" |>;
            _repoSuggestions := _repoSuggestions f;
            _repoCountForConfirm := _repoCountForConfirm f;
            _userForConfirm := _userForConfirm f;
            _suggestionsLoading := _suggestionsLoading f |}, [])
      else if decide (status = 404) then
        ({| engine := engine f; _repoSuggestions := [];
            _repoCountForConfirm := _repoCountForConfirm f;
            _userForConfirm := _userForConfirm f;
            _suggestionsLoading := _suggestionsLoading f |}, [])
      else
        ({| engine := (engine f) <| _error := t "errors.networkError" |>;
            _repoSuggestions := _repoSuggestions f;
            _repoCountForConfirm := _repoCountForConfirm f;
            _userForConfirm := _userForConfirm f;
            _suggestionsLoading := _suggestionsLoading f |}, [])
  | UserLookup users (inr None) => (f, [])
  | RepoListing answer =>
      ({| engine := engine f;
          _repoSuggestions :=
            match answer with Some repos => repos | None => [] end;
          _repoCountForConfirm := _repoCountForConfirm f;
          _userForConfirm := _userForConfirm f;
          _suggestionsLoading := false |}, [])
  end.

(** The form with the requests of the probe that are under way.  From
    [f0] with none under way: the engine changes, by what is typed into
    the form, by its handlers and by the settling of its fetches, none of
    which writes a field of the probe; the user name is changed; the
    button of the confirmation is pressed; a request under way settles. *)
Inductive probes (t : string → string) (f0 : Form)
  : Form → list Lookup → Prop :=
| probes_here : probes t f0 f0 []
| probes_engine f lookups s :
    probes t f0 f lookups →
    probes t f0
      {| engine := s; _repoSuggestions := _repoSuggestions f;
         _repoCountForConfirm := _repoCountForConfirm f;
         _userForConfirm := _userForConfirm f;
         _suggestionsLoading := _suggestionsLoading f |}
      lookups
| probes_change f lookups users :
    probes t f0 f lookups →
    probes t f0 (startUsernameChange users f).1
      (lookups ++ (startUsernameChange users f).2)
| probes_confirm f lookups users :
    probes t f0 f lookups →
    probes t f0 (startUserRepos users (_userForConfirm f) f).1
      (lookups ++ (startUserRepos users (_userForConfirm f) f).2)
| probes_settle f lookups1 lookup lookups2 :
    probes t f0 f (lookups1 ++ lookup :: lookups2) →
    probes t f0 (settleLookup t lookup f).1
      (lookups1 ++ lookups2 ++ (settleLookup t lookup f).2).

End Probe.

(** * The registry of the translations ([src/localization/registry.ts]) *)
Module Localize.

(** [interface Translations { [key: string]: string | Translations }]: the
    value under a key is a text or a table, and a table is the list of its
    entries, one for a key. *)
#[local] Unset Elimination Schemes.
Inductive Translations :=
| Text (text : string)
| Table (entries : list (string * Translations)).
#[local] Set Elimination Schemes.

Definition dot : ascii := "."%char.
Definition lbrace : ascii := "{"%char.
Definition rbrace : ascii := "}"%char.

(** [result[k]] for a table: the value of the entry of the key, [None]
    for [undefined]. *)
Fixpoint entry (k : string) (entries : list (string * Translations))
  : option Translations :=
  match entries with
  | [] => None
  | (k', value) :: entries =>
      if decide (k' = k) then Some value else entry k entries
  end.

(** The loop [for (const k of keys)]; [None] when the loop returns the key:
    [result] is not a table, or has no entry for [k]. *)
Fixpoint walk (keys : list string) (result : Translations)
  : option Translations :=
  match keys with
  | [] => Some result
  | k :: keys =>
      match result with
      | Table entries =>
          match entry k entries with
          | Some result => walk keys result
          | None => None
          end
      | Text _ => None
      end
  end.

(** The class [\w] of a regular expression: a letter of the Latin
    alphabet, a digit or the underscore. *)
Definition word_char (c : ascii) : bool :=
  let n := nat_of_ascii c in
  ((48 <=? n) && (n <=? 57) || (65 <=? n) && (n <=? 90)
   || (97 <=? n) && (n <=? 122) || (n =? 95))%nat.

(** The longest run of word characters at the start of a string, and the
    rest.  [\w+] takes the longest run; giving a character of it back
    cannot help the match, what follows in the pattern being the closing
    brace. *)
Fixpoint span_word (s : string) : string * string :=
  match s with
  | String c rest =>
      if word_char c
      then let '(word, rest') := span_word rest in (String c word, rest')
      else (EmptyString, s)
  | EmptyString => (EmptyString, EmptyString)
  end.

(** A match of [/\{(\w+)\}/] at the start of a string: the key captured
    and what follows the match. *)
Definition placeholder_at (s : string) : option (string * string) :=
  match s with
  | String c rest =>
      if decide (c = lbrace) then
        match span_word rest with
        | (String c' word, String c'' rest') =>
            if decide (c'' = rbrace) then Some (String c' word, rest')
            else None
        | _ => None
        end
      else None
  | EmptyString => None
  end.

(** The text of a placeholder of a key. *)
Definition placeholder_of (placeholderKey : string) : string :=
  String lbrace (placeholderKey +:+ String rbrace EmptyString).

(** [result.replace(/\{(\w+)\}/g, replacer)]: from left to right a match is
    replaced by what the replacer gives for it, and the search goes on
    behind the match; a character at which no match starts is kept.  The
    first argument bounds the number of the steps. *)
Fixpoint replaceFrom (steps : nat) (replacer : string → string → string)
    (s : string) : string :=
  match steps with
  | O => s
  | S steps =>
      match placeholder_at s with
      | Some (placeholderKey, rest) =>
          replacer (placeholder_of placeholderKey) placeholderKey
          +:+ replaceFrom steps replacer rest
      | None =>
          match s with
          | String c rest => String c (replaceFrom steps replacer rest)
          | EmptyString => EmptyString
          end
      end
  end.

(** A step consumes a character at least, so as many steps as the string
    has characters are enough. *)
Definition replace (replacer : string → string → string) (s : string)
  : string :=
  replaceFrom (String.length s) replacer s.

(** [t(key, replacements)].  [replacements], when given, says for a key the
    text of the value that [replacements[key]] reads, be it a property of
    the object or one that it inherits, [None] when that is [undefined] or
    [null]. *)
Definition t (translations : Translations) (key : string)
    (replacements : option (string → option string)) : string :=
  let keys := split dot key in
  match walk keys translations with
  | None => key
  | Some (Text result) =>
      match replacements with
      | Some replacements =>
          replace
            (λ placeholder placeholderKey,
               default placeholder (replacements placeholderKey))
            result
      | None => result
      end
  | Some (Table _) => key
  end.

End Localize.

(** * Example inputs

    Concrete answers of the remote API and concrete states, on which the
    statements below are evaluated. *)
Module Examples.
Import Engine.

(** A very active repository: twelve pages of 100 star events, and eleven
    pages of 100 issues, every fourth of them a pull request, followed by a
    page whose request fails. *)
Definition busyOctokit : Octokit := {|
  listReleases := λ _ _, None;
  get := λ _ _, None;
  listStargazersForRepo := λ _ _,
    (λ k, Some (replicate 100 {| Chart.starred_at := Z.of_nat k |}))
      <$> seq 0 12;
  listForRepo := λ _ _,
    ((λ k, Some ((λ j, {| created_at := Z.of_nat k; closed_at := None;
                          pull_request := bool_decide (j `mod` 4 = 0)%nat |})
                   <$> seq 0 100))
       <$> seq 0 11) ++ [None]
|}.

(** A remote that answers every request: each repository has one published
    release with two assets, and no star or issue events. *)
Definition okOctokit : Octokit := {|
  listReleases := λ _ _,
    Some [{| tag_name := "v1"; published_at := Some 5;
             assets := [{| download_count := 3 |};
                        {| download_count := 4 |}] |}];
  get := λ _ repo,
    Some {| stargazers_count := Z.of_nat (String.length repo);
            pushed_at := "2024-01-01T00:00:00Z";
            repo_size := 7; open_issues_count := 2 |};
  listStargazersForRepo := λ _ _, [Some [{| Chart.starred_at := 1 |}]];
  listForRepo := λ _ _, []
|}.

(** A remote that answers like [okOctokit], except that it does not know
    the repositories of the owner [nobody] and fails on their star
    events. *)
Definition partialOctokit : Octokit := {|
  listReleases := listReleases okOctokit;
  get := λ owner repo,
    if decide (owner = "nobody") then None else get okOctokit owner repo;
  listStargazersForRepo := λ owner repo,
    if decide (owner = "nobody") then [None]
    else listStargazersForRepo okOctokit owner repo;
  listForRepo := listForRepo okOctokit
|}.

Definition t (key : string) : string := key.

(** The engine of a fresh page, without token and without saved sets. *)
Definition fresh : State := initial EmptyString ∅.

(** Two repositories added, both found. *)
Definition twoRepos : State :=
  foldl (run t) fresh
    [AddRepo "octocat" "Hello-World" okOctokit;
     AddRepo "rocq" "stdlib" okOctokit].

(** A third one added, which the remote does not know. *)
Definition thirdFailed : State :=
  run t twoRepos (AddRepo "nobody" "nothing" partialOctokit).

(** A third repository added and found, and a credential set. *)
Definition withToken : State :=
  foldl (run t) twoRepos
    [AddRepo "nobody" "nothing" okOctokit; SetCredential "token" okOctokit].

(** The two repositories dragged into the other order. *)
Definition reordered : State :=
  run t twoRepos (SetManualOrder ["rocq/stdlib"; "octocat/Hello-World"]).

End Examples.

(** * Further example inputs *)
Module Scenarios.
Import Engine.


(** The two repositories saved as a set. *)
Definition savedPair : State :=
  run Examples.t Examples.twoRepos (SaveSet "pair").

(** One repository added and found. *)
Definition oneRepo : State :=
  run Examples.t Examples.fresh
    (AddRepo "octocat" "Hello-World" Examples.okOctokit).

(** Two repositories added to it one right after the other: both handlers
    have returned and both batch fetches are under way, the one of the
    first add for two repositories and the one of the second add for
    three. *)
Definition twoAdds : State * list Fetch :=
  let first :=
    start Examples.t oneRepo (AddRepo "rocq" "stdlib" Examples.okOctokit) in
  let second :=
    start Examples.t first.1
      (AddRepo "nobody" "nothing" Examples.okOctokit) in
  (second.1, first.2 ++ second.2).

Definition firstPromises
  : list (option (list GitHubRelease * RepoDetails)) :=
  fetchPair Examples.okOctokit
    <$> [{| username := "octocat"; repository := "Hello-World" |};
         {| username := "rocq"; repository := "stdlib" |}].

Definition secondPromises
  : list (option (list GitHubRelease * RepoDetails)) :=
  fetchPair Examples.okOctokit
    <$> [{| username := "octocat"; repository := "Hello-World" |};
         {| username := "rocq"; repository := "stdlib" |};
         {| username := "nobody"; repository := "nothing" |}].

(** The batch fetch of the second add has settled, the one of the first
    add is under way still. *)
Definition secondSettled : State :=
  settle Examples.t (BatchFetch secondPromises) twoAdds.1.

(** Then the batch fetch of the first add has settled too, and the table
    has been sorted by size. *)
Definition overtaken : State :=
  (start Examples.t
     (settle Examples.t (BatchFetch firstPromises) secondSettled)
     (RequestSort SortKey.size Examples.okOctokit)).1.

(** A remote on which every user has 120 public repositories. *)
Definition bigUsers : Probe.Users :=
  {| Probe.getByUsername := λ _, inl 120;
     Probe.listForUser := λ _, Some ["linux"; "subsurface"] |}.

(** A remote on which every user has three public repositories. *)
Definition smallUsers : Probe.Users :=
  {| Probe.getByUsername := λ _, inl 3;
     Probe.listForUser := λ _, Some ["dotfiles"] |}.

(** Two probes that cross.  A user with few repositories is typed in and
    looked up, and the listing of the repositories starts; before it
    settles a user with many repositories is typed in and looked up, and
    the confirmation for that user comes up; then the listing settles. *)
Definition crossed : Probe.Form :=
  let typed1 :=
    Probe._handleUsernameInput "octocat"
      (Probe.initialForm Examples.fresh) in
  let changed1 := Probe.startUsernameChange smallUsers typed1 in
  let looked1 :=
    Probe.settleLookup Examples.t (Probe.UserLookup smallUsers (inl 3))
      changed1.1 in
  let typed2 := Probe._handleUsernameInput "torvalds" looked1.1 in
  let changed2 := Probe.startUsernameChange bigUsers typed2 in
  let looked2 :=
    Probe.settleLookup Examples.t (Probe.UserLookup bigUsers (inl 120))
      changed2.1 in
  (Probe.settleLookup Examples.t (Probe.RepoListing (Some ["dotfiles"]))
     looked2.1).1.

End Scenarios.

(** * Notions of the specification

    Definitions that follow the words of the specification, for the
    statements that compare the code with them. *)
Module Spec.

Definition Zsum (l : list Z) : Z := foldr Z.add 0 l.

(** Each issue contributes a delta of +1 at its creation and, if it was
    closed, a delta of -1 at its closing; a delta is a timestamp and a
    change. *)
Definition deltas (issues : list Chart.IssueEvent) : list (Z * Z) :=
  issues ≫= λ issue,
    (Chart.created_at issue, 1)
      :: match Chart.closed_at issue with
         | Some closedTime => [(closedTime, -1)]
         | None => []
         end.

(** The deltas at an identical timestamp, merged into one net delta. *)
Definition netDelta (issues : list Chart.IssueEvent) (time : Z) : Z :=
  Zsum (snd <$> filter (λ d, d.1 = time) (deltas issues)).

(** The number of issues open at [time]: the sum of the deltas up to it. *)
Definition openCount (issues : list Chart.IssueEvent) (time : Z) : Z :=
  Zsum (snd <$> filter (λ d, d.1 ≤ time) (deltas issues)).

(** The issue events among the items that the server lists: the items
    that are pull requests are left out, each other item gives the dates of
    its creation and of its closing, in the order of the items. *)
Fixpoint issueEvents (items : list Engine.IssueItem)
  : list Chart.IssueEvent :=
  match items with
  | [] => []
  | item :: items =>
      if Engine.pull_request item then issueEvents items
      else {| Chart.created_at := Engine.created_at item;
              Chart.closed_at := Engine.closed_at item |}
             :: issueEvents items
  end.

(** The releases of a response that have a publication date. *)
Definition published (releasesResponse : list Engine.GitHubRelease)
  : list Engine.GitHubRelease :=
  filter (λ r, is_Some (Engine.published_at r)) releasesResponse.

(** The total downloads of a repository: the sum, over its releases, of
    the download counts of their assets. *)
Definition totalDownloads (releases : list Engine.GitHubRelease) : Z :=
  Zsum (Engine.download_count <$> (releases ≫= Engine.assets)).

(** The summary row derived for a repository from its two responses. *)
Definition summaryRow (t : string → string) (repo : Engine.Repo)
    (result : list Engine.GitHubRelease * Engine.RepoDetails)
  : Engine.RepoSummary :=
  {| Engine.identifier := Engine.repoIdentifier repo;
     Engine.stars := Engine.stargazers_count result.2;
     Engine.latestVersion := Engine.latestVersionOf t (published result.1);
     Engine.lastUpdate := Engine.pushed_at result.2;
     Engine.size := Engine.repo_size result.2;
     Engine.totalDownloads := totalDownloads (published result.1);
     Engine.openIssues := Engine.open_issues_count result.2 |}.

(** A text with its double quotes doubled: every character of the text is
    written once, in order, but a double quote, which is written twice. *)
Definition doubled (s : string) : string :=
  String.string_of_list_ascii
    (String.list_ascii_of_string s
       ≫= λ c, if decide (c = dquote) then [dquote; dquote] else [c]).

(** Reading the inside of a quoted CSV field back: two double quotes stand
    for one. *)
Fixpoint unquote (s : string) : string :=
  match s with
  | EmptyString => EmptyString
  | String c tl =>
      match tl with
      | String c' rest =>
          if decide (c = dquote ∧ c' = dquote)
          then String dquote (unquote rest)
          else String c (unquote tl)
      | EmptyString => String c EmptyString
      end
  end.

End Spec.

(** * Auxiliary notions of the proofs *)

(** One delta put into the map, as [addIssue] does twice. *)
Definition bump (m : gmap Z Z) (d : Z * Z) : gmap Z Z :=
  <[d.1 := default 0 (m !! d.1) + d.2]> m.

(** The entries of a list put into a map one after the other, as the
    [forEach] loops of the engine do. *)
Definition insertAll {V} (m : gmap string V) (l : list (string * V))
  : gmap string V :=
  foldl (λ m kv, <[kv.1 := kv.2]> m) m l.

(** What every reachable state satisfies: the repositories have proper
    names and distinct identifiers, and the saved sets are well formed. *)
Definition base_inv (s : Engine.State) : Prop :=
  Forall Engine.valid_repo (Engine._repos s)
  ∧ NoDup (Engine.repoIdentifier <$> Engine._repos s)
  ∧ Engine.sets_wf (Engine._savedSets s).

(** The display order and the summary rows list the identifiers of the
    repo set, each once. *)
Definition synced (s : Engine.State) : Prop :=
  Engine._repoOrder s ≡ₚ Engine.repoIdentifier <$> Engine._repos s
  ∧ Engine.identifier <$> Engine._repoSummaryData s
    ≡ₚ Engine.repoIdentifier <$> Engine._repos s.

(** The value [a[newSortKey]] that the comparator of the sort reads from a
    row: a number or a string. *)
Inductive SortValue := NumberValue (n : Z) | StringValue (text : string).
#[global] Instance SortValue_eq_dec : EqDecision SortValue.
Proof. solve_decision. Defined.

Definition valueOf (key : SortKey.t) (row : Engine.RepoSummary) : SortValue :=
  match key with
  | SortKey.stars => NumberValue (Engine.stars row)
  | SortKey.latestVersion => StringValue (Engine.latestVersion row)
  | SortKey.lastUpdate => StringValue (Engine.lastUpdate row)
  | SortKey.size => NumberValue (Engine.size row)
  | SortKey.totalDownloads => NumberValue (Engine.totalDownloads row)
  | SortKey.openIssues => NumberValue (Engine.openIssues row)
  | SortKey.manual => NumberValue 0
  end.

(** The [<] of two values of a kind. *)
Definition value_lt (a b : SortValue) : bool :=
  match a, b with
  | NumberValue x, NumberValue y => Z.ltb x y
  | StringValue x, StringValue y => String.ltb x y
  | _, _ => false
  end.

(** Row [a] may stand before row [b] in a table sorted by [key]: ascending,
    [b] is not below [a]; descending, [a] is not below [b]. *)
Definition in_order (key : SortKey.t) (direction : Engine.Direction)
    (a b : Engine.RepoSummary) : Prop :=
  match direction with
  | Engine.asc => value_lt (valueOf key b) (valueOf key a) = false
  | Engine.desc => value_lt (valueOf key a) (valueOf key b) = false
  end.

Definition opposite (direction : Engine.Direction) : Engine.Direction :=
  match direction with Engine.asc => Engine.desc | Engine.desc => Engine.asc end.

(** The sort request is neither the manual key nor refused for want of a
    credential. *)
Definition sortable (key : SortKey.t) (s : Engine.State) : Prop :=
  key ≠ SortKey.manual
  ∧ (Engine._githubToken s ≠ EmptyString
     ∨ (key ≠ SortKey.stars ∧ key ≠ SortKey.openIssues)).

(** What [_updateURL] writes for a display order. *)
Definition urlOf (repoOrder : list string) : option string :=
  match repoOrder with
  | [] => None
  | _ => Some (join comma repoOrder)
  end.

(** The intents that change the display order and write it to the address
    at once: a removal, a manual order, the clearing, and a sort that is
    carried out. *)
Definition rewrites_order (s : Engine.State) (i : Engine.Intent) : Prop :=
  match i with
  | Engine.RemoveRepo _ | Engine.SetManualOrder _ | Engine.ClearAll => True
  | Engine.RequestSort key _ => sortable key s
  | _ => False
  end.

(** The rows, the downloads and the releases tell one story: the downloads
    are the totals of the releases kept, every release kept has a
    publication date, and each row shows the total and the latest version
    of the releases kept under its identifier. *)
Definition coherent (t : string → string) (s : Engine.State) : Prop :=
  Engine._downloadsData s
  = Engine.totalDownloadsOf <$> Engine._releasesData s
  ∧ map_Forall
      (λ _ releases,
         Forall (λ r, is_Some (Engine.published_at r)) releases)
      (Engine._releasesData s)
  ∧ Forall
      (λ row,
         ∃ releases,
           Engine._releasesData s !! Engine.identifier row = Some releases
           ∧ Engine.totalDownloads row = Engine.totalDownloadsOf releases
           ∧ Engine.latestVersion row = Engine.latestVersionOf t releases)
      (Engine._repoSummaryData s).

(** Every array of [m] is the array that [m0] has there, or that array
    sorted. *)
Definition sorted_version (m m0 : gmap string (list Chart.StarEvent))
  : Prop :=
  ∀ id,
    m !! id = m0 !! id
    ∨ m !! id
      = js_sort (λ a b, Chart.starred_at a - Chart.starred_at b)
          <$> m0 !! id.

(** A string of word characters. *)
Fixpoint is_word (s : string) : bool :=
  match s with
  | EmptyString => true
  | String c rest => Localize.word_char c && is_word rest
  end.

(** The keys of the placeholders that the replacement finds in a text,
    from left to right: the matches of the pattern, found as [replaceFrom]
    finds them. *)
Fixpoint placeholdersFrom (steps : nat) (s : string) : list string :=
  match steps with
  | O => []
  | S steps =>
      match Localize.placeholder_at s with
      | Some (placeholderKey, rest) =>
          placeholderKey :: placeholdersFrom steps rest
      | None =>
          match s with
          | String _ rest => placeholdersFrom steps rest
          | EmptyString => []
          end
      end
  end.

Definition placeholders (s : string) : list string :=
  placeholdersFrom (String.length s) s.

(** * Verification *)

Import Engine.

(** The state and the promises of [fetchBegin], named by their
    projections. *)
Ltac name_fetchBegin octokit s1 :=
  let s2 := fresh "s" in
  let promises := fresh "promises" in
  let Hbegin := fresh "Hbegin" in
  destruct (fetchBegin octokit s1) as [s2 promises] eqn:Hbegin;
  assert (promises = (fetchBegin octokit s1).2) as -> by (by rewrite Hbegin);
  assert (s2 = (fetchBegin octokit s1).1) as -> by (by rewrite Hbegin).

(** The fields of a state that went through [_updateURL] at the end. *)
Ltac through_updateURL :=
  unfold fetchBegin, _updateURL; cbn [fst]; case_decide.

(** One case for each intent of the rendering layer. *)
Ltac by_intent i :=
  destruct i as [?u ?v ?octokit|?r|?key ?octokit|?newOrder| |?name
                |?name ?octokit|?name|?name|?token ?octokit];
  cbn [run batchOf] in *.

(** ** The sort *)
Section js_sort_facts.
Context {A : Type} (compareFn : A → A → Z).

Lemma sort_insert_perm x l : sort_insert compareFn x l ≡ₚ x :: l.
Proof.
  induction l as [|y l IH]; simpl; [done|].
  case_decide; [done|]. by rewrite IH, Permutation_swap.
Qed.

Lemma js_sort_perm l : js_sort compareFn l ≡ₚ l.
Proof.
  induction l as [|x l IH]; simpl; [done|].
  by rewrite sort_insert_perm, IH.
Qed.

Lemma js_sort_length l : length (js_sort compareFn l) = length l.
Proof. by rewrite js_sort_perm. Qed.

(** Sortedness, for a comparator that decides a total preorder [R]. *)
Context (R : relation A) `{!Transitive R, !Total R}.
Context (compare_le : ∀ a b, compareFn a b ≤ 0 ↔ R a b).

Lemma sort_insert_sorted x l :
  StronglySorted R l → StronglySorted R (sort_insert compareFn x l).
Proof.
  induction 1 as [|y l Hl IH Hy]; simpl.
  - repeat constructor.
  - case_decide as Hc.
    + apply compare_le in Hc. constructor; [by constructor|].
      constructor; [done|].
      eapply Forall_impl; [exact Hy|]. intros z Hz. by etrans.
    + constructor; [done|].
      rewrite sort_insert_perm. constructor; [|done].
      destruct (total R x y) as [Hxy|Hyx]; [|done].
      by apply compare_le in Hxy.
Qed.

Lemma js_sort_sorted l : StronglySorted R (js_sort compareFn l).
Proof.
  induction l as [|x l IH]; simpl; [constructor|].
  by apply sort_insert_sorted.
Qed.
End js_sort_facts.

(** ** The cumulative star series *)

Lemma cumulate_x c events :
  Chart.x <$> Chart.cumulate c events = Chart.starred_at <$> events.
Proof.
  revert c. induction events as [|e events IH]; intros c; simpl; [done|].
  by rewrite IH.
Qed.

Lemma cumulate_y c events :
  Chart.y <$> Chart.cumulate c events
  = (λ i, c + Z.of_nat i) <$> seq 1 (length events).
Proof.
  revert c. induction events as [|e events IH]; intros c; simpl; [done|].
  rewrite IH, <-(fmap_S_seq 1), <-list_fmap_compose.
  f_equal. apply list_fmap_ext. intros _ i _. simpl. lia.
Qed.

Lemma star_times_sorted events :
  StronglySorted Z.le
    (Chart.starred_at
       <$> js_sort (λ a b, Chart.starred_at a - Chart.starred_at b) events).
Proof.
  eapply (StronglySorted_fmap _ (λ a b, Chart.starred_at a ≤ Chart.starred_at b));
    [done|].
  apply js_sort_sorted.
  - intros a b c ??; simpl in *. lia.
  - intros a b; simpl. lia.
  - intros a b; simpl. lia.
Qed.

(** C4.  The cumulative star series of N events has N points; their [y]
    are 1, 2, ..., N, one more at each point; their [x] are the timestamps
    of the events in non-decreasing order, equal timestamps being kept. *)
Theorem star_series_counts_events (starEvents : list Chart.StarEvent) :
  let data := Chart.starData starEvents in
  length data = length starEvents
  ∧ Chart.y <$> data = Z.of_nat <$> seq 1 (length starEvents)
  ∧ StronglySorted Z.le (Chart.x <$> data)
  ∧ Chart.x <$> data ≡ₚ Chart.starred_at <$> starEvents.
Proof.
  unfold Chart.starData. simpl.
  set (sorted := js_sort _ starEvents).
  assert (length sorted = length starEvents) as Hlen
    by apply js_sort_length.
  split_and!.
  - by rewrite <-(length_fmap Chart.x), cumulate_x, length_fmap.
  - rewrite cumulate_y, Hlen. apply list_fmap_ext. intros _ i _. lia.
  - rewrite cumulate_x. apply star_times_sorted.
  - rewrite cumulate_x. unfold sorted. by rewrite js_sort_perm.
Qed.

(** The series drawn for a repository is the one of its events, and a
    repository is drawn only when it has events. *)
Lemma starDatasets_data repoOrder keys stargazersData label data :
  (label, data) ∈ Chart.starDatasets repoOrder keys stargazersData →
  ∃ starEvents,
    stargazersData !! label = Some starEvents
    ∧ starEvents ≠ [] ∧ data = Chart.starData starEvents.
Proof.
  unfold Chart.starDatasets. rewrite list_elem_of_omap.
  intros (id & _ & Hid).
  destruct (stargazersData !! id) as [[|e events]|] eqn:Hlook;
    simplify_eq. eauto.
Qed.

(** ** The open-issue sweep line *)

Lemma eventsByTime_bump issues m :
  foldl Chart.addIssue m issues = foldl bump m (Spec.deltas issues).
Proof.
  revert m. induction issues as [|issue issues IH]; intros m; [done|].
  unfold Spec.deltas in *. simpl. rewrite foldl_app, IH. f_equal.
  unfold Chart.addIssue. by destruct (Chart.closed_at issue).
Qed.

Lemma Zsum_snd_cons (d : Z * Z) l :
  Spec.Zsum (snd <$> d :: l) = d.2 + Spec.Zsum (snd <$> l).
Proof. done. Qed.

Lemma filter_time_nil (ds : list (Z * Z)) time :
  time ∉ ds.*1 → filter (λ d, d.1 = time) ds = [].
Proof.
  induction ds as [|d ds IH]; [done|]. rewrite fmap_cons, not_elem_of_cons.
  intros [Hne Hnotin]. rewrite filter_cons, decide_False by done. auto.
Qed.

Lemma foldl_bump_lookup ds m time :
  foldl bump m ds !! time
  = if decide (time ∈ ds.*1)
    then Some (default 0 (m !! time)
               + Spec.Zsum (snd <$> filter (λ d, d.1 = time) ds))
    else m !! time.
Proof.
  revert m. induction ds as [|[s v] ds IH]; intros m.
  { destruct (decide _) as [Hin|]; [by apply elem_of_nil in Hin|done]. }
  rewrite fmap_cons, filter_cons. simpl. rewrite IH.
  unfold bump. simpl. rewrite !lookup_insert.
  destruct (decide (s = time)) as [->|Hne]; cbv beta iota.
  - rewrite (decide_True (P := time ∈ time :: ds.*1)) by left.
    rewrite Zsum_snd_cons. simpl.
    destruct (decide (time ∈ ds.*1)) as [|Hnotin]; cbv beta iota;
      [f_equal; lia|].
    rewrite filter_time_nil by done. f_equal. simpl. lia.
  - destruct (decide (time ∈ ds.*1)).
    + by rewrite (decide_True (P := time ∈ s :: ds.*1)) by (by right).
    + rewrite (decide_False (P := time ∈ s :: ds.*1)); [done|].
      rewrite elem_of_cons. by intros [?|?].
Qed.

Lemma eventsByTime_lookup issues time :
  Chart.eventsByTime issues !! time
  = if decide (time ∈ (Spec.deltas issues).*1)
    then Some (Spec.netDelta issues time) else None.
Proof.
  unfold Chart.eventsByTime. rewrite eventsByTime_bump, foldl_bump_lookup.
  rewrite lookup_empty. by case_decide.
Qed.

Lemma sorted_le_NoDup_lt (l : list Z) :
  StronglySorted Z.le l → NoDup l → StronglySorted Z.lt l.
Proof.
  induction 1 as [|a l Hl IH Ha]; intros Hnd; [constructor|].
  apply NoDup_cons in Hnd as [Hnotin Hnd]. constructor; [by apply IH|].
  rewrite Forall_forall in Ha |- *. intros b Hb.
  specialize (Ha b Hb). assert (a ≠ b) by (by intros ->). lia.
Qed.

Lemma sortedTimes_sorted m : StronglySorted Z.lt (Chart.sortedTimes m).
Proof.
  unfold Chart.sortedTimes. apply sorted_le_NoDup_lt.
  - apply js_sort_sorted with (R := Z.le); try apply _.
    intros a b. lia.
  - rewrite js_sort_perm. apply NoDup_fst_map_to_list.
Qed.

Lemma sortedTimes_elem m time :
  time ∈ Chart.sortedTimes m ↔ is_Some (m !! time).
Proof.
  unfold Chart.sortedTimes. rewrite js_sort_perm, list_elem_of_fmap.
  split.
  - intros ([k v] & -> & Hkv). apply elem_of_map_to_list in Hkv. eauto.
  - intros [v Hv]. exists (time, v). by rewrite elem_of_map_to_list.
Qed.

(** The deltas up to [time] are those up to [lo] and those at [time], when
    no delta lies strictly between the two. *)
Lemma upto_step (ds : list (Z * Z)) lo time :
  lo < time →
  Forall (λ d, d.1 ≤ lo ∨ time ≤ d.1) ds →
  Spec.Zsum (snd <$> filter (λ d, d.1 ≤ time) ds)
  = Spec.Zsum (snd <$> filter (λ d, d.1 ≤ lo) ds)
    + Spec.Zsum (snd <$> filter (λ d, d.1 = time) ds).
Proof.
  intros Hlo. induction 1 as [|[s v] ds Hd _ IH]; [done|].
  rewrite !filter_cons. cbn [fst snd] in *.
  repeat case_decide; rewrite ?Zsum_snd_cons; cbn [fst snd]; lia.
Qed.

Lemma sweep_openCount issues times lo :
  StronglySorted Z.lt times →
  Forall (λ time, lo < time) times →
  Forall (λ d, d.1 ≤ lo ∨ d.1 ∈ times) (Spec.deltas issues) →
  Chart.sweep (Chart.eventsByTime issues) (Spec.openCount issues lo) times
  = (λ time, Chart.mkPoint time (Spec.openCount issues time)) <$> times.
Proof.
  intros Hsorted. revert lo.
  induction Hsorted as [|time times Hsorted IH Htime]; intros lo Hlo Hds;
    [done|].
  apply Forall_cons in Hlo as [Hlo _]. simpl.
  assert (Spec.openCount issues lo
          + default 0 (Chart.eventsByTime issues !! time)
          = Spec.openCount issues time) as ->.
  { rewrite eventsByTime_lookup. unfold Spec.openCount, Spec.netDelta.
    rewrite (upto_step _ lo time); [|done|].
    - case_decide as Hin; simpl; [done|].
      rewrite filter_time_nil by done. simpl. lia.
    - eapply Forall_impl; [exact Hds|]. intros d [?|Hin]; [by left|].
      right. apply elem_of_cons in Hin as [->|Hin]; [lia|].
      rewrite Forall_forall in Htime. specialize (Htime _ Hin). lia. }
  f_equal. apply IH; [done|].
  eapply Forall_impl; [exact Hds|]. intros d [?|Hin]; [left; lia|].
  apply elem_of_cons in Hin as [->|Hin]; [left; lia|by right].
Qed.

Lemma openCount_before issues lo :
  Forall (λ d, lo < d.1) (Spec.deltas issues) → Spec.openCount issues lo = 0.
Proof.
  unfold Spec.openCount. induction 1 as [|d ds Hd _ IH]; [done|].
  rewrite filter_cons, decide_False by lia. done.
Qed.

Lemma sortedTimes_deltas issues time :
  time ∈ Chart.sortedTimes (Chart.eventsByTime issues)
  ↔ time ∈ (Spec.deltas issues).*1.
Proof.
  rewrite sortedTimes_elem, eventsByTime_lookup.
  case_decide; [by eauto|]. split; [by intros [? ?]|done].
Qed.

(** C3.  The open-issue series is the sweep line of the specification: the
    map holds, for each timestamp of a delta, the net delta there; the
    timestamps are swept in strictly ascending order, so each once; after
    the anchor one unit of time before the first timestamp, at zero, the
    series has one point per timestamp, at the number of issues open then.
    On the two examples of the specification the net delta, the final count
    and the counts read off the stepped line are the stated ones. *)
Theorem issue_series_sweep_line (issues : list Chart.IssueEvent) :
  let events := Chart.eventsByTime issues in
  let times := Chart.sortedTimes events in
  (∀ time,
     events !! time
     = if decide (time ∈ (Spec.deltas issues).*1)
       then Some (Spec.netDelta issues time) else None)
  ∧ StronglySorted Z.lt times
  ∧ (∀ time, time ∈ times ↔ time ∈ (Spec.deltas issues).*1)
  ∧ Chart.issueData issues
    = match times with
      | first :: _ => [Chart.mkPoint (first - 1) 0]
      | [] => []
      end
      ++ ((λ time, Chart.mkPoint time (Spec.openCount issues time))
            <$> times)
  ∧ (let example :=
       [ {| Chart.created_at := 10; Chart.closed_at := None |};
         {| Chart.created_at := 10; Chart.closed_at := Some 10 |} ] in
     Chart.eventsByTime example !! 10 = Some 1
     ∧ Chart.issueData example
       = [Chart.mkPoint 9 0; Chart.mkPoint 10 1])
  ∧ (let example :=
       [ {| Chart.created_at := 1; Chart.closed_at := Some 5 |};
         {| Chart.created_at := 3; Chart.closed_at := None |} ] in
     Chart.stepAt (Chart.issueData example) 4 = 2
     ∧ Chart.stepAt (Chart.issueData example) 6 = 1).
Proof.
  intros events times.
  assert (StronglySorted Z.lt times) as Hsorted
    by apply sortedTimes_sorted.
  split_and!; try done.
  - apply eventsByTime_lookup.
  - apply sortedTimes_deltas.
  - unfold Chart.issueData. fold events. fold times. f_equal.
    destruct times as [|first rest] eqn:Htimes; [done|].
    assert (Forall (λ d, d.1 ∈ first :: rest) (Spec.deltas issues)) as Hin.
    { rewrite Forall_forall. intros d Hd. rewrite <-Htimes.
      apply sortedTimes_deltas. by apply list_elem_of_fmap_2. }
    apply StronglySorted_cons in Hsorted as Hfirst.
    destruct Hfirst as [Hfirst _].
    rewrite <-(openCount_before issues (first - 1)).
    + apply sweep_openCount; [done| |].
      * constructor; [lia|]. eapply Forall_impl; [exact Hfirst|].
        intros time ?. simpl in *. lia.
      * eapply Forall_impl; [exact Hin|]. by right.
    + eapply Forall_impl; [exact Hin|]. intros d Hd.
      apply elem_of_cons in Hd as [->|Hd]; [lia|].
      rewrite Forall_forall in Hfirst. specialize (Hfirst _ Hd). lia.
Qed.

(** The series drawn for a repository is the one of its issues, and a
    repository is drawn only when it has issues. *)
Lemma issueDatasets_data repoOrder keys issuesData label data :
  (label, data) ∈ Chart.issueDatasets repoOrder keys issuesData →
  ∃ issues,
    issuesData !! label = Some issues
    ∧ issues ≠ [] ∧ data = Chart.issueData issues.
Proof.
  unfold Chart.issueDatasets. rewrite list_elem_of_omap.
  intros (id & _ & Hid).
  destruct (issuesData !! id) as [[|e events]|] eqn:Hlook;
    simplify_eq. eauto.
Qed.

(** ** The bounded page collectors *)

Lemma Promise_all_cons {A} (p : option A) promises :
  Promise_all (p :: promises)
  = match p with
    | Some v => (v ::.) <$> Promise_all promises
    | None => None
    end.
Proof.
  unfold Promise_all. simpl. destruct p; simpl; [|done].
  by destruct (mapM id promises).
Qed.

Lemma stargazersLoop_take pages stargazers pageCount :
  (pageCount < MAX_STARGAZER_PAGES)%nat →
  stargazersLoop pages stargazers pageCount
  = (λ contents,
       (stargazers ++ concat contents, (pageCount + length contents)%nat))
      <$> Promise_all (take (MAX_STARGAZER_PAGES - pageCount) pages).
Proof.
  revert stargazers pageCount.
  induction pages as [|[pageData|] pages IH]; intros stargazers pageCount Hlt.
  - rewrite take_nil. simpl. by rewrite app_nil_r, Nat.add_0_r.
  - simpl. destruct (decide (MAX_STARGAZER_PAGES ≤ S pageCount)%nat) as [Hge|Hn].
    + assert (MAX_STARGAZER_PAGES - pageCount = 1)%nat as -> by lia.
      rewrite firstn_cons, take_0, Promise_all_cons. simpl.
      by rewrite app_nil_r, Nat.add_1_r.
    + rewrite IH by lia.
      replace (MAX_STARGAZER_PAGES - pageCount)%nat
        with (S (MAX_STARGAZER_PAGES - S pageCount)) by lia.
      rewrite firstn_cons, Promise_all_cons.
      destruct (Promise_all _) as [contents|]; simpl; [|done].
      by rewrite <-(assoc_L (++)), Nat.add_succ_r.
  - replace (MAX_STARGAZER_PAGES - pageCount)%nat
      with (S (MAX_STARGAZER_PAGES - S pageCount)) by lia.
    by rewrite firstn_cons, Promise_all_cons.
Qed.

Lemma issuesLoop_take pages issues pageCount :
  (pageCount < MAX_ISSUE_PAGES)%nat →
  issuesLoop pages issues pageCount
  = (λ contents,
       (issues ++ concat (issuesOnly <$> contents),
        (pageCount + length contents)%nat))
      <$> Promise_all (take (MAX_ISSUE_PAGES - pageCount) pages).
Proof.
  revert issues pageCount.
  induction pages as [|[pageData|] pages IH]; intros issues pageCount Hlt.
  - rewrite take_nil. simpl. by rewrite app_nil_r, Nat.add_0_r.
  - simpl. destruct (decide (MAX_ISSUE_PAGES ≤ S pageCount)%nat) as [Hge|Hn].
    + assert (MAX_ISSUE_PAGES - pageCount = 1)%nat as -> by lia.
      rewrite firstn_cons, take_0, Promise_all_cons. simpl.
      by rewrite app_nil_r, Nat.add_1_r.
    + rewrite IH by lia.
      replace (MAX_ISSUE_PAGES - pageCount)%nat
        with (S (MAX_ISSUE_PAGES - S pageCount)) by lia.
      rewrite firstn_cons, Promise_all_cons.
      destruct (Promise_all _) as [contents|]; simpl; [|done].
      by rewrite <-(assoc_L (++)), Nat.add_succ_r.
  - replace (MAX_ISSUE_PAGES - pageCount)%nat
      with (S (MAX_ISSUE_PAGES - S pageCount)) by lia.
    by rewrite firstn_cons, Promise_all_cons.
Qed.

Lemma concat_length_bound {A} (contents : list (list A)) (n : nat) :
  Forall (λ page, length page ≤ n)%nat contents →
  (length (concat contents) ≤ length contents * n)%nat.
Proof.
  induction 1 as [|page contents Hpage _ IH]; simpl; [done|].
  rewrite length_app. lia.
Qed.

Lemma first_pages_bound {A} (pages : list (option (list A))) contents :
  page_sizes_ok pages →
  Promise_all (take 10 pages) = Some contents →
  (length contents ≤ 10)%nat
  ∧ Forall (λ page, (length page ≤ 100)%nat) contents.
Proof.
  intros Hpages Hall. apply mapM_Some in Hall.
  apply Forall2_length in Hall as Hlen. rewrite length_take in Hlen.
  split; [lia|].
  apply Forall_take with (n := 10%nat) in Hpages. revert Hpages.
  generalize (take 10 pages) Hall. clear.
  induction 1 as [|page items ?? Hpage _ IH]; [done|].
  rewrite Forall_cons. intros [Hitems Hrest]. simpl in Hpage. subst page.
  constructor; [exact Hitems|by apply IH].
Qed.

Lemma issuesOnly_length pageData :
  (length (issuesOnly pageData) ≤ length pageData)%nat.
Proof. unfold issuesOnly. rewrite length_fmap. apply length_filter. Qed.

Lemma issuesOnly_issueEvents pageData :
  issuesOnly pageData = Spec.issueEvents pageData.
Proof.
  unfold issuesOnly. induction pageData as [|item pageData IH]; [done|].
  rewrite filter_cons.
  destruct (decide (pull_request item = false)) as [Hissue|Hpull]; simpl.
  - rewrite Hissue. f_equal. exact IH.
  - destruct (pull_request item); [exact IH|done].
Qed.

Lemma issueEvents_app items1 items2 :
  Spec.issueEvents (items1 ++ items2)
  = Spec.issueEvents items1 ++ Spec.issueEvents items2.
Proof.
  induction items1 as [|item items1 IH]; [done|].
  simpl. destruct (pull_request item); [done|]. simpl. by rewrite IH.
Qed.

Lemma issuesOnly_concat contents :
  concat (issuesOnly <$> contents) = Spec.issueEvents (concat contents).
Proof.
  induction contents as [|page contents IH]; [done|].
  rewrite fmap_cons. cbn [concat].
  by rewrite IH, issuesOnly_issueEvents, issueEvents_app.
Qed.

Lemma issueEvents_length items :
  (length (Spec.issueEvents items) ≤ length items)%nat.
Proof.
  induction items as [|item items IH]; [done|].
  simpl. destruct (pull_request item); simpl; lia.
Qed.

(** C5.  When the server sends at most 100 items a page, each collector
    consumes the first ten pages at most: it resolves exactly when the
    requests for those pages succeed, whatever lies behind them.  The
    stargazers collected are then the items of those pages in the order
    received; the issues collected are, of the items of those pages in the
    order received, the ones that are not pull requests, each with the
    dates of its creation and of its closing.  Either sequence has at most
    1000 items. *)
Theorem collectors_keep_first_ten_pages
    (octokit : Octokit) (owner repo : string) :
  let starPages := listStargazersForRepo octokit owner repo in
  let issuePages := listForRepo octokit owner repo in
  page_sizes_ok starPages →
  page_sizes_ok issuePages →
  _fetchStargazers octokit owner repo
  = (λ contents, concat contents) <$> Promise_all (take 10 starPages)
  ∧ _fetchIssues octokit owner repo
    = (λ contents, Spec.issueEvents (concat contents))
        <$> Promise_all (take 10 issuePages)
  ∧ (∀ stargazers pageCount,
       stargazersLoop starPages [] 0 = Some (stargazers, pageCount) →
       (pageCount ≤ 10 ∧ length stargazers ≤ 1000)%nat)
  ∧ (∀ issues pageCount,
       issuesLoop issuePages [] 0 = Some (issues, pageCount) →
       (pageCount ≤ 10 ∧ length issues ≤ 1000)%nat).
Proof.
  intros starPages issuePages Hstars Hissues.
  unfold _fetchStargazers, _fetchIssues. fold starPages. fold issuePages.
  rewrite stargazersLoop_take, issuesLoop_take
    by (unfold MAX_STARGAZER_PAGES, MAX_ISSUE_PAGES; lia).
  change (MAX_STARGAZER_PAGES - 0)%nat with 10%nat.
  change (MAX_ISSUE_PAGES - 0)%nat with 10%nat.
  split_and!.
  - by destruct (Promise_all (take 10 starPages)).
  - destruct (Promise_all (take 10 issuePages)) as [contents|]; [|done].
    simpl. by rewrite issuesOnly_concat.
  - intros stargazers pageCount.
    destruct (Promise_all (take 10 starPages)) as [contents|] eqn:Hall;
      [|done].
    intros [= <- <-].
    destruct (first_pages_bound _ _ Hstars Hall) as [Hlen Hsize].
    apply concat_length_bound in Hsize. simpl. lia.
  - intros issues pageCount.
    destruct (Promise_all (take 10 issuePages)) as [contents|] eqn:Hall;
      [|done].
    intros [= <- <-].
    destruct (first_pages_bound _ _ Hissues Hall) as [Hlen Hsize].
    apply concat_length_bound in Hsize.
    rewrite issuesOnly_concat.
    pose proof (issueEvents_length (concat contents)). simpl. lia.
Qed.

Lemma collectors_keep_first_ten_pages_witness :
  let octokit := Examples.busyOctokit in
  let starPages := listStargazersForRepo octokit "o" "r" in
  let issuePages := listForRepo octokit "o" "r" in
  (page_sizes_ok starPages ∧ page_sizes_ok issuePages)
  ∧ _fetchStargazers octokit "o" "r"
    = (λ contents, concat contents) <$> Promise_all (take 10 starPages)
  ∧ _fetchIssues octokit "o" "r"
    = (λ contents, Spec.issueEvents (concat contents))
        <$> Promise_all (take 10 issuePages)
  ∧ (∀ stargazers pageCount,
       stargazersLoop starPages [] 0 = Some (stargazers, pageCount) →
       (pageCount ≤ 10 ∧ length stargazers ≤ 1000)%nat)
  ∧ (∀ issues pageCount,
       issuesLoop issuePages [] 0 = Some (issues, pageCount) →
       (pageCount ≤ 10 ∧ length issues ≤ 1000)%nat).
Proof.
  intros octokit starPages issuePages.
  assert (page_sizes_ok starPages) as Hstars.
  { vm_compute. repeat constructor. }
  assert (page_sizes_ok issuePages) as Hissues.
  { vm_compute. repeat constructor. }
  split; [by split|].
  exact (collectors_keep_first_ten_pages octokit "o" "r" Hstars Hissues).
Defined.

(** ** Loops that fill a map *)

Lemma insertAll_notin {V} (m : gmap string V) l k :
  k ∉ l.*1 → insertAll m l !! k = m !! k.
Proof.
  revert m. induction l as [|[k' v] l IH]; intros m; [done|].
  rewrite fmap_cons, not_elem_of_cons. intros [Hne Hnotin].
  unfold insertAll in *. simpl. rewrite IH by done.
  by rewrite lookup_insert_ne.
Qed.

Lemma insertAll_last {V} (m : gmap string V) l1 l2 k v :
  k ∉ l2.*1 → insertAll m (l1 ++ (k, v) :: l2) !! k = Some v.
Proof.
  intros Hnotin. unfold insertAll. rewrite foldl_app. simpl.
  fold (insertAll (<[k:=v]> (foldl (λ m kv, <[kv.1:=kv.2]> m) m l1)) l2).
  rewrite insertAll_notin by done. apply lookup_insert_eq.
Qed.

(** The entry at [i] of two lists of the same length, put at its key,
    survives when no later entry has the key. *)
Lemma insertAll_zip_lookup {A B V} (key : A → string) (val : A → B → V)
    (m : gmap string V) (xs : list A) (ys : list B) i x y :
  xs !! i = Some x → ys !! i = Some y →
  (∀ j x', (i < j)%nat → xs !! j = Some x' → key x' ≠ key x) →
  insertAll m (zip_with (λ x y, (key x, val x y)) xs ys) !! key x
  = Some (val x y).
Proof.
  intros Hx Hy Hlater.
  rewrite <-(take_drop_middle xs i x Hx), <-(take_drop_middle ys i y Hy).
  rewrite zip_with_app
    by (rewrite !length_take; apply lookup_lt_Some in Hx, Hy; lia).
  simpl. apply insertAll_last.
  rewrite list_elem_of_fmap. intros ([k v] & Hk & Hin). simpl in Hk.
  apply elem_of_lookup_zip_with in Hin as (j & x' & y' & [= -> ->] & Hx' & _).
  rewrite lookup_drop in Hx'. by apply (Hlater (S i + j)%nat x'); [lia| |].
Qed.

Lemma zip_keys_subset {A B V} (key : A → string) (val : A → B → V)
    (xs : list A) (ys : list B) k :
  k ∈ (zip_with (λ x y, (key x, val x y)) xs ys).*1 → k ∈ key <$> xs.
Proof.
  rewrite list_elem_of_fmap. intros ([k' v] & -> & Hin).
  apply elem_of_lookup_zip_with in Hin as (j & x & y & [= -> ->] & Hx & _).
  simpl. apply list_elem_of_fmap_2. by eapply list_elem_of_lookup_2.
Qed.

(** ** The batch fetch *)

Lemma Zsum_cons z l : Spec.Zsum (z :: l) = z + Spec.Zsum l.
Proof. done. Qed.

Lemma Zsum_app l1 l2 : Spec.Zsum (l1 ++ l2) = Spec.Zsum l1 + Spec.Zsum l2.
Proof.
  induction l1 as [|z l1 IH]; [done|].
  rewrite <-app_comm_cons, !Zsum_cons, IH. lia.
Qed.

Lemma sum_assets (l : list GitHubReleaseAsset) a :
  foldl (λ sum asset, sum + download_count asset) a l
  = a + Spec.Zsum (download_count <$> l).
Proof.
  revert a. induction l as [|x l IH]; intros a; [simpl; lia|].
  rewrite fmap_cons, Zsum_cons. cbn [foldl]. rewrite IH. lia.
Qed.

Lemma sum_releases (releases : list GitHubRelease) a :
  foldl (λ total release,
           total + foldl (λ sum asset, sum + download_count asset)
                     0 (assets release)) a releases
  = a + Spec.Zsum (download_count <$> (releases ≫= assets)).
Proof.
  revert a. induction releases as [|r releases IH]; intros a; [simpl; lia|].
  rewrite bind_cons, fmap_app, Zsum_app. cbn [foldl].
  rewrite IH, sum_assets. lia.
Qed.

Lemma totalDownloadsOf_sum releases :
  totalDownloadsOf releases = Spec.totalDownloads releases.
Proof.
  unfold totalDownloadsOf, Spec.totalDownloads. rewrite sum_releases. lia.
Qed.

Lemma commitResults_closed t repos results :
  ∀ rs index acc,
    drop index repos = rs → length rs = length results →
    newSummaryData (commitResults t repos index results acc)
    = newSummaryData acc ++ zip_with (Spec.summaryRow t) rs results
    ∧ newReleasesData (commitResults t repos index results acc)
      = insertAll (newReleasesData acc)
          (zip_with (λ r res, (repoIdentifier r, Spec.published res.1))
             rs results)
    ∧ newDownloadsData (commitResults t repos index results acc)
      = insertAll (newDownloadsData acc)
          (zip_with
             (λ r res,
                (repoIdentifier r,
                 Spec.totalDownloads (Spec.published res.1)))
             rs results).
Proof.
  induction results as [|[releasesResponse repoDetails] results IH];
    intros rs index acc Hdrop Hlen.
  { destruct rs; [|done]. simpl. by rewrite app_nil_r. }
  destruct rs as [|r rs]; [done|].
  assert (repos !! index = Some r) as Hr.
  { rewrite <-(Nat.add_0_r index), <-lookup_drop, Hdrop. done. }
  assert (drop (S index) repos = rs) as Hdrop'.
  { apply (drop_S _ _ _) in Hr. rewrite Hdrop in Hr. by simplify_eq. }
  simpl in Hlen. cbn [commitResults].
  destruct (IH rs (S index)
              (commitResult t repos index (releasesResponse, repoDetails) acc)
              Hdrop' ltac:(lia)) as (Hsum & Hrel & Hdown).
  rewrite Hsum, Hrel, Hdown. unfold commitResult. rewrite Hr.
  cbn [newSummaryData newReleasesData newDownloadsData zip_with].
  rewrite totalDownloadsOf_sum, <-(assoc_L (++)). done.
Qed.

(** The same when the repo set has changed between the requests and
    their settling: a result without a repository at its index in the repo
    set of the moment commits nothing. *)
Lemma commitResults_zip t repos results :
  ∀ index acc,
    newSummaryData (commitResults t repos index results acc)
    = newSummaryData acc
      ++ zip_with (Spec.summaryRow t) (drop index repos) results
    ∧ newReleasesData (commitResults t repos index results acc)
      = insertAll (newReleasesData acc)
          (zip_with (λ r res, (repoIdentifier r, Spec.published res.1))
             (drop index repos) results)
    ∧ newDownloadsData (commitResults t repos index results acc)
      = insertAll (newDownloadsData acc)
          (zip_with
             (λ r res,
                (repoIdentifier r,
                 Spec.totalDownloads (Spec.published res.1)))
             (drop index repos) results).
Proof.
  induction results as [|[releasesResponse repoDetails] results IH];
    intros index acc.
  { cbn [commitResults]. rewrite !zip_with_nil_r. simpl.
    by rewrite app_nil_r. }
  cbn [commitResults].
  destruct (IH (S index)
              (commitResult t repos index (releasesResponse, repoDetails)
                 acc)) as (Hsum & Hrel & Hdown).
  rewrite Hsum, Hrel, Hdown. unfold commitResult.
  destruct (repos !! index) as [r|] eqn:Hr.
  - rewrite (drop_S _ _ _ Hr).
    cbn [newSummaryData newReleasesData newDownloadsData zip_with].
    rewrite totalDownloadsOf_sum, <-(assoc_L (++)). done.
  - apply lookup_ge_None in Hr. rewrite !drop_ge by lia. done.
Qed.

Lemma fetchPair_None octokit r :
  fetchPair octokit r = None
  ↔ listReleases octokit (username r) (repository r) = None
    ∨ get octokit (username r) (repository r) = None.
Proof.
  unfold fetchPair.
  destruct (listReleases _ _ _), (get _ _ _); simpl;
    intuition congruence.
Qed.

Lemma fetchPair_Some octokit r result :
  fetchPair octokit r = Some result
  ↔ listReleases octokit (username r) (repository r) = Some result.1
    ∧ get octokit (username r) (repository r) = Some result.2.
Proof.
  unfold fetchPair. destruct result as [releases details].
  destruct (listReleases _ _ _), (get _ _ _); simpl;
    intuition congruence.
Qed.

Lemma Promise_all_fetch_None octokit repos :
  Promise_all (fetchPair octokit <$> repos) = None
  ↔ ∃ r, r ∈ repos
         ∧ (listReleases octokit (username r) (repository r) = None
            ∨ get octokit (username r) (repository r) = None).
Proof.
  unfold Promise_all. rewrite mapM_None, Exists_exists.
  setoid_rewrite list_elem_of_fmap. split.
  - intros (p & (r & -> & Hr) & Hp). exists r. split; [done|].
    by apply fetchPair_None.
  - intros (r & Hr & Hfail). exists (fetchPair octokit r).
    split; [by exists r|]. by apply fetchPair_None.
Qed.

Lemma Promise_all_fetch_Some octokit repos results :
  Promise_all (fetchPair octokit <$> repos) = Some results
  ↔ Forall2
      (λ r result,
         listReleases octokit (username r) (repository r) = Some result.1
         ∧ get octokit (username r) (repository r) = Some result.2)
      repos results.
Proof.
  unfold Promise_all. rewrite mapM_Some, Forall2_fmap_l.
  split; intros Hall; (eapply Forall2_impl; [exact Hall|]);
    intros r result; simpl; apply fetchPair_Some.
Qed.

(** C1.  A batch fetch is all or nothing.  When a request of the batch
    fails, the state afterwards is the state before with the aggregate
    error message set and the loading flag cleared: the summary rows, the
    releases, the downloads and the display order are as they were.  When
    every request succeeds, those four are replaced together: the order is
    the repo set, the rows are the ones derived from the responses, and the
    two maps hold the data of the repo set and nothing else. *)
Theorem batch_fetch_all_or_nothing
    (t : string → string) (octokit : Octokit) (s : State) :
  let s' := _fetchDataForRepos t octokit s in
  ((∃ r, r ∈ _repos s
         ∧ (listReleases octokit (username r) (repository r) = None
            ∨ get octokit (username r) (repository r) = None)) →
   _repoSummaryData s' = _repoSummaryData s
   ∧ _releasesData s' = _releasesData s
   ∧ _downloadsData s' = _downloadsData s
   ∧ _repoOrder s' = _repoOrder s
   ∧ _error s' = t "errors.fetchRepoData"
   ∧ s' = s <| _error := t "errors.fetchRepoData" |>
            <| _loading := false |>)
  ∧ (∀ results,
       Forall2
         (λ r result,
            listReleases octokit (username r) (repository r)
            = Some result.1
            ∧ get octokit (username r) (repository r) = Some result.2)
         (_repos s) results →
       _repoOrder s' = repoIdentifier <$> _repos s
       ∧ _repoSummaryData s'
         = zip_with (Spec.summaryRow t) (_repos s) results
       ∧ (∀ id, id ∉ repoIdentifier <$> _repos s →
                _releasesData s' !! id = None
                ∧ _downloadsData s' !! id = None)
       ∧ (∀ i r result,
            _repos s !! i = Some r → results !! i = Some result →
            (∀ j r', (i < j)%nat → _repos s !! j = Some r' →
                     repoIdentifier r' ≠ repoIdentifier r) →
            _releasesData s' !! repoIdentifier r
            = Some (Spec.published result.1)
            ∧ _downloadsData s' !! repoIdentifier r
              = Some (Spec.totalDownloads (Spec.published result.1)))
       ∧ _error s' = EmptyString ∧ _loading s' = false
       ∧ _repos s' = _repos s).
Proof.
  intros s'. subst s'. unfold _fetchDataForRepos, fetchBegin, fetchSettle.
  cbn [set]. split.
  - intros Hfail. apply Promise_all_fetch_None in Hfail.
    destruct s. simpl in *. rewrite Hfail. simpl. done.
  - intros results Hok. apply Promise_all_fetch_Some in Hok as Hall.
    apply Forall2_length in Hok as Hlen.
    destruct s as [? ? repos ? ? ? ? ? ? ? ? ? ? ? ? ? ? ?].
    simpl in *. rewrite Hall. simpl.
    destruct (commitResults_closed t repos results repos 0%nat
                {| newReleasesData := ∅; newDownloadsData := ∅;
                   newSummaryData := [] |} eq_refl Hlen)
      as (Hsum & Hrel & Hdown).
    rewrite Hsum, Hrel, Hdown. simpl. split_and!; try done.
    + intros id Hid.
      rewrite !insertAll_notin, !lookup_empty; [done|..];
        intros Hin; by apply zip_keys_subset in Hin.
    + intros i r result Hr Hres Hlater. split.
      * by apply (insertAll_zip_lookup repoIdentifier
                    (λ _ res, Spec.published res.1) _ _ _ i).
      * by apply (insertAll_zip_lookup repoIdentifier
                    (λ _ res, Spec.totalDownloads (Spec.published res.1))
                    _ _ _ i).
Qed.

Lemma batch_fetch_all_or_nothing_witness :
  let nobody := {| username := "nobody"; repository := "nothing" |} in
  let s := Examples.twoRepos
             <| _repos := _repos Examples.twoRepos ++ [nobody] |> in
  let releases :=
    [{| tag_name := "v1"; published_at := Some 5;
        assets := [{| download_count := 3 |}; {| download_count := 4 |}] |}]
  in
  let details (stargazers : Z) :=
    {| stargazers_count := stargazers; pushed_at := "2024-01-01T00:00:00Z";
       repo_size := 7; open_issues_count := 2 |} in
  (let s' := _fetchDataForRepos Examples.t Examples.partialOctokit s in
   _repoSummaryData s' = _repoSummaryData s
   ∧ _releasesData s' = _releasesData s
   ∧ _downloadsData s' = _downloadsData s
   ∧ _repoOrder s' = _repoOrder s
   ∧ _error s' = Examples.t "errors.fetchRepoData")
  ∧ (let s' := _fetchDataForRepos Examples.t Examples.okOctokit s in
     _repoOrder s' = repoIdentifier <$> _repos s
     ∧ _repoSummaryData s'
       = zip_with (Spec.summaryRow Examples.t) (_repos s)
           [(releases, details 11); (releases, details 6);
            (releases, details 7)]).
Proof.
  intros nobody s releases details. split.
  - pose proof (batch_fetch_all_or_nothing
                  Examples.t Examples.partialOctokit s) as H.
    cbv zeta in H. destruct H as [H _].
    assert (nobody ∈ _repos s) as Hin.
    { apply elem_of_app. right. left. }
    specialize (H (ex_intro _ nobody (conj Hin (or_intror eq_refl)))).
    destruct H as (Hsum & Hrel & Hdown & Horder & Herr & _).
    exact (conj Hsum (conj Hrel (conj Hdown (conj Horder Herr)))).
  - pose proof (batch_fetch_all_or_nothing
                  Examples.t Examples.okOctokit s) as H.
    cbv zeta in H. destruct H as [_ H].
    specialize (H [(releases, details 11); (releases, details 6);
                   (releases, details 7)]).
    assert (_repos s
            = [{| username := "octocat"; repository := "Hello-World" |};
               {| username := "rocq"; repository := "stdlib" |}; nobody])
      as Hrepos by (vm_compute; reflexivity).
    rewrite Hrepos in H at 1.
    specialize (H ltac:(repeat constructor)).
    destruct H as (Horder & Hrows & _).
    exact (conj Horder Hrows).
Defined.

(** ** Handlers that do not fetch *)

(** [_updateURL] writes the address bar and nothing else. *)
Lemma updateURL_fields s :
  _repos (_updateURL s) = _repos s
  ∧ _repoOrder (_updateURL s) = _repoOrder s
  ∧ _repoSummaryData (_updateURL s) = _repoSummaryData s
  ∧ _releasesData (_updateURL s) = _releasesData s
  ∧ _downloadsData (_updateURL s) = _downloadsData s
  ∧ _stargazersData (_updateURL s) = _stargazersData s
  ∧ _issuesData (_updateURL s) = _issuesData s
  ∧ _savedSets (_updateURL s) = _savedSets s
  ∧ _sortKey (_updateURL s) = _sortKey s
  ∧ _sortDirection (_updateURL s) = _sortDirection s
  ∧ _githubToken (_updateURL s) = _githubToken s
  ∧ _error (_updateURL s) = _error s
  ∧ _authError (_updateURL s) = _authError s.
Proof. unfold _updateURL. by case_decide. Qed.

Lemma removeRepo_fields repoToRemove s :
  _repos (_handleRemoveRepo repoToRemove s)
  = filter (λ r, repoIdentifier r ≠ repoIdentifier repoToRemove) (_repos s)
  ∧ _repoOrder (_handleRemoveRepo repoToRemove s)
    = filter (λ id, id ≠ repoIdentifier repoToRemove) (_repoOrder s)
  ∧ _repoSummaryData (_handleRemoveRepo repoToRemove s)
    = filter (λ d, identifier d ≠ repoIdentifier repoToRemove)
        (_repoSummaryData s)
  ∧ _releasesData (_handleRemoveRepo repoToRemove s)
    = delete (repoIdentifier repoToRemove) (_releasesData s)
  ∧ _downloadsData (_handleRemoveRepo repoToRemove s)
    = delete (repoIdentifier repoToRemove) (_downloadsData s)
  ∧ _stargazersData (_handleRemoveRepo repoToRemove s)
    = delete (repoIdentifier repoToRemove) (_stargazersData s)
  ∧ _issuesData (_handleRemoveRepo repoToRemove s)
    = delete (repoIdentifier repoToRemove) (_issuesData s)
  ∧ _savedSets (_handleRemoveRepo repoToRemove s) = _savedSets s.
Proof.
  unfold _handleRemoveRepo.
  match goal with
  | |- context [_updateURL ?s1] =>
      destruct (updateURL_fields s1)
        as (-> & -> & -> & -> & -> & -> & -> & -> & _)
  end.
  by destruct s.
Qed.

(** C10.  Removing a repository removes its identifier and nothing else:
    the repo set, the display order and the summary rows lose the entries
    of that identifier and keep the others in their order; the releases,
    the downloads, the star series and the issue series have no entry for
    that identifier any more, and those of every other identifier are as
    before. *)
Theorem remove_repo_removes_exactly_it (repoToRemove : Repo) (s : State) :
  let removed := repoIdentifier repoToRemove in
  let s' := _handleRemoveRepo repoToRemove s in
  (¬ removed ∈ repoIdentifier <$> _repos s')
  ∧ (¬ removed ∈ _repoOrder s')
  ∧ (¬ removed ∈ identifier <$> _repoSummaryData s')
  ∧ (_releasesData s' !! removed = None
     ∧ _downloadsData s' !! removed = None
     ∧ _stargazersData s' !! removed = None
     ∧ _issuesData s' !! removed = None)
  ∧ (_repos s' `sublist_of` _repos s
     ∧ _repoOrder s' `sublist_of` _repoOrder s
     ∧ _repoSummaryData s' `sublist_of` _repoSummaryData s)
  ∧ (∀ r, repoIdentifier r ≠ removed → r ∈ _repos s → r ∈ _repos s')
  ∧ (∀ id, id ≠ removed → id ∈ _repoOrder s → id ∈ _repoOrder s')
  ∧ (∀ d, identifier d ≠ removed →
          d ∈ _repoSummaryData s → d ∈ _repoSummaryData s')
  ∧ (∀ id, id ≠ removed →
           _releasesData s' !! id = _releasesData s !! id
           ∧ _downloadsData s' !! id = _downloadsData s !! id
           ∧ _stargazersData s' !! id = _stargazersData s !! id
           ∧ _issuesData s' !! id = _issuesData s !! id).
Proof.
  intros removed s'. subst s'.
  destruct (removeRepo_fields repoToRemove s)
    as (-> & -> & -> & -> & -> & -> & -> & _).
  fold removed. split_and!.
  - rewrite list_elem_of_fmap. intros (r & Hid & Hr).
    apply list_elem_of_filter in Hr as [Hne _]. by apply Hne.
  - rewrite list_elem_of_filter. by intros [Hne _].
  - rewrite list_elem_of_fmap. intros (d & Hid & Hd).
    apply list_elem_of_filter in Hd as [Hne _]. by apply Hne.
  - apply lookup_delete_eq.
  - apply lookup_delete_eq.
  - apply lookup_delete_eq.
  - apply lookup_delete_eq.
  - apply sublist_filter.
  - apply sublist_filter.
  - apply sublist_filter.
  - intros r Hne Hr. by apply list_elem_of_filter.
  - intros id Hne Hid. by apply list_elem_of_filter.
  - intros d Hne Hd. by apply list_elem_of_filter.
  - intros id Hne. by rewrite !lookup_delete_ne.
Qed.

(** C7.  Without a credential a sort by stars or by open issues is refused
    on the spot: the state is the one before with the policy message set,
    so the display order, the sort key and the sort direction are the
    prior ones, and no collector is called. *)
Theorem gated_sort_is_refused
    (t : string → string) (octokit : Octokit) (newSortKey : SortKey)
    (s : State) :
  _githubToken s = EmptyString →
  newSortKey = SortKey.stars ∨ newSortKey = SortKey.openIssues →
  let '(s', requests) := _handleRequestSort t octokit newSortKey s in
  requests = []
  ∧ s' = s <| _authError := t "errors.authRequired" |>
  ∧ _authError s' = t "errors.authRequired"
  ∧ _repoOrder s' = _repoOrder s
  ∧ _sortKey s' = _sortKey s
  ∧ _sortDirection s' = _sortDirection s
  ∧ _stargazersData s' = _stargazersData s
  ∧ _issuesData s' = _issuesData s.
Proof.
  intros Htoken Hkey. unfold _handleRequestSort.
  rewrite decide_True by (by destruct s).
  by destruct s.
Qed.

Lemma gated_sort_is_refused_witness :
  let '(s', requests) :=
    _handleRequestSort Examples.t Examples.okOctokit SortKey.stars
      Examples.twoRepos in
  requests = []
  ∧ s' = Examples.twoRepos
           <| _authError := Examples.t "errors.authRequired" |>
  ∧ _authError s' = Examples.t "errors.authRequired"
  ∧ _repoOrder s' = _repoOrder Examples.twoRepos
  ∧ _sortKey s' = _sortKey Examples.twoRepos
  ∧ _sortDirection s' = _sortDirection Examples.twoRepos
  ∧ _stargazersData s' = _stargazersData Examples.twoRepos
  ∧ _issuesData s' = _issuesData Examples.twoRepos.
Proof.
  apply (gated_sort_is_refused Examples.t Examples.okOctokit SortKey.stars
           Examples.twoRepos).
  - vm_compute. reflexivity.
  - left. reflexivity.
Defined.

(** ** The lazy supplemental fetch *)

Lemma mergeResults_closed {V} reposToFetch (results : list V) :
  ∀ rs index newData,
    drop index reposToFetch = rs → length rs = length results →
    mergeResults reposToFetch index results newData
    = insertAll newData
        (zip_with (λ r result, (repoIdentifier r, result)) rs results).
Proof.
  induction results as [|result results IH]; intros rs index newData Hdrop Hlen.
  { by destruct rs. }
  destruct rs as [|r rs]; [done|].
  assert (reposToFetch !! index = Some r) as Hr.
  { rewrite <-(Nat.add_0_r index), <-lookup_drop, Hdrop. done. }
  assert (drop (S index) reposToFetch = rs) as Hdrop'.
  { apply (drop_S _ _ _) in Hr. rewrite Hdrop in Hr. by simplify_eq. }
  simpl in Hlen. cbn [mergeResults]. rewrite Hr.
  rewrite (IH rs) by (done || lia). done.
Qed.

(** What a supplemental fetch over [reposToFetch] does to the cache: with
    all the results, after the last of them, or not at all. *)
Lemma supplemental_merge {V} (fetch : Repo → option V) reposToFetch
    (cache : gmap string V) :
  match Promise_all (fetch <$> reposToFetch) with
  | Some results =>
      Forall2 (λ r result, fetch r = Some result) reposToFetch results
      ∧ mergeResults reposToFetch 0 results cache
        = insertAll cache
            (zip_with (λ r result, (repoIdentifier r, result))
               reposToFetch results)
  | None => ∃ r, r ∈ reposToFetch ∧ fetch r = None
  end.
Proof.
  destruct (Promise_all _) as [results|] eqn:Hall; unfold Promise_all in Hall.
  - apply mapM_Some in Hall. rewrite Forall2_fmap_l in Hall.
    split; [done|]. apply mergeResults_closed; [done|].
    by eapply Forall2_length.
  - apply mapM_None in Hall. apply Exists_exists in Hall as (p & Hp & Hnone).
    apply list_elem_of_fmap in Hp as (r & -> & Hr). by exists r.
Qed.

Lemma loadStargazers_fields t octokit s :
  let reposToFetch :=
    filter (λ repo, _stargazersData s !! repoIdentifier repo = None)
      (_repos s) in
  let promises :=
    (λ repo, _fetchStargazers octokit (username repo) (repository repo))
      <$> reposToFetch in
  (loadStargazers t octokit s).2 = FetchStargazers <$> reposToFetch
  ∧ _stargazersData (loadStargazers t octokit s).1
    = match Promise_all promises with
      | Some results =>
          mergeResults reposToFetch 0 results (_stargazersData s)
      | None => _stargazersData s
      end
  ∧ _error (loadStargazers t octokit s).1
    = match Promise_all promises with
      | Some results => _error s
      | None => t "errors.fetchStarHistory"
      end
  ∧ _issuesData (loadStargazers t octokit s).1 = _issuesData s
  ∧ _repos (loadStargazers t octokit s).1 = _repos s
  ∧ _repoOrder (loadStargazers t octokit s).1 = _repoOrder s
  ∧ _repoSummaryData (loadStargazers t octokit s).1 = _repoSummaryData s.
Proof.
  intros reposToFetch promises. unfold loadStargazers.
  fold reposToFetch. fold promises. case_decide as Hlen.
  - destruct (Promise_all promises); by destruct s.
  - destruct reposToFetch; [done|]. simpl in Hlen. lia.
Qed.

Lemma loadIssues_fields t octokit s :
  let reposToFetch :=
    filter (λ repo, _issuesData s !! repoIdentifier repo = None)
      (_repos s) in
  let promises :=
    (λ repo, _fetchIssues octokit (username repo) (repository repo))
      <$> reposToFetch in
  (loadIssues t octokit s).2 = FetchIssues <$> reposToFetch
  ∧ _issuesData (loadIssues t octokit s).1
    = match Promise_all promises with
      | Some results => mergeResults reposToFetch 0 results (_issuesData s)
      | None => _issuesData s
      end
  ∧ _error (loadIssues t octokit s).1
    = match Promise_all promises with
      | Some results => _error s
      | None => t "errors.fetchIssueHistory"
      end
  ∧ _stargazersData (loadIssues t octokit s).1 = _stargazersData s
  ∧ _repos (loadIssues t octokit s).1 = _repos s
  ∧ _repoOrder (loadIssues t octokit s).1 = _repoOrder s
  ∧ _repoSummaryData (loadIssues t octokit s).1 = _repoSummaryData s.
Proof.
  intros reposToFetch promises. unfold loadIssues.
  fold reposToFetch. fold promises. case_decide as Hlen.
  - destruct (Promise_all promises); by destruct s.
  - destruct reposToFetch; [done|]. simpl in Hlen. lia.
Qed.

Lemma Promise_all_Some {A B} (f : A → option B) l results :
  Promise_all (f <$> l) = Some results
  ↔ Forall2 (λ x y, f x = Some y) l results.
Proof. unfold Promise_all. by rewrite mapM_Some, Forall2_fmap_l. Qed.

Lemma Promise_all_None {A B} (f : A → option B) l :
  Promise_all (f <$> l) = None ↔ ∃ x, x ∈ l ∧ f x = None.
Proof.
  unfold Promise_all. rewrite mapM_None, Exists_exists.
  setoid_rewrite list_elem_of_fmap. split.
  - intros (p & (x & -> & Hx) & Hp). by exists x.
  - intros (x & Hx & Hp). exists (f x). split; [by exists x|done].
Qed.

Lemma insertAll_missing_keeps {V} (cache : gmap string V)
    (missing : list Repo) (results : list V) id :
  Forall (λ r, cache !! repoIdentifier r = None) missing →
  is_Some (cache !! id) →
  insertAll cache
    (zip_with (λ r result, (repoIdentifier r, result)) missing results)
    !! id
  = cache !! id.
Proof.
  intros Hmissing Hid. apply insertAll_notin. intros Hin.
  apply zip_keys_subset in Hin.
  apply list_elem_of_fmap in Hin as (r & -> & Hr).
  rewrite Forall_forall in Hmissing. rewrite (Hmissing r Hr) in Hid.
  by destruct Hid.
Qed.

(** The sort that precedes a supplemental fetch leaves the repo set and
    the two caches alone. *)
Lemma requestSort_supplemental t octokit newSortKey s :
  _githubToken s ≠ EmptyString →
  newSortKey = SortKey.stars ∨ newSortKey = SortKey.openIssues →
  ∃ sorted,
    _repos sorted = _repos s
    ∧ _stargazersData sorted = _stargazersData s
    ∧ _issuesData sorted = _issuesData s
    ∧ _handleRequestSort t octokit newSortKey s
      = if decide (newSortKey = SortKey.stars)
        then loadStargazers t octokit sorted
        else loadIssues t octokit sorted.
Proof.
  intros Htoken Hkey. unfold _handleRequestSort.
  rewrite decide_False by (destruct s; simpl in *; tauto).
  rewrite decide_False by (destruct Hkey as [-> | ->]; done).
  match goal with
  | |- context [_updateURL ?s1] => exists (_updateURL s1);
      destruct (updateURL_fields s1) as (-> & _ & _ & _ & _ & -> & -> & _)
  end.
  split_and!; [by destruct s..|].
  destruct Hkey as [-> | ->]; by repeat case_decide.
Qed.

Lemma loadStargazers_outcome t octokit sorted s :
  _repos sorted = _repos s →
  _stargazersData sorted = _stargazersData s →
  let missing :=
    filter (λ repo, _stargazersData s !! repoIdentifier repo = None)
      (_repos s) in
  let fetch repo :=
    _fetchStargazers octokit (username repo) (repository repo) in
  let after := loadStargazers t octokit sorted in
  after.2 = FetchStargazers <$> missing
  ∧ (∀ id, is_Some (_stargazersData s !! id) →
           _stargazersData after.1 !! id = _stargazersData s !! id)
  ∧ ((∃ r, r ∈ missing ∧ fetch r = None) →
     _stargazersData after.1 = _stargazersData s
     ∧ _error after.1 = t "errors.fetchStarHistory")
  ∧ (∀ results,
       Forall2 (λ r result, fetch r = Some result) missing results →
       _stargazersData after.1
       = insertAll (_stargazersData s)
           (zip_with (λ r result, (repoIdentifier r, result))
              missing results)).
Proof.
  intros Hrepos Hcache missing fetch after. subst after.
  destruct (loadStargazers_fields t octokit sorted)
    as (Hreq & Hdata & Herr & _).
  rewrite Hrepos, Hcache in Hreq, Hdata, Herr. fold missing in Hreq, Hdata, Herr.
  fold fetch in Hdata, Herr. rewrite Hreq, Hdata, Herr. clear Hreq Hdata Herr.
  pose proof (supplemental_merge fetch missing (_stargazersData s)) as Hmerge.
  assert (Forall (λ r, _stargazersData s !! repoIdentifier r = None) missing)
    as Hmissing.
  { rewrite Forall_forall. intros r Hr.
    by apply list_elem_of_filter in Hr as [? _]. }
  split_and!; [done|..].
  - intros id Hid. destruct (Promise_all _); [|done].
    destruct Hmerge as [_ ->]. by apply insertAll_missing_keeps.
  - intros Hfail. apply Promise_all_None in Hfail. by rewrite Hfail.
  - intros results Hok. apply Promise_all_Some in Hok.
    rewrite Hok in Hmerge |- *. by destruct Hmerge as [_ ->].
Qed.

Lemma loadIssues_outcome t octokit sorted s :
  _repos sorted = _repos s →
  _issuesData sorted = _issuesData s →
  let missing :=
    filter (λ repo, _issuesData s !! repoIdentifier repo = None)
      (_repos s) in
  let fetch repo :=
    _fetchIssues octokit (username repo) (repository repo) in
  let after := loadIssues t octokit sorted in
  after.2 = FetchIssues <$> missing
  ∧ (∀ id, is_Some (_issuesData s !! id) →
           _issuesData after.1 !! id = _issuesData s !! id)
  ∧ ((∃ r, r ∈ missing ∧ fetch r = None) →
     _issuesData after.1 = _issuesData s
     ∧ _error after.1 = t "errors.fetchIssueHistory")
  ∧ (∀ results,
       Forall2 (λ r result, fetch r = Some result) missing results →
       _issuesData after.1
       = insertAll (_issuesData s)
           (zip_with (λ r result, (repoIdentifier r, result))
              missing results)).
Proof.
  intros Hrepos Hcache missing fetch after. subst after.
  destruct (loadIssues_fields t octokit sorted)
    as (Hreq & Hdata & Herr & _).
  rewrite Hrepos, Hcache in Hreq, Hdata, Herr. fold missing in Hreq, Hdata, Herr.
  fold fetch in Hdata, Herr. rewrite Hreq, Hdata, Herr. clear Hreq Hdata Herr.
  pose proof (supplemental_merge fetch missing (_issuesData s)) as Hmerge.
  assert (Forall (λ r, _issuesData s !! repoIdentifier r = None) missing)
    as Hmissing.
  { rewrite Forall_forall. intros r Hr.
    by apply list_elem_of_filter in Hr as [? _]. }
  split_and!; [done|..].
  - intros id Hid. destruct (Promise_all _); [|done].
    destruct Hmerge as [_ ->]. by apply insertAll_missing_keeps.
  - intros Hfail. apply Promise_all_None in Hfail. by rewrite Hfail.
  - intros results Hok. apply Promise_all_Some in Hok.
    rewrite Hok in Hmerge |- *. by destruct Hmerge as [_ ->].
Qed.

(** C9, as the code has it.  With a credential, the lazy fetch after a
    sort by stars (or by open issues) calls the collector for exactly the
    repositories missing from the cache, in the order of the repo set, and
    never touches an entry that is cached.  The results are merged behind
    a barrier: when every call has succeeded all of them are put into the
    cache together, and when one call fails none is, the cache stays as it
    was and the failure is flagged. *)
Theorem supplemental_fetch_merges_after_all
    (t : string → string) (octokit : Octokit) (s : State) :
  _githubToken s ≠ EmptyString →
  let missingStars :=
    filter (λ repo, _stargazersData s !! repoIdentifier repo = None)
      (_repos s) in
  let missingIssues :=
    filter (λ repo, _issuesData s !! repoIdentifier repo = None)
      (_repos s) in
  let fetchStars repo :=
    _fetchStargazers octokit (username repo) (repository repo) in
  let fetchIssues repo :=
    _fetchIssues octokit (username repo) (repository repo) in
  let byStars := _handleRequestSort t octokit SortKey.stars s in
  let byIssues := _handleRequestSort t octokit SortKey.openIssues s in
  (byStars.2 = FetchStargazers <$> missingStars
   ∧ (∀ id, is_Some (_stargazersData s !! id) →
            _stargazersData byStars.1 !! id = _stargazersData s !! id)
   ∧ ((∃ r, r ∈ missingStars ∧ fetchStars r = None) →
      _stargazersData byStars.1 = _stargazersData s
      ∧ _error byStars.1 = t "errors.fetchStarHistory")
   ∧ (∀ results,
        Forall2 (λ r result, fetchStars r = Some result)
          missingStars results →
        _stargazersData byStars.1
        = insertAll (_stargazersData s)
            (zip_with (λ r result, (repoIdentifier r, result))
               missingStars results)))
  ∧ (byIssues.2 = FetchIssues <$> missingIssues
     ∧ (∀ id, is_Some (_issuesData s !! id) →
              _issuesData byIssues.1 !! id = _issuesData s !! id)
     ∧ ((∃ r, r ∈ missingIssues ∧ fetchIssues r = None) →
        _issuesData byIssues.1 = _issuesData s
        ∧ _error byIssues.1 = t "errors.fetchIssueHistory")
     ∧ (∀ results,
          Forall2 (λ r result, fetchIssues r = Some result)
            missingIssues results →
          _issuesData byIssues.1
          = insertAll (_issuesData s)
              (zip_with (λ r result, (repoIdentifier r, result))
                 missingIssues results))).
Proof.
  intros Htoken missingStars missingIssues fetchStars fetchIssues
    byStars byIssues.
  subst byStars byIssues. split.
  - destruct (requestSort_supplemental t octokit SortKey.stars s Htoken)
      as (sorted & Hrepos & Hstars & _ & ->); [by left|].
    rewrite decide_True by done.
    apply (loadStargazers_outcome t octokit sorted s Hrepos Hstars).
  - destruct (requestSort_supplemental t octokit SortKey.openIssues s Htoken)
      as (sorted & Hrepos & _ & Hissues & ->); [by right|].
    rewrite decide_False by done.
    apply (loadIssues_outcome t octokit sorted s Hrepos Hissues).
Qed.

(** Against C9 as stated.  Three repositories miss their star events and
    the collector is called for each; the call for the first one succeeds
    and the call for the last one fails: the result of the first is not in
    the cache afterwards. *)
Lemma supplemental_merge_is_not_incremental :
  let after :=
    _handleRequestSort Examples.t Examples.partialOctokit SortKey.stars
      Examples.withToken in
  after.2
  = [FetchStargazers {| username := "octocat"; repository := "Hello-World" |};
     FetchStargazers {| username := "rocq"; repository := "stdlib" |};
     FetchStargazers {| username := "nobody"; repository := "nothing" |}]
  ∧ _fetchStargazers Examples.partialOctokit "octocat" "Hello-World"
    = Some [{| Chart.starred_at := 1 |}]
  ∧ _fetchStargazers Examples.partialOctokit "nobody" "nothing" = None
  ∧ _stargazersData after.1 !! "octocat/Hello-World" = None.
Proof. by vm_compute. Qed.

Lemma supplemental_fetch_merges_after_all_witness :
  let s := Examples.withToken in
  let nobody := {| username := "nobody"; repository := "nothing" |} in
  let byStars :=
    _handleRequestSort Examples.t Examples.partialOctokit SortKey.stars s in
  _githubToken s ≠ EmptyString
  ∧ _stargazersData byStars.1 = _stargazersData s
  ∧ _error byStars.1 = Examples.t "errors.fetchStarHistory".
Proof.
  intros s nobody byStars.
  assert (_githubToken s ≠ EmptyString) as Htoken by (by vm_compute).
  split; [exact Htoken|].
  pose proof (supplemental_fetch_merges_after_all
                Examples.t Examples.partialOctokit s Htoken) as H.
  cbv zeta in H. destruct H as [(_ & _ & Hfail & _) _].
  apply Hfail. exists nobody. split; [|by vm_compute].
  apply list_elem_of_filter. split; [by vm_compute|].
  assert (_repos s
          = [{| username := "octocat"; repository := "Hello-World" |};
             {| username := "rocq"; repository := "stdlib" |}; nobody])
    as -> by (by vm_compute).
  do 2 right. left.
Defined.

(** ** The CSV export *)

Lemma doubleQuotes_doubled s : doubleQuotes s = Spec.doubled s.
Proof.
  unfold Spec.doubled. induction s as [|c s IH]; [done|].
  cbn [doubleQuotes String.list_ascii_of_string mbind list_bind].
  destruct (decide (c = dquote)); simpl; by rewrite IH.
Qed.

Lemma unquote_doubleQuotes s : Spec.unquote (doubleQuotes s) = s.
Proof.
  induction s as [|c s IH]; [done|]. cbn [doubleQuotes].
  destruct (decide (c = dquote)) as [->|Hc].
  - cbn [Spec.unquote]. rewrite decide_True by done. by rewrite IH.
  - cbn [Spec.unquote]. destruct (doubleQuotes s) as [|c' rest] eqn:Hs.
    + destruct s as [|c'' s]; [done|]. simpl in Hs. by case_decide.
    + rewrite decide_False by (by intros [? _]). by rewrite IH.
Qed.

Lemma escapeCsv_plain field :
  includes comma field = false → includes dquote field = false →
  includes newline field = false → escapeCsv field = field.
Proof. unfold escapeCsv. by intros -> -> ->. Qed.

Lemma escapeCsv_quoted field :
  includes comma field || includes dquote field || includes newline field →
  escapeCsv field
  = String dquote (doubleQuotes field +:+ String dquote EmptyString).
Proof. unfold escapeCsv. by destruct (_ || _). Qed.

(** The decimal form of a number is made of digits and of a sign. *)
Lemma pretty_N_go_includes (c : ascii) (x : N) (s : string) :
  (∀ d, pretty_N_char d ≠ c) →
  includes c s = false → includes c (pretty_N_go x s) = false.
Proof.
  intros Hc. revert s. induction (N.lt_wf_0 x) as [x _ IH]; intros s Hs.
  assert (x = 0 ∨ 0 < x)%N as [->|Hx] by lia.
  - by rewrite pretty_N_go_0.
  - rewrite pretty_N_go_step by done. apply IH.
    + by apply N.div_lt.
    + cbn [includes]. by rewrite decide_False by apply Hc.
Qed.

Lemma String_of_includes (c : ascii) (n : Z) :
  (∀ d, pretty_N_char d ≠ c) → c ≠ "-"%char →
  includes c (String_of n) = false.
Proof.
  intros Hc Hdash. unfold String_of, pretty, pretty_Z.
  assert (∀ x : positive, includes c (pretty x) = false) as Hpos.
  { intros x. unfold pretty, pretty_positive, pretty, pretty_N.
    rewrite decide_False by done. by apply pretty_N_go_includes. }
  destruct n as [|x|x].
  - cbn [includes]. rewrite decide_False; [done|]. apply (Hc 0%N).
  - apply Hpos.
  - change ("-" +:+ pretty x) with (String "-" (pretty x)).
    cbn [includes]. rewrite decide_False by done. apply Hpos.
Qed.

Lemma String_of_plain (n : Z) :
  includes comma (String_of n) = false
  ∧ includes dquote (String_of n) = false
  ∧ includes newline (String_of n) = false.
Proof.
  split_and!; (apply String_of_includes; [|done]);
    intros d; unfold pretty_N_char; by repeat case_match.
Qed.

(** The rows exported are those of the identifiers of the display order
    that have a row, in the display order. *)
Lemma exported_rows_order
    (repoSummaryData : list RepoSummary) (repoOrder : list string) :
  identifier
    <$> omap (λ id, snd <$> list_find (λ d, identifier d = id)
                              repoSummaryData) repoOrder
  = filter (λ id, id ∈ identifier <$> repoSummaryData) repoOrder.
Proof.
  induction repoOrder as [|id repoOrder IH]; [done|].
  rewrite filter_cons. cbn [omap list_omap].
  destruct (list_find _ repoSummaryData) as [[i d]|] eqn:Hfind; simpl.
  - apply list_find_Some in Hfind as (Hd & Hid & _).
    rewrite decide_True.
    + by rewrite <-IH, Hid.
    + rewrite <-Hid. apply list_elem_of_fmap_2.
      by eapply list_elem_of_lookup_2.
  - apply list_find_None in Hfind. rewrite decide_False; [exact IH|].
    rewrite list_elem_of_fmap. intros (d & -> & Hd).
    rewrite Forall_forall in Hfind. by apply (Hfind d Hd).
Qed.

(** C8, as the code has it.  In every state: without a summary row the
    export produces nothing; with a summary row it is the header row
    followed by one row for each identifier of the display order that has
    a summary row, in that order, the lines joined by newlines.  A row is
    its six fields joined by commas.  The repository and the latest
    version are escaped: left as they are without comma, double quote and
    newline, and else put between double quotes with every double quote
    inside written twice, so that they read back.  The stars, the size and
    the total downloads are numbers, whose decimal form has none of the
    three characters, and are written as they are; the last update is
    written as the server sent it. *)
Theorem csv_export_format (s : State) :
  (_repoSummaryData s = [] → _handleExportCsv s = None)
  ∧ (_repoSummaryData s ≠ [] →
     ∃ rows,
       _handleExportCsv s
       = Some (join newline
                 ("Repository,Stars,Latest Version,Last Update,Size (KB),Total Downloads"
                    :: (csvRow <$> rows)))
       ∧ Forall (λ row, row ∈ _repoSummaryData s) rows
       ∧ identifier <$> rows
         = filter (λ id, id ∈ identifier <$> _repoSummaryData s)
             (_repoOrder s))
  ∧ (∀ repo,
       csvRow repo
       = join comma
           [escapeCsv (identifier repo); String_of (stars repo);
            escapeCsv (latestVersion repo); lastUpdate repo;
            String_of (size repo); String_of (totalDownloads repo)])
  ∧ (∀ field,
       includes comma field = false → includes dquote field = false →
       includes newline field = false → escapeCsv field = field)
  ∧ (∀ field,
       includes comma field = true ∨ includes dquote field = true
       ∨ includes newline field = true →
       escapeCsv field
       = String dquote (Spec.doubled field +:+ String dquote EmptyString)
       ∧ Spec.unquote (Spec.doubled field) = field)
  ∧ (∀ n : Z,
       includes comma (String_of n) = false
       ∧ includes dquote (String_of n) = false
       ∧ includes newline (String_of n) = false)
  ∧ escapeCsv "a,b" = String dquote ("a,b" +:+ String dquote EmptyString)
  ∧ escapeCsv (String "a" (String dquote "b"))
    = String dquote
        (String "a" (String dquote (String dquote "b"))
           +:+ String dquote EmptyString).
Proof.
  split_and!; try done.
  - intros Hrows. unfold _handleExportCsv. by rewrite Hrows.
  - intros Hrows.
    exists (omap (λ id, snd <$> list_find (λ d, identifier d = id)
                                  (_repoSummaryData s)) (_repoOrder s)).
    split_and!.
    + unfold _handleExportCsv. rewrite decide_False; [done|].
      by destruct (_repoSummaryData s).
    + rewrite Forall_forall. intros row Hrow.
      apply list_elem_of_omap in Hrow as (id & _ & Hfind).
      destruct (list_find _ _) as [[i d]|] eqn:Hd; simplify_eq/=.
      apply list_find_Some in Hd as (Hd & _).
      by eapply list_elem_of_lookup_2.
    + apply exported_rows_order.
  - apply escapeCsv_plain.
  - intros field Hspecial. rewrite <-doubleQuotes_doubled.
    split; [|apply unquote_doubleQuotes].
    apply escapeCsv_quoted.
    destruct Hspecial as [-> | [-> | ->]]; by rewrite ?orb_true_r.
  - apply String_of_plain.
Qed.

Lemma csv_export_format_witness :
  ∃ rows,
    _handleExportCsv Examples.twoRepos
    = Some (join newline
              ("Repository,Stars,Latest Version,Last Update,Size (KB),Total Downloads"
                 :: (csvRow <$> rows)))
    ∧ identifier <$> rows
      = filter (λ id, id ∈ identifier <$> _repoSummaryData Examples.twoRepos)
          (_repoOrder Examples.twoRepos).
Proof.
  assert (_repoSummaryData Examples.twoRepos ≠ []) as Hrows
    by (vm_compute; discriminate).
  destruct (csv_export_format Examples.twoRepos) as (_ & Hexport & _).
  destruct (Hexport Hrows) as (rows & Hcsv & _ & Horder).
  exists rows. split; [exact Hcsv|exact Horder].
Defined.

(** Against C8 as stated.  Before any repository is added there is no
    summary row and the display order is empty: the export produces
    nothing, not the header row. *)
Lemma csv_export_without_rows_is_nothing :
  _repoOrder Examples.fresh = []
  ∧ _repoSummaryData Examples.fresh = []
  ∧ _handleExportCsv Examples.fresh = None.
Proof. by vm_compute. Qed.

(** ** Identifiers and their parsing *)

Lemma split_no_sep sep s : includes sep s = false → split sep s = [s].
Proof.
  induction s as [|c s IH]; [done|]. cbn [includes split].
  destruct (decide (c = sep)); [done|]. intros Hs. by rewrite IH.
Qed.

Lemma split_app sep u v :
  includes sep u = false →
  split sep (u +:+ String sep v) = u :: split sep v.
Proof.
  induction u as [|c u IH]; cbn [includes].
  - intros _. simpl. by rewrite decide_True.
  - destruct (decide (c = sep)); [done|]. intros Hu.
    simpl. rewrite decide_False by done. by rewrite IH.
Qed.

Lemma parseRepo_identifier r :
  valid_repo r → parseRepo (repoIdentifier r) = Some r.
Proof.
  destruct r as [u v]. intros [[Hu Hu'] [Hv Hv']]. simpl in *.
  unfold parseRepo, repoIdentifier. cbn [username repository].
  change (String slash EmptyString +:+ v) with (String slash v).
  rewrite split_app, split_no_sep by done.
  by rewrite decide_True.
Qed.

Lemma repoIdentifier_inj r1 r2 :
  valid_repo r1 → valid_repo r2 →
  repoIdentifier r1 = repoIdentifier r2 → r1 = r2.
Proof.
  intros H1 H2 Heq. apply parseRepo_identifier in H1, H2.
  rewrite Heq in H1. congruence.
Qed.

Lemma parseRepo_identifiers repos :
  Forall valid_repo repos →
  omap parseRepo (repoIdentifier <$> repos) = repos.
Proof.
  induction 1 as [|r repos Hr _ IH]; [done|].
  rewrite fmap_cons. cbn [omap list_omap].
  by rewrite parseRepo_identifier, IH.
Qed.

(** ** What the handlers do to the repo set, the order and the rows *)

Lemma fetchSettle_fields t octokit s :
  let s' := fetchSettle t (fetchPair octokit <$> _repos s) s in
  _repos s' = _repos s
  ∧ _savedSets s' = _savedSets s
  ∧ match Promise_all (fetchPair octokit <$> _repos s) with
    | Some results =>
        _repoOrder s' = repoIdentifier <$> _repos s
        ∧ identifier <$> _repoSummaryData s' = repoIdentifier <$> _repos s
    | None =>
        _repoOrder s' = _repoOrder s
        ∧ _repoSummaryData s' = _repoSummaryData s
    end.
Proof.
  intros s'. subst s'. unfold fetchSettle.
  destruct (Promise_all _) as [results|] eqn:Hall; [|by destruct s].
  apply Promise_all_Some, Forall2_length in Hall.
  destruct (commitResults_closed t (_repos s) results (_repos s) 0%nat
              {| newReleasesData := ∅; newDownloadsData := ∅;
                 newSummaryData := [] |} eq_refl Hall) as (Hsum & _).
  split_and!; try by destruct s.
  transitivity (identifier
                  <$> zip_with (Spec.summaryRow t) (_repos s) results).
  { cbn [newSummaryData app] in Hsum. rewrite <-Hsum. by destruct s. }
  clear Hsum. revert results Hall.
  induction (_repos s) as [|r repos IH]; intros [|res results] Hlen;
    try done.
  simpl in *. f_equal. apply IH. lia.
Qed.

(** A batch fetch started in a state [s1] and settled in a state [s2] with
    the same repo set. *)
Lemma fetch_fields t octokit s1 s2 :
  _repos s2 = _repos s1 →
  let s' := fetchSettle t (fetchBegin octokit s1).2 s2 in
  _repos s' = _repos s1
  ∧ _savedSets s' = _savedSets s2
  ∧ match Promise_all (fetchPair octokit <$> _repos s1) with
    | Some results =>
        _repoOrder s' = repoIdentifier <$> _repos s1
        ∧ identifier <$> _repoSummaryData s' = repoIdentifier <$> _repos s1
    | None =>
        _repoOrder s' = _repoOrder s2
        ∧ _repoSummaryData s' = _repoSummaryData s2
    end.
Proof.
  intros Hrepos. unfold fetchBegin. cbn [snd].
  replace (_repos (s1 <| _loading := true |> <| _error := EmptyString |>))
    with (_repos s2) by (by destruct s1).
  rewrite <-Hrepos. apply fetchSettle_fields.
Qed.

Lemma formSubmit_fields t octokit s :
  let newRepo :=
    {| username := _newUsername s; repository := _newRepository s |} in
  let s' := _handleFormSubmit t octokit s in
  _savedSets s' = _savedSets s
  ∧ if decide (_newUsername s = EmptyString
               ∨ _newRepository s = EmptyString ∨ newRepo ∈ _repos s)
    then _repos s' = _repos s ∧ _repoOrder s' = _repoOrder s
         ∧ _repoSummaryData s' = _repoSummaryData s
    else _repos s' = _repos s ++ [newRepo]
         ∧ match Promise_all
                   (fetchPair octokit <$> _repos s ++ [newRepo]) with
           | Some results =>
               _repoOrder s' = repoIdentifier <$> _repos s ++ [newRepo]
               ∧ identifier <$> _repoSummaryData s'
                 = repoIdentifier <$> _repos s ++ [newRepo]
           | None =>
               _repoOrder s' = _repoOrder s
               ∧ _repoSummaryData s' = _repoSummaryData s
           end.
Proof.
  intros newRepo s'. subst s'. unfold _handleFormSubmit. fold newRepo.
  destruct (decide (_newUsername s = EmptyString
                    ∨ _newRepository s = EmptyString)) as [Hempty|Hfull].
  { rewrite decide_True by tauto. done. }
  destruct (decide (newRepo ∈ _repos s)) as [Hin|Hnotin].
  { rewrite decide_True by tauto. by destruct s. }
  rewrite decide_False by tauto.
  set (s1 := s <| _repos := _repos s ++ [newRepo] |>).
  name_fetchBegin octokit s1.
  match goal with
  | |- context [fetchSettle _ _ ?s3] =>
      destruct (fetch_fields t octokit s1 s3) as (Hrepos & Hsets & Hrest)
  end.
  { through_updateURL; by destruct s. }
  rewrite Hrepos, Hsets.
  replace (_repos s1) with (_repos s ++ [newRepo]) in * by (by destruct s).
  split.
  { through_updateURL; by destruct s. }
  split; [done|].
  destruct (Promise_all _); [done|].
  destruct Hrest as [-> ->].
  through_updateURL; by destruct s.
Qed.

Lemma loadSet_fields t octokit setName s :
  let s' := _handleLoadSet t octokit setName s in
  _savedSets s' = _savedSets s
  ∧ match _savedSets s !! setName with
    | None =>
        _repos s' = _repos s ∧ _repoOrder s' = _repoOrder s
        ∧ _repoSummaryData s' = _repoSummaryData s
    | Some repoIdentifiers =>
        _repos s' = omap parseRepo repoIdentifiers
        ∧ match Promise_all
                  (fetchPair octokit <$> omap parseRepo repoIdentifiers) with
          | Some results =>
              _repoOrder s'
              = repoIdentifier <$> omap parseRepo repoIdentifiers
              ∧ identifier <$> _repoSummaryData s'
                = repoIdentifier <$> omap parseRepo repoIdentifiers
          | None =>
              _repoOrder s' = _repoOrder s
              ∧ _repoSummaryData s' = _repoSummaryData s
          end
    end.
Proof.
  intros s'. subst s'. unfold _handleLoadSet.
  destruct (_savedSets s !! setName) as [repoIdentifiers|]; [|done].
  set (s1 := s <| _repos := omap parseRepo repoIdentifiers |>).
  name_fetchBegin octokit s1.
  match goal with
  | |- context [fetchSettle _ _ ?s3] =>
      destruct (fetch_fields t octokit s1 s3) as (Hrepos & Hsets & Hrest)
  end.
  { through_updateURL; by destruct s. }
  rewrite Hrepos, Hsets.
  replace (_repos s1) with (omap parseRepo repoIdentifiers) in *
    by (by destruct s).
  split.
  { through_updateURL; by destruct s. }
  split; [done|].
  destruct (Promise_all _); [done|].
  destruct Hrest as [-> ->].
  through_updateURL; by destruct s.
Qed.

Lemma updateAuthToken_fields t octokit token s :
  let s' := _updateAuthToken t octokit token s in
  _savedSets s' = _savedSets s
  ∧ _repos s' = _repos s
  ∧ if decide (0 < length (_repos s))%nat
    then match Promise_all (fetchPair octokit <$> _repos s) with
         | Some results =>
             _repoOrder s' = repoIdentifier <$> _repos s
             ∧ identifier <$> _repoSummaryData s'
               = repoIdentifier <$> _repos s
         | None =>
             _repoOrder s' = _repoOrder s
             ∧ _repoSummaryData s' = _repoSummaryData s
         end
    else _repoOrder s' = _repoOrder s
         ∧ _repoSummaryData s' = _repoSummaryData s.
Proof.
  intros s'. subst s'. unfold _updateAuthToken.
  set (s1 := s <| _githubToken := token |>).
  replace (_repos s1) with (_repos s) by (by destruct s).
  case_decide; [|by destruct s].
  unfold _fetchDataForRepos.
  name_fetchBegin octokit s1.
  destruct (fetch_fields t octokit s1 (fetchBegin octokit s1).1)
    as (Hrepos & Hsets & Hrest); [by destruct s|].
  rewrite Hrepos, Hsets.
  replace (_repos s1) with (_repos s) in * by (by destruct s).
  split; [by destruct s|]. split; [done|].
  destruct (Promise_all _); [done|].
  destruct Hrest as [-> ->]. by destruct s.
Qed.

Lemma requestSort_fields t octokit newSortKey s :
  let s' := (_handleRequestSort t octokit newSortKey s).1 in
  _savedSets s' = _savedSets s
  ∧ _repos s' = _repos s
  ∧ _repoSummaryData s' = _repoSummaryData s
  ∧ (_repoOrder s' = _repoOrder s
     ∨ _repoOrder s' ≡ₚ identifier <$> _repoSummaryData s).
Proof.
  intros s'. subst s'. unfold _handleRequestSort.
  case_decide; [by split_and!; [destruct s..|left; destruct s]|].
  case_decide; [by split_and!; [destruct s..|left; destruct s]|].
  match goal with
  | |- context [_updateURL ?s1] =>
      set (sorted := _updateURL s1);
      assert (_savedSets sorted = _savedSets s
              ∧ _repos sorted = _repos s
              ∧ _repoSummaryData sorted = _repoSummaryData s
              ∧ _repoOrder sorted ≡ₚ identifier <$> _repoSummaryData s)
        as (Hsets & Hrepos & Hrows & Horder)
  end.
  { subst sorted.
    match goal with
    | |- context [_updateURL ?s1] =>
        destruct (updateURL_fields s1) as (-> & -> & -> & _ & _ & _ & _ & -> & _)
    end.
    split_and!; [by destruct s..|].
    replace (_repoOrder _) with
      (identifier
         <$> js_sort
               (sortCompare newSortKey
                  (if decide (_sortKey (s <| _authError := EmptyString |>)
                              = newSortKey)
                   then match _sortDirection
                                (s <| _authError := EmptyString |>) with
                        | asc => desc
                        | desc => asc
                        end
                   else if decide (newSortKey = SortKey.latestVersion
                                   ∨ newSortKey = SortKey.lastUpdate)
                        then asc else desc))
               (_repoSummaryData s)) by (by destruct s).
    by rewrite js_sort_perm. }
  case_decide.
  { destruct (loadStargazers_fields t octokit sorted)
      as (_ & _ & _ & _ & -> & -> & ->).
    unfold loadStargazers. case_decide; cbn [fst];
      (split; [|by eauto]);
      repeat match goal with |- context [Promise_all ?p] =>
               destruct (Promise_all p) end; by destruct sorted. }
  case_decide.
  { destruct (loadIssues_fields t octokit sorted)
      as (_ & _ & _ & _ & -> & -> & ->).
    unfold loadIssues. case_decide; cbn [fst];
      (split; [|by eauto]);
      repeat match goal with |- context [Promise_all ?p] =>
               destruct (Promise_all p) end; by destruct sorted. }
  cbn [fst]. eauto.
Qed.

Lemma setNewOrder_fields newOrder s :
  _savedSets (_setNewOrder newOrder s) = _savedSets s
  ∧ _repos (_setNewOrder newOrder s) = _repos s
  ∧ _repoSummaryData (_setNewOrder newOrder s) = _repoSummaryData s
  ∧ _repoOrder (_setNewOrder newOrder s) = newOrder
  ∧ _sortKey (_setNewOrder newOrder s) = SortKey.manual.
Proof. unfold _setNewOrder, _updateURL. case_decide; by destruct s. Qed.

Lemma clearAction_fields s :
  _savedSets (clearAction s) = _savedSets s
  ∧ _repos (clearAction s) = []
  ∧ _repoSummaryData (clearAction s) = []
  ∧ _repoOrder (clearAction s) = [].
Proof. unfold clearAction, _updateURL. case_decide; by destruct s. Qed.

Lemma fmap_filter {A B} (f : A → B) (P : B → Prop)
    `{∀ y, Decision (P y)} (l : list A) :
  f <$> filter (λ x, P (f x)) l = filter P (f <$> l).
Proof.
  induction l as [|x l IH]; [done|].
  rewrite fmap_cons, !filter_cons. case_decide; [|done].
  by rewrite fmap_cons, IH.
Qed.

Lemma filter_all {A} (P : A → Prop) `{∀ x, Decision (P x)} (l : list A) :
  Forall P l → filter P l = l.
Proof.
  induction 1 as [|x l Hx _ IH]; [done|].
  by rewrite filter_cons, decide_True, IH.
Qed.

(** ** Invariants of the engine *)

Lemma sets_wf_insert sets setName repos :
  sets_wf sets → Forall valid_repo repos →
  NoDup (repoIdentifier <$> repos) →
  sets_wf (<[setName := repoIdentifier <$> repos]> sets).
Proof.
  intros Hsets Hvalid Hnodup name ids Hlook.
  apply lookup_insert_Some in Hlook as [[_ <-]|[_ Hlook]]; [|by eapply Hsets].
  split; [done|]. by exists repos.
Qed.

Lemma sets_wf_delete sets setName : sets_wf sets → sets_wf (delete setName sets).
Proof.
  intros Hsets name ids Hlook.
  apply lookup_delete_Some in Hlook as [_ Hlook]. by eapply Hsets.
Qed.

(** The intents keep the repositories properly named and distinct and the
    saved sets well formed, whatever the requests come to. *)
Lemma run_base_inv t s i :
  intent_wf s i → base_inv s → base_inv (run t s i).
Proof.
  intros Hwf (Hvalid & Hnodup & Hsets). unfold base_inv.
  by_intent i.
  - (* add-repo *)
    set (s0 := s <| _newUsername := u |> <| _newRepository := v |>).
    pose proof (formSubmit_fields t octokit s0) as Hfields.
    cbv zeta in Hfields.
    replace (_newUsername s0) with u in Hfields by (by destruct s).
    replace (_newRepository s0) with v in Hfields by (by destruct s).
    replace (_repos s0) with (_repos s) in Hfields by (by destruct s).
    replace (_savedSets s0) with (_savedSets s) in Hfields by (by destruct s).
    destruct Hfields as [-> Hfields].
    case_decide as Hcase; [by destruct Hfields as (-> & _)|].
    destruct Hfields as [-> _]. destruct Hwf as [Hu Hv].
    set (newRepo := {| username := u; repository := v |}) in *.
    assert (valid_repo newRepo) as Hnew.
    { split; (split; [|done]); simpl; tauto. }
    split_and!; [|..|done].
    + apply Forall_app. by split; [|constructor].
    + rewrite fmap_app. apply NoDup_app. split_and!; [done| |].
      * intros id Hid Hid'. apply list_elem_of_fmap in Hid as (r & -> & Hr).
        apply list_elem_of_singleton in Hid'.
        apply repoIdentifier_inj in Hid'; [|by eapply Forall_forall|done].
        subst r. tauto.
      * apply NoDup_singleton.
  - (* remove-repo *)
    destruct (removeRepo_fields r s) as (-> & _ & _ & _ & _ & _ & _ & ->).
    split_and!; [|..|done].
    + rewrite Forall_forall in Hvalid |- *. intros r' Hr'.
      apply list_elem_of_filter in Hr' as [_ Hr']. by apply Hvalid.
    + pose proof (fmap_filter repoIdentifier (λ id, id ≠ repoIdentifier r)
                    (_repos s)) as Hfilter.
      cbv beta in Hfilter. rewrite Hfilter. by apply NoDup_filter.
  - (* request-sort *)
    by destruct (requestSort_fields t octokit key s) as (-> & -> & _).
  - (* set-manual-order *)
    by destruct (setNewOrder_fields newOrder s) as (-> & -> & _).
  - (* clear-all *)
    destruct (clearAction_fields s) as (-> & -> & _).
    split_and!; [constructor|constructor|done].
  - (* save-set *)
    unfold _handleSaveSetConfirm. case_decide; [done|].
    replace (_repos _) with (_repos s) by (by destruct s).
    replace (_savedSets _)
      with (<[name := repoIdentifier <$> _repos s]> (_savedSets s))
      by (by destruct s).
    split_and!; [done..|]. by apply sets_wf_insert.
  - (* load-set *)
    pose proof (loadSet_fields t octokit name s) as Hfields.
    cbv zeta in Hfields. destruct Hfields as [-> Hfields].
    destruct (_savedSets s !! name) as [ids|] eqn:Hlook;
      [|by destruct Hfields as (-> & _)].
    destruct Hfields as [-> _].
    destruct (Hsets name ids Hlook) as (Hids & repos & Hrepos & ->).
    rewrite parseRepo_identifiers by done. done.
  - (* delete-set *)
    unfold deleteAction.
    replace (_repos _) with (_repos s) by (by destruct s).
    replace (_savedSets _) with (delete name (_savedSets s))
      by (by destruct s).
    split_and!; [done..|]. by apply sets_wf_delete.
  - (* update-set *)
    unfold _handleUpdateSet.
    replace (_repos _) with (_repos s) by (by destruct s).
    replace (_savedSets _)
      with (<[name := repoIdentifier <$> _repos s]> (_savedSets s))
      by (by destruct s).
    split_and!; [done..|]. by apply sets_wf_insert.
  - (* set-credential *)
    pose proof (updateAuthToken_fields t octokit token s) as Hfields.
    cbv zeta in Hfields. by destruct Hfields as (-> & -> & _).
Qed.

(** While the batch fetches succeed, the intents keep the display order and
    the summary rows on the identifiers of the repo set. *)
Lemma run_synced t s i :
  intent_wf s i → batch_succeeds s i → synced s → synced (run t s i).
Proof.
  intros Hwf Hbatch [Horder Hrows]. unfold synced, batch_succeeds in *.
  by_intent i.
  - (* add-repo *)
    set (s0 := s <| _newUsername := u |> <| _newRepository := v |>).
    pose proof (formSubmit_fields t octokit s0) as Hfields.
    cbv zeta in Hfields.
    replace (_newUsername s0) with u in Hfields by (by destruct s).
    replace (_newRepository s0) with v in Hfields by (by destruct s).
    replace (_repos s0) with (_repos s) in Hfields by (by destruct s).
    replace (_repoOrder s0) with (_repoOrder s) in Hfields
      by (by destruct s).
    replace (_repoSummaryData s0) with (_repoSummaryData s) in Hfields
      by (by destruct s).
    destruct Hfields as [_ Hfields].
    case_decide as Hcase; [by destruct Hfields as (-> & -> & ->)|].
    rewrite decide_False in Hbatch by tauto.
    rewrite decide_False in Hbatch by tauto.
    destruct Hfields as [-> Hfields].
    destruct Hbatch as [results Hbatch]. rewrite Hbatch in Hfields.
    by destruct Hfields as [-> ->].
  - (* remove-repo *)
    destruct (removeRepo_fields r s) as (-> & -> & -> & _).
    pose proof (fmap_filter repoIdentifier (λ id, id ≠ repoIdentifier r)
                  (_repos s)) as Hfilter.
    pose proof (fmap_filter identifier (λ id, id ≠ repoIdentifier r)
                  (_repoSummaryData s)) as Hfilter'.
    cbv beta in Hfilter, Hfilter'. rewrite Hfilter, Hfilter'.
    by rewrite Horder, Hrows.
  - (* request-sort *)
    destruct (requestSort_fields t octokit key s)
      as (_ & -> & -> & [-> | ->]); [done|]. by rewrite Hrows.
  - (* set-manual-order *)
    destruct (setNewOrder_fields newOrder s) as (_ & -> & -> & -> & _).
    split; [|done]. rewrite Hwf, <-Horder. unfold pills.
    rewrite filter_all; [done|].
    rewrite Forall_forall. intros id Hid. by rewrite <-Horder.
  - (* clear-all *)
    by destruct (clearAction_fields s) as (_ & -> & -> & ->).
  - (* save-set *)
    unfold _handleSaveSetConfirm. case_decide; [done|]. by destruct s.
  - (* load-set *)
    pose proof (loadSet_fields t octokit name s) as Hfields.
    cbv zeta in Hfields. destruct Hfields as [_ Hfields].
    destruct (_savedSets s !! name) as [ids|];
      [|by destruct Hfields as (-> & -> & ->)].
    destruct Hfields as [-> Hfields].
    destruct Hbatch as [results Hbatch]. rewrite Hbatch in Hfields.
    by destruct Hfields as [-> ->].
  - (* delete-set *)
    unfold deleteAction. by destruct s.
  - (* update-set *)
    unfold _handleUpdateSet. by destruct s.
  - (* set-credential *)
    pose proof (updateAuthToken_fields t octokit token s) as Hfields.
    cbv zeta in Hfields. destruct Hfields as (_ & -> & Hfields).
    case_decide; [|by destruct Hfields as [-> ->]].
    destruct Hbatch as [results Hbatch]. rewrite Hbatch in Hfields.
    by destruct Hfields as [-> ->].
Qed.

Lemma reaches_base_inv t ok s0 s :
  (∀ s i, ok s i → intent_wf s i) →
  base_inv s0 → reaches t ok s0 s → base_inv s.
Proof.
  intros Hok Hinit. induction 1 as [|s i _ IH Hi]; [done|].
  apply run_base_inv; auto.
Qed.

Lemma initial_base_inv token sets :
  sets_wf sets → base_inv (initial token sets).
Proof. intros Hsets. split_and!; [constructor|constructor|done]. Qed.

(** An intent whose batch fetch succeeds puts the display order and the
    summary rows on the identifiers of the repo set, whatever they were. *)
Lemma run_batch_synced t s i :
  is_Some (batchOf s i) → batch_succeeds s i → synced (run t s i).
Proof.
  unfold synced, batch_succeeds.
  by_intent i; try (by intros [? ?]).
  - (* add-repo *)
    set (s0 := s <| _newUsername := u |> <| _newRepository := v |>).
    pose proof (formSubmit_fields t octokit s0) as Hfields.
    cbv zeta in Hfields.
    replace (_newUsername s0) with u in Hfields by (by destruct s).
    replace (_newRepository s0) with v in Hfields by (by destruct s).
    replace (_repos s0) with (_repos s) in Hfields by (by destruct s).
    destruct Hfields as [_ Hfields].
    destruct (decide (u = EmptyString ∨ v = EmptyString)) as [Hempty|Hfull];
      [by intros [? ?]|].
    destruct (decide (_ ∈ _repos s)) as [Hin|Hnotin]; [by intros [? ?]|].
    rewrite decide_False in Hfields by tauto.
    intros _ [results Hbatch]. destruct Hfields as [-> Hfields].
    rewrite Hbatch in Hfields. by destruct Hfields as [-> ->].
  - (* load-set *)
    pose proof (loadSet_fields t octokit name s) as Hfields.
    cbv zeta in Hfields. destruct Hfields as [_ Hfields].
    destruct (_savedSets s !! name) as [ids|]; [|by intros [? ?]].
    intros _ [results Hbatch]. destruct Hfields as [-> Hfields].
    rewrite Hbatch in Hfields. by destruct Hfields as [-> ->].
  - (* set-credential *)
    pose proof (updateAuthToken_fields t octokit token s) as Hfields.
    cbv zeta in Hfields. destruct Hfields as (_ & -> & Hfields).
    case_decide; [|by intros [? ?]].
    intros _ [results Hbatch]. rewrite Hbatch in Hfields.
    by destruct Hfields as [-> ->].
Qed.

(** ** Handlers and the settling of their fetches, apart *)

(** A handler whose fetches settle before anything else happens: the
    state after the intent is the state at the return of the handler with
    the fetches settled in turn. *)
Lemma run_start t s i :
  run t s i = foldl (λ s fetch, settle t fetch s) (start t s i).1
                (start t s i).2.
Proof.
  by_intent i; cbn [start fst snd foldl].
  - (* add-repo *)
    unfold _handleFormSubmit, startFormSubmit.
    repeat case_decide; reflexivity.
  - (* remove-repo *) reflexivity.
  - (* request-sort *)
    unfold _handleRequestSort, startRequestSort. cbv zeta.
    destruct (decide (_ ∧ _)); [reflexivity|].
    destruct (decide (key = SortKey.manual)); [reflexivity|].
    destruct (decide (key = SortKey.stars)).
    + unfold loadStargazers, startStargazers. cbv zeta.
      case_decide; reflexivity.
    + destruct (decide (key = SortKey.openIssues)); [|reflexivity].
      unfold loadIssues, startIssues. cbv zeta.
      case_decide; reflexivity.
  - (* set-manual-order *) reflexivity.
  - (* clear-all *) reflexivity.
  - (* save-set *) reflexivity.
  - (* load-set *)
    unfold _handleLoadSet, startLoadSet.
    by destruct (_savedSets s !! name).
  - (* delete-set *) reflexivity.
  - (* update-set *) reflexivity.
  - (* set-credential *)
    unfold _updateAuthToken, startAuthToken, _fetchDataForRepos. cbv zeta.
    case_decide; reflexivity.
Qed.

Lemma settle_fields t fetch s :
  _repos (settle t fetch s) = _repos s
  ∧ _savedSets (settle t fetch s) = _savedSets s
  ∧ (commits_nothing fetch →
     _repoOrder (settle t fetch s) = _repoOrder s
     ∧ _repoSummaryData (settle t fetch s) = _repoSummaryData s).
Proof.
  destruct fetch as [fetchPromises|reposToFetch promises
                    |reposToFetch promises];
    cbn [settle commits_nothing]; unfold fetchSettle;
    destruct (Promise_all _); split_and!; try done; by destruct s.
Qed.

Lemma settle_all_fields t fetches s :
  let s' := foldl (λ s fetch, settle t fetch s) s fetches in
  _repos s' = _repos s
  ∧ _savedSets s' = _savedSets s
  ∧ (Forall commits_nothing fetches →
     _repoOrder s' = _repoOrder s
     ∧ _repoSummaryData s' = _repoSummaryData s).
Proof.
  cbv zeta. revert s. induction fetches as [|fetch fetches IH]; intros s.
  { done. }
  cbn [foldl]. destruct (IH (settle t fetch s)) as (-> & -> & Hrest).
  destruct (settle_fields t fetch s) as (-> & -> & Hfetch).
  split_and!; [done..|]. intros [Hnothing Hall]%Forall_cons.
  destruct (Hrest Hall) as [-> ->]. by apply Hfetch.
Qed.

(** A handler that starts no batch fetch leaves supplemental fetches
    under way at most. *)
Lemma start_quiet t s i :
  batchOf s i = None → Forall commits_nothing (start t s i).2.
Proof.
  by_intent i; cbn [start]; try (intros; by constructor).
  - unfold startFormSubmit.
    replace (_newUsername _) with u by (by destruct s).
    replace (_newRepository _) with v by (by destruct s).
    replace (_repos (s <| _newUsername := u |> <| _newRepository := v |>))
      with (_repos s) by (by destruct s).
    repeat case_decide; try done; intros; by constructor.
  - intros _. unfold startRequestSort. cbv zeta.
    destruct (decide (_ ∧ _)); [by constructor|].
    destruct (decide (key = SortKey.manual)); [by constructor|].
    destruct (decide (key = SortKey.stars)).
    + unfold startStargazers. cbv zeta.
      case_decide; repeat constructor.
    + destruct (decide (key = SortKey.openIssues)); [|by constructor].
      unfold startIssues. cbv zeta.
      case_decide; repeat constructor.
  - unfold startLoadSet. destruct (_savedSets s !! name); [done|].
    intros; by constructor.
  - unfold startAuthToken. cbv zeta.
    replace (_repos (s <| _githubToken := token |>)) with (_repos s)
      by (by destruct s).
    case_decide; [done|]. intros; by constructor.
Qed.

(** At its return a handler has done to the repo set and to the saved
    sets all that it does; one that starts no batch fetch has then also
    done all that it does to the display order and to the summary rows. *)
Lemma start_fields t s i :
  _repos (start t s i).1 = _repos (run t s i)
  ∧ _savedSets (start t s i).1 = _savedSets (run t s i)
  ∧ (batchOf s i = None →
     _repoOrder (start t s i).1 = _repoOrder (run t s i)
     ∧ _repoSummaryData (start t s i).1 = _repoSummaryData (run t s i)).
Proof.
  rewrite (run_start t s i).
  pose proof (settle_all_fields t (start t s i).2 (start t s i).1) as H.
  cbv zeta in H. destruct H as (-> & -> & Hrest).
  split_and!; [done..|]. intros Hquiet.
  destruct (Hrest (start_quiet t s i Hquiet)) as [-> ->]. done.
Qed.

Lemma arrives_base_inv t s0 s fetches :
  base_inv s0 → arrives t s0 s fetches → base_inv s.
Proof.
  intros Hinit.
  induction 1 as [|s fetches i _ IH Hwf|s fetches1 fetch fetches2 _ IH].
  - done.
  - pose proof (run_base_inv t s i Hwf IH) as Hrun. unfold base_inv in *.
    destruct (start_fields t s i) as (-> & -> & _). done.
  - unfold base_inv in *.
    destruct (settle_fields t fetch s) as (-> & -> & _). done.
Qed.

(** The fetches of a handler settle one after the other. *)
Lemma arrives_settle_all t s0 fetches s :
  arrives t s0 s fetches →
  arrives t s0 (foldl (λ s fetch, settle t fetch s) s fetches) [].
Proof.
  revert s. induction fetches as [|fetch fetches IH]; intros s Harrives.
  { done. }
  cbn [foldl]. apply IH.
  by apply (arrives_settle t s0 s [] fetch fetches).
Qed.

(** The states reached by handlers whose fetches settle before the next
    handler runs are among those that the engine arrives at. *)
Lemma reaches_arrives t s0 s :
  reaches t intent_wf s0 s → arrives t s0 s [].
Proof.
  induction 1 as [|s i _ IH Hwf]; [apply arrives_here|].
  rewrite run_start. apply arrives_settle_all.
  by apply (arrives_start t s0 s [] i).
Qed.

(** The rows that a batch commits: one for each result that has a
    repository at its index in the repo set of the moment. *)
Lemma commitResults_rows t repos results :
  ∀ index acc,
    identifier <$> newSummaryData (commitResults t repos index results acc)
    = (identifier <$> newSummaryData acc)
      ++ take (length results) (repoIdentifier <$> drop index repos).
Proof.
  induction results as [|result results IH]; intros index acc.
  { cbn [commitResults length take]. by rewrite take_0, app_nil_r. }
  cbn [commitResults length]. rewrite IH. unfold commitResult.
  destruct result as [releasesResponse repoDetails].
  destruct (repos !! index) as [repo|] eqn:Hrepo.
  - rewrite (drop_S _ _ _ Hrepo). cbn [newSummaryData].
    rewrite fmap_app, !fmap_cons, firstn_cons, <-(assoc_L (++)). done.
  - apply lookup_ge_None in Hrepo.
    rewrite !drop_ge by lia. rewrite !fmap_nil. by rewrite !take_nil.
Qed.

(** A batch fetch that succeeds, with results for as many repositories as
    the repo set holds when it settles, puts the display order and the
    summary rows on the identifiers of the repo set. *)
Lemma settle_batch_synced t fetchPromises s :
  is_Some (Promise_all fetchPromises) →
  (length (_repos s) ≤ length fetchPromises)%nat →
  synced (settle t (BatchFetch fetchPromises) s).
Proof.
  intros [results Hall] Hlen. cbn [settle]. unfold fetchSettle, synced.
  rewrite Hall.
  assert (length results = length fetchPromises) as Hresults.
  { apply mapM_Some in Hall. symmetry. by eapply Forall2_length. }
  match goal with
  | |- context [commitResults t ?repos 0 results ?acc] =>
      pose proof (commitResults_rows t repos results 0 acc) as Hrows
  end.
  cbn [newSummaryData fmap list_fmap app] in Hrows.
  rewrite drop_0, take_ge in Hrows by (rewrite length_fmap; lia).
  replace (_repoOrder _) with (repoIdentifier <$> _repos s)
    by (by destruct s).
  replace (_repos _) with (_repos s) by (by destruct s).
  split; [done|].
  replace (_repoSummaryData _)
    with (newSummaryData
            (commitResults t (_repos s) 0 results
               {| newReleasesData := ∅; newDownloadsData := ∅;
                  newSummaryData := [] |}))
    by (by destruct s).
  by rewrite Hrows.
Qed.

Lemma settled_arrives t s0 s fetches :
  settled t s0 s fetches → arrives t s0 s fetches.
Proof.
  induction 1 as [|s fetches1 fetchPromises fetches2 Harrives _ _
                  |s fetches i _ IH Hwf _
                  |s fetches token octokit _ IH
                  |s fetches1 fetch fetches2 _ IH _].
  - apply arrives_here.
  - by apply arrives_settle.
  - by apply arrives_start.
  - by apply arrives_start.
  - by apply arrives_settle.
Qed.

Lemma settled_synced t s0 s fetches :
  synced s0 → settled t s0 s fetches → synced s.
Proof.
  intros Hinit.
  induction 1 as [|s fetches1 fetchPromises fetches2 _ Hall Hlen
                  |s fetches i _ IH Hwf Hquiet
                  |s fetches token octokit _ IH
                  |s fetches1 fetch fetches2 _ IH Hnothing].
  - done.
  - by apply settle_batch_synced.
  - assert (synced (run t s i)) as Hrun.
    { apply run_synced; [done| |done].
      unfold batch_succeeds. by rewrite Hquiet. }
    unfold synced in *.
    destruct (start_fields t s i) as (-> & _ & Hrest).
    by destruct (Hrest Hquiet) as [-> ->].
  - unfold synced in *. cbn [start]. unfold startAuthToken. cbv zeta.
    case_decide; by destruct s.
  - unfold synced in *.
    destruct (settle_fields t fetch s) as (-> & _ & Hrest).
    by destruct (Hrest Hnothing) as [-> ->].
Qed.

(** C2, as the code has it, with the handlers and the settling of their
    fetches in any order.  The display order lists the identifiers of the
    repo set, the same identifiers and each once: at the start; when a
    batch fetch settles that succeeds and that had asked about as many
    repositories, at least, as the repo set holds at that moment; and from
    then on through the handlers that start no batch fetch, a change of
    the credential, and the settling of a supplemental fetch or of a batch
    fetch that fails. *)
Theorem display_order_lists_repo_set
    (t : string → string) (token : string)
    (sets : gmap string (list string)) (s : State) (fetches : list Fetch) :
  sets_wf sets →
  settled t (initial token sets) s fetches →
  _repoOrder s ≡ₚ repoIdentifier <$> _repos s
  ∧ NoDup (_repoOrder s)
  ∧ (∀ id, id ∈ _repoOrder s ↔ id ∈ repoIdentifier <$> _repos s).
Proof.
  intros Hsets Hsettled.
  assert (base_inv s) as (_ & Hnodup & _).
  { eapply arrives_base_inv; [by apply initial_base_inv|].
    by apply settled_arrives. }
  assert (synced s) as [Horder _].
  { eapply settled_synced; [|done]. by split. }
  split; [done|]. split; [by rewrite Horder|].
  intros id. by rewrite Horder.
Qed.

Lemma twoAdds_arrives :
  arrives Examples.t (initial EmptyString ∅) Scenarios.twoAdds.1
    ([BatchFetch Scenarios.firstPromises]
       ++ BatchFetch Scenarios.secondPromises :: []).
Proof.
  assert (arrives Examples.t (initial EmptyString ∅) Scenarios.oneRepo [])
    as Hone.
  { apply reaches_arrives.
    apply (reaches_step _ _ _ _
             (AddRepo "octocat" "Hello-World" Examples.okOctokit));
      [|by split].
    apply reaches_here. }
  pose proof (arrives_start _ _ _ _
                (AddRepo "rocq" "stdlib" Examples.okOctokit) Hone
                (conj eq_refl eq_refl)) as Hfirst.
  pose proof (arrives_start _ _ _ _
                (AddRepo "nobody" "nothing" Examples.okOctokit) Hfirst
                (conj eq_refl eq_refl)) as Hsecond.
  match type of Hsecond with
  | arrives _ _ ?s ?fetches =>
      assert (s = Scenarios.twoAdds.1) as Hstate
        by (vm_compute; reflexivity);
      assert (fetches
              = [BatchFetch Scenarios.firstPromises]
                  ++ BatchFetch Scenarios.secondPromises :: [])
        as Hfetches by (vm_compute; reflexivity)
  end.
  rewrite Hstate, Hfetches in Hsecond. exact Hsecond.
Qed.

Lemma display_order_lists_repo_set_witness :
  let s := Scenarios.secondSettled in
  _repoOrder s ≡ₚ repoIdentifier <$> _repos s
  ∧ NoDup (_repoOrder s)
  ∧ (∀ id, id ∈ _repoOrder s ↔ id ∈ repoIdentifier <$> _repos s).
Proof.
  apply (display_order_lists_repo_set Examples.t EmptyString ∅
           Scenarios.secondSettled
           ([BatchFetch Scenarios.firstPromises] ++ [])).
  - intros name ids Hlook. by rewrite lookup_empty in Hlook.
  - apply (settled_commit Examples.t (initial EmptyString ∅)
             Scenarios.twoAdds.1 [BatchFetch Scenarios.firstPromises]
             Scenarios.secondPromises []).
    + apply twoAdds_arrives.
    + vm_compute. eauto.
    + vm_compute. lia.
Defined.

(** An add overtaken by another, with no request that fails.  Two
    repositories are added one right after the other; the batch fetch of
    the second add settles first and the one of the first add after it.
    The rows are then those of the first add, which had asked about two
    repositories, and a sort leaves the display order without the
    repository added last. *)
Lemma overtaken_add_loses_a_repository :
  let s := Scenarios.overtaken in
  arrives Examples.t (initial EmptyString ∅) s []
  ∧ _error s = EmptyString
  ∧ repoIdentifier <$> _repos s
    = ["octocat/Hello-World"; "rocq/stdlib"; "nobody/nothing"]
  ∧ identifier <$> _repoSummaryData s
    = ["octocat/Hello-World"; "rocq/stdlib"]
  ∧ _repoOrder s ≡ₚ ["octocat/Hello-World"; "rocq/stdlib"].
Proof.
  intros s. split; [|by vm_compute].
  pose proof twoAdds_arrives as Hboth.
  apply arrives_settle in Hboth. cbn [app] in Hboth.
  apply (arrives_settle _ _ _ []) in Hboth. cbn [app] in Hboth.
  apply (arrives_start _ _ _ _
           (RequestSort SortKey.size Examples.okOctokit)) in Hboth;
    [|done].
  match type of Hboth with
  | arrives _ _ _ ?fetches =>
      assert (fetches = []) as Hnone by (vm_compute; reflexivity)
  end.
  rewrite Hnone in Hboth. exact Hboth.
Qed.

(** Against C2 as stated.  A repository is added and one of its two
    requests fails: the repo set has the repository and the display order
    does not. *)
Lemma failed_add_leaves_order_behind :
  let s := Examples.thirdFailed in
  reaches Examples.t intent_wf (initial EmptyString ∅) s
  ∧ repoIdentifier <$> _repos s
    = ["octocat/Hello-World"; "rocq/stdlib"; "nobody/nothing"]
  ∧ _repoOrder s = ["octocat/Hello-World"; "rocq/stdlib"]
  ∧ ¬ (∀ id, id ∈ _repoOrder s ↔ id ∈ repoIdentifier <$> _repos s).
Proof.
  intros s.
  assert (repoIdentifier <$> _repos s
          = ["octocat/Hello-World"; "rocq/stdlib"; "nobody/nothing"])
    as Hrepos by (by vm_compute).
  assert (_repoOrder s = ["octocat/Hello-World"; "rocq/stdlib"])
    as Horder by (by vm_compute).
  split_and!; [|done|done|].
  - apply (reaches_step _ _ _ _
             (AddRepo "nobody" "nothing" Examples.partialOctokit)); [|done].
    apply (reaches_step _ _ _ _
             (AddRepo "rocq" "stdlib" Examples.okOctokit)); [|done].
    apply (reaches_step _ _ _ _
             (AddRepo "octocat" "Hello-World" Examples.okOctokit)); [|done].
    apply reaches_here.
  - rewrite Hrepos, Horder. intros Hsame.
    assert ("nobody/nothing" ∈ ["octocat/Hello-World"; "rocq/stdlib"])
      as Hin by (apply Hsame; do 2 right; left).
    apply elem_of_cons in Hin as [?|Hin]; [done|].
    apply elem_of_cons in Hin as [?|Hin]; [done|].
    by apply elem_of_nil in Hin.
Qed.

(** ** Saved sets *)

(** C6, as the code has it.  For a set name that is not empty and
    repositories with proper names, saving the set, clearing everything
    and loading the set gives back the repo set of the moment of saving;
    the display order afterwards is that repo set too when the batch fetch
    of the load succeeds, and is empty when it fails. *)
Theorem saved_set_restores_repo_set
    (t : string → string) (octokit : Octokit) (setName : string)
    (s : State) :
  setName ≠ EmptyString →
  Forall valid_repo (_repos s) →
  let loaded :=
    _handleLoadSet t octokit setName
      (clearAction (_handleSaveSetConfirm setName s)) in
  _repos loaded = _repos s
  ∧ (is_Some (Promise_all (fetchPair octokit <$> _repos s)) →
     _repoOrder loaded = repoIdentifier <$> _repos s)
  ∧ (Promise_all (fetchPair octokit <$> _repos s) = None →
     _repoOrder loaded = []).
Proof.
  intros Hname Hvalid loaded. subst loaded.
  set (saved := _handleSaveSetConfirm setName s).
  assert (_savedSets saved !! setName = Some (repoIdentifier <$> _repos s))
    as Hsaved.
  { unfold saved, _handleSaveSetConfirm. rewrite decide_False by done.
    replace (_savedSets _)
      with (<[setName := repoIdentifier <$> _repos s]> (_savedSets s))
      by (by destruct s).
    apply lookup_insert_eq. }
  destruct (clearAction_fields saved) as (Hsets & _ & _ & Horder).
  pose proof (loadSet_fields t octokit setName (clearAction saved))
    as Hfields.
  cbv zeta in Hfields. rewrite Hsets, Hsaved in Hfields.
  rewrite parseRepo_identifiers in Hfields by done.
  destruct Hfields as (_ & -> & Hfields). split; [done|].
  destruct (Promise_all _) as [results|].
  - destruct Hfields as [-> _]. by split.
  - destruct Hfields as [-> _]. split; [by intros [? ?]|done].
Qed.

Lemma saved_set_restores_repo_set_witness :
  let s := Examples.reordered in
  let loaded :=
    _handleLoadSet Examples.t Examples.okOctokit "X"
      (clearAction (_handleSaveSetConfirm "X" s)) in
  _repos loaded = _repos s
  ∧ (is_Some (Promise_all (fetchPair Examples.okOctokit <$> _repos s)) →
     _repoOrder loaded = repoIdentifier <$> _repos s)
  ∧ (Promise_all (fetchPair Examples.okOctokit <$> _repos s) = None →
     _repoOrder loaded = []).
Proof.
  apply (saved_set_restores_repo_set Examples.t Examples.okOctokit "X"
           Examples.reordered).
  - done.
  - vm_compute. repeat constructor; done.
Defined.

(** Against C6 as stated.  The two repositories are shown in the order
    into which they were dragged; the set is saved, everything is cleared
    and the set is loaded: the display order is the order in which the
    repositories were added, not the order shown when the set was saved. *)
Lemma saved_set_forgets_display_order :
  let s := Examples.reordered in
  let loaded :=
    foldl (run Examples.t) s
      [SaveSet "X"; ClearAll; LoadSet "X" Examples.okOctokit] in
  _repoOrder s = ["rocq/stdlib"; "octocat/Hello-World"]
  ∧ _sortKey s = SortKey.manual
  ∧ _repoOrder loaded = ["octocat/Hello-World"; "rocq/stdlib"]
  ∧ _repoOrder loaded ≠ _repoOrder s.
Proof. by vm_compute. Qed.

(** * Further properties of the code *)

(** ** The order of strings *)

Lemma ascii_compare_refl c : Ascii.compare c c = Eq.
Proof. unfold Ascii.compare. apply N.compare_refl. Qed.

Lemma ascii_compare_eq c1 c2 : Ascii.compare c1 c2 = Eq → c1 = c2.
Proof.
  unfold Ascii.compare. intros H. apply N.compare_eq in H.
  rewrite <-(ascii_N_embedding c1), <-(ascii_N_embedding c2). by rewrite H.
Qed.

Lemma string_compare_cons c1 s1 c2 s2 :
  String.compare (String c1 s1) (String c2 s2)
  = match Ascii.compare c1 c2 with
    | Eq => String.compare s1 s2
    | other => other
    end.
Proof. done. Qed.

Lemma string_lt_trans s1 s2 s3 :
  String.compare s1 s2 = Lt → String.compare s2 s3 = Lt →
  String.compare s1 s3 = Lt.
Proof.
  revert s2 s3. induction s1 as [|c1 s1 IH]; intros [|c2 s2] [|c3 s3];
    try done.
  rewrite !string_compare_cons.
  destruct (Ascii.compare c1 c2) eqn:H12; [| |done].
  - apply ascii_compare_eq in H12 as ->.
    destruct (Ascii.compare c2 c3); [apply IH|done|done].
  - intros _. destruct (Ascii.compare c2 c3) eqn:H23; [| |done]; intros _.
    + apply ascii_compare_eq in H23 as <-. by rewrite H12.
    + unfold Ascii.compare in *.
      apply N.compare_lt_iff in H12. apply N.compare_lt_iff in H23.
      pose proof (N.lt_trans _ _ _ H12 H23) as H13.
      apply N.compare_lt_iff in H13. by rewrite H13.
Qed.

Lemma string_compare_refl s : String.compare s s = Eq.
Proof.
  induction s as [|c s IH]; [done|].
  by rewrite string_compare_cons, ascii_compare_refl.
Qed.

Lemma string_ltb_irrefl s : String.ltb s s = false.
Proof. unfold String.ltb. by rewrite string_compare_refl. Qed.

Lemma string_ltb_trans s1 s2 s3 :
  String.ltb s1 s2 = true → String.ltb s2 s3 = true →
  String.ltb s1 s3 = true.
Proof.
  unfold String.ltb. intros H12 H23.
  destruct (String.compare s1 s2) eqn:E12; try done.
  destruct (String.compare s2 s3) eqn:E23; try done.
  by rewrite (string_lt_trans _ _ _ E12 E23).
Qed.

Lemma string_ltb_trichotomy s1 s2 :
  String.ltb s1 s2 = false → String.ltb s2 s1 = false → s1 = s2.
Proof.
  unfold String.ltb. rewrite (String.compare_antisym s2 s1).
  destruct (String.compare s1 s2) eqn:E; simpl; try done.
  intros _ _. by apply String.compare_eq_iff.
Qed.

(** ** The order of the values of a sort key *)

Lemma value_lt_irrefl v : value_lt v v = false.
Proof.
  destruct v; simpl; [apply Z.ltb_irrefl|apply string_ltb_irrefl].
Qed.

Lemma value_lt_trans a b c :
  value_lt a b = true → value_lt b c = true → value_lt a c = true.
Proof.
  destruct a, b, c; simpl; try done.
  - rewrite !Z.ltb_lt. lia.
  - apply string_ltb_trans.
Qed.

(** The values of the rows under one key are of one kind, so two of them
    that are not below one another are equal. *)
Lemma value_lt_trichotomy key a b :
  value_lt (valueOf key a) (valueOf key b) = false →
  value_lt (valueOf key b) (valueOf key a) = false →
  valueOf key a = valueOf key b.
Proof.
  destruct key; simpl; rewrite ?Z.ltb_ge;
    try (intros; f_equal; lia);
    try (intros H1 H2; f_equal; by apply string_ltb_trichotomy).
Qed.

Lemma value_lt_asym a b : value_lt a b = true → value_lt b a = false.
Proof.
  intros Hab. destruct (value_lt b a) eqn:Hba; [|done].
  by rewrite <-(value_lt_irrefl a), (value_lt_trans a b a).
Qed.

(** The comparator of the sort reads the two values under the key. *)
Lemma compareBy_values key a b :
  compareBy key a b = comparison value_lt (valueOf key a) (valueOf key b).
Proof. destruct key; try done. Qed.

Lemma sortCompare_in_order key direction a b :
  sortCompare key direction a b ≤ 0 ↔ in_order key direction a b.
Proof.
  unfold sortCompare, in_order. rewrite compareBy_values.
  unfold comparison.
  destruct (value_lt (valueOf key b) (valueOf key a)) eqn:Hba,
           (value_lt (valueOf key a) (valueOf key b)) eqn:Hab,
           direction; try (split; (done || lia)).
  all: by rewrite (value_lt_asym _ _ Hba) in Hab.
Qed.

#[local] Instance in_order_trans key direction :
  Transitive (in_order key direction).
Proof.
  assert (∀ a b c : RepoSummary,
            value_lt (valueOf key b) (valueOf key a) = false →
            value_lt (valueOf key c) (valueOf key b) = false →
            value_lt (valueOf key c) (valueOf key a) = false) as Hle.
  { intros a b c Hab Hbc.
    destruct (value_lt (valueOf key c) (valueOf key a)) eqn:Hca; [|done].
    destruct (value_lt (valueOf key a) (valueOf key b)) eqn:Hab'.
    - by rewrite (value_lt_trans _ _ _ Hca Hab') in Hbc.
    - rewrite <-(value_lt_trichotomy key a b) in Hbc by done.
      by rewrite Hca in Hbc. }
  intros a b c. destruct direction; simpl; [apply Hle|].
  intros Hab Hbc. by apply (Hle c b a).
Qed.

#[local] Instance in_order_total key direction :
  Total (in_order key direction).
Proof.
  intros a b. unfold in_order.
  destruct (value_lt (valueOf key a) (valueOf key b)) eqn:Hab.
  - apply value_lt_asym in Hab. destruct direction; auto.
  - destruct direction; auto.
Qed.

(** ** More on the sort of arrays *)
Section js_sort_more.
Context {A V : Type} `{EqDecision V} (f : A → V) (compareFn : A → A → Z).

(** Elements that the comparator ties keep their order: the sort is
    stable. *)
Context (tie : ∀ a b, f a = f b → compareFn a b ≤ 0).

Lemma sort_insert_filter v x l :
  filter (λ y, f y = v) (sort_insert compareFn x l)
  = filter (λ y, f y = v) (x :: l).
Proof.
  induction l as [|y l IH]; [done|]. cbn [sort_insert].
  case_decide as Hxy; [done|].
  rewrite filter_cons, IH, !filter_cons.
  destruct (decide (f x = v)) as [Hx|Hx], (decide (f y = v)) as [Hy|Hy];
    try done.
  destruct Hxy. apply tie. congruence.
Qed.

Lemma js_sort_stable v l :
  filter (λ y, f y = v) (js_sort compareFn l) = filter (λ y, f y = v) l.
Proof.
  induction l as [|x l IH]; [done|]. cbn [js_sort foldr].
  fold (js_sort compareFn l). by rewrite sort_insert_filter, !filter_cons, IH.
Qed.

(** A sorted array is left as it is. *)
Lemma js_sort_sorted_id (R : relation A) l :
  (∀ a b, R a b → compareFn a b ≤ 0) →
  StronglySorted R l → js_sort compareFn l = l.
Proof.
  intros HR. induction 1 as [|x l Hl IH Hx]; [done|].
  cbn [js_sort foldr]. fold (js_sort compareFn l). rewrite IH.
  destruct l as [|y l]; [done|]. cbn [sort_insert].
  rewrite decide_True; [done|]. apply HR. by apply Forall_cons in Hx as [? _].
Qed.
End js_sort_more.

(** ** The sort of the table *)

Lemma updateURL_location s :
  location_repos (_updateURL s) = urlOf (_repoOrder s).
Proof.
  unfold _updateURL, urlOf. destruct s as [? ? ? ? ? ? ? ? order].
  cbn [_repoOrder]. destruct order; case_decide; simpl in *; (done || lia).
Qed.

Lemma loadStargazers_frame t octokit s :
  let s' := (loadStargazers t octokit s).1 in
  _sortKey s' = _sortKey s ∧ _sortDirection s' = _sortDirection s
  ∧ location_repos s' = location_repos s
  ∧ _repoOrder s' = _repoOrder s
  ∧ _repoSummaryData s' = _repoSummaryData s
  ∧ _githubToken s' = _githubToken s
  ∧ _savedSets s' = _savedSets s
  ∧ _releasesData s' = _releasesData s
  ∧ _downloadsData s' = _downloadsData s
  ∧ _authError s' = _authError s
  ∧ (_loading s = false → _loading s' = false).
Proof.
  intros s'. subst s'. unfold loadStargazers.
  case_decide; [|by split_and!]. destruct (Promise_all _); by destruct s.
Qed.

Lemma loadIssues_frame t octokit s :
  let s' := (loadIssues t octokit s).1 in
  _sortKey s' = _sortKey s ∧ _sortDirection s' = _sortDirection s
  ∧ location_repos s' = location_repos s
  ∧ _repoOrder s' = _repoOrder s
  ∧ _repoSummaryData s' = _repoSummaryData s
  ∧ _githubToken s' = _githubToken s
  ∧ _savedSets s' = _savedSets s
  ∧ _releasesData s' = _releasesData s
  ∧ _downloadsData s' = _downloadsData s
  ∧ _authError s' = _authError s
  ∧ (_loading s = false → _loading s' = false).
Proof.
  intros s'. subst s'. unfold loadIssues.
  case_decide; [|by split_and!]. destruct (Promise_all _); by destruct s.
Qed.

(** What a sort request that is carried out leaves behind, whatever comes
    of the supplemental fetch after it. *)
Lemma requestSort_outcome t octokit key s :
  sortable key s →
  let direction :=
    if decide (_sortKey s = key) then opposite (_sortDirection s)
    else if decide (key = SortKey.latestVersion ∨ key = SortKey.lastUpdate)
         then asc else desc in
  let s' := (_handleRequestSort t octokit key s).1 in
  _sortKey s' = key
  ∧ _sortDirection s' = direction
  ∧ _repoOrder s'
    = identifier <$> js_sort (sortCompare key direction) (_repoSummaryData s)
  ∧ location_repos s' = urlOf (_repoOrder s')
  ∧ _repoSummaryData s' = _repoSummaryData s
  ∧ _githubToken s' = _githubToken s
  ∧ _authError s' = EmptyString
  ∧ (_loading s = false → _loading s' = false).
Proof.
  intros [Hmanual Hgate] direction s'. subst s'. unfold _handleRequestSort.
  rewrite decide_False by (destruct s; simpl in *; tauto).
  rewrite decide_False by done.
  match goal with
  | |- context [_updateURL ?s1] =>
      set (sorted := _updateURL s1);
      assert (_sortKey sorted = key
              ∧ _sortDirection sorted = direction
              ∧ _repoOrder sorted
                = identifier <$> js_sort (sortCompare key direction)
                                   (_repoSummaryData s)
              ∧ location_repos sorted = urlOf (_repoOrder sorted)
              ∧ _repoSummaryData sorted = _repoSummaryData s
              ∧ _githubToken sorted = _githubToken s
              ∧ _authError sorted = EmptyString
              ∧ _loading sorted = _loading s)
        as (Hkey & Hdir & Horder & Hurl & Hrows & Htoken & Hauth & Hload)
  end.
  { subst sorted. split_and!;
      try (unfold _updateURL; case_decide; destruct s; simpl;
           by destruct _sortDirection0).
    rewrite updateURL_location.
    match goal with
    | |- context [_updateURL ?s1] =>
        by destruct (updateURL_fields s1) as (_ & -> & _)
    end. }
  case_decide.
  { destruct (loadStargazers_frame t octokit sorted)
      as (-> & -> & -> & -> & -> & -> & _ & _ & _ & -> & Hl).
    split_and!; try done. rewrite <-Hload. exact Hl. }
  case_decide.
  { destruct (loadIssues_frame t octokit sorted)
      as (-> & -> & -> & -> & -> & -> & _ & _ & _ & -> & Hl).
    split_and!; try done. rewrite <-Hload. exact Hl. }
  cbn [fst]. split_and!; try done. by rewrite <-Hload.
Qed.

Lemma in_order_opposite key direction a b :
  in_order key (opposite direction) a b ↔ in_order key direction b a.
Proof. by destruct direction. Qed.

Lemma StronglySorted_reverse {A} (R : relation A) l :
  StronglySorted R l → StronglySorted (flip R) (reverse l).
Proof.
  induction 1 as [|x l Hl IH Hx]; [constructor|].
  rewrite reverse_cons. apply StronglySorted_app. split_and!; [|done|].
  - intros x1 x2 Hx1 ->%list_elem_of_singleton.
    rewrite Forall_forall in Hx. apply Hx. by apply elem_of_reverse.
  - repeat constructor.
Qed.

Lemma StronglySorted_impl {A} (R1 R2 : relation A) l :
  (∀ a b, R1 a b → R2 a b) → StronglySorted R1 l → StronglySorted R2 l.
Proof.
  intros HR. induction 1 as [|x l Hl IH Hx]; constructor; [done|].
  eapply Forall_impl; [exact Hx|]. apply HR.
Qed.

Lemma js_sort_elem {A} (compareFn : A → A → Z) x l :
  x ∈ js_sort compareFn l ↔ x ∈ l.
Proof. by rewrite js_sort_perm. Qed.

Lemma sortable_after_sort t octokit key key' s :
  sortable key s → sortable key' s →
  sortable key' (_handleRequestSort t octokit key s).1.
Proof.
  intros Hs [Hmanual Hgate]. split; [done|].
  pose proof (requestSort_outcome t octokit key s Hs) as H. cbv zeta in H.
  destruct H as (_ & _ & _ & _ & _ & -> & _). done.
Qed.

(** X1.  A sort request that is carried out (the key is not the manual one
    and, for stars and open issues, a credential is set) puts the display
    order into the order of the rows of the table sorted by the value under
    the key: the display order lists the identifiers of all the rows, each
    row once, and along it the values never go against the sort direction
    then in force, whatever comes of the supplemental fetch. *)
Theorem sort_orders_rows
    (t : string → string) (octokit : Octokit) (key : SortKey) (s : State) :
  sortable key s →
  ∃ rows,
    _repoOrder (_handleRequestSort t octokit key s).1 = identifier <$> rows
    ∧ rows ≡ₚ _repoSummaryData s
    ∧ StronglySorted
        (in_order key (_sortDirection (_handleRequestSort t octokit key s).1))
        rows.
Proof.
  intros Hs.
  pose proof (requestSort_outcome t octokit key s Hs) as H. cbv zeta in H.
  destruct H as (_ & Hdir & Horder & _).
  eexists. split_and!; [exact Horder|apply js_sort_perm|].
  rewrite Hdir. apply js_sort_sorted; [apply _..|].
  apply sortCompare_in_order.
Qed.

Lemma sort_orders_rows_witness :
  ∃ rows,
    _repoOrder (_handleRequestSort Examples.t Examples.okOctokit
                  SortKey.stars Examples.withToken).1
    = identifier <$> rows
    ∧ rows ≡ₚ _repoSummaryData Examples.withToken
    ∧ StronglySorted
        (in_order SortKey.stars
           (_sortDirection (_handleRequestSort Examples.t Examples.okOctokit
                              SortKey.stars Examples.withToken).1))
        rows.
Proof.
  apply (sort_orders_rows Examples.t Examples.okOctokit SortKey.stars
           Examples.withToken).
  split; [done|]. left. vm_compute. done.
Defined.

(** X2.  The sort is stable with respect to the rows of the table, not to
    the order on display: rows whose values under the key are equal follow
    one another in the display order after the sort as they do in
    [_repoSummaryData], that is in the order of the repo set at the last
    batch fetch; an order set by dragging does not survive among them. *)
Theorem sort_keeps_ties_in_row_order
    (t : string → string) (octokit : Octokit) (key : SortKey) (s : State) :
  sortable key s →
  ∃ rows,
    _repoOrder (_handleRequestSort t octokit key s).1 = identifier <$> rows
    ∧ ∀ v, filter (λ row, valueOf key row = v) rows
           = filter (λ row, valueOf key row = v) (_repoSummaryData s).
Proof.
  intros Hs.
  pose proof (requestSort_outcome t octokit key s Hs) as H. cbv zeta in H.
  destruct H as (_ & _ & Horder & _).
  eexists. split; [exact Horder|]. intros v.
  apply js_sort_stable. intros a b Hab.
  apply sortCompare_in_order. unfold in_order. rewrite Hab.
  destruct (if decide (_sortKey s = key) then _ else _);
    apply value_lt_irrefl.
Qed.

Lemma sort_keeps_ties_in_row_order_witness :
  ∃ rows,
    _repoOrder (_handleRequestSort Examples.t Examples.okOctokit
                  SortKey.totalDownloads Examples.reordered).1
    = identifier <$> rows
    ∧ ∀ v, filter (λ row, valueOf SortKey.totalDownloads row = v) rows
           = filter (λ row, valueOf SortKey.totalDownloads row = v)
               (_repoSummaryData Examples.reordered).
Proof.
  apply (sort_keeps_ties_in_row_order Examples.t Examples.okOctokit
           SortKey.totalDownloads Examples.reordered).
  split; [done|]. right. done.
Defined.

(** X3.  Asking for the same sort twice turns the table round: when no two
    rows have the same value under the key, the display order after the
    second request is the reverse of the one after the first, and the
    direction is the opposite one. *)
Theorem sorting_again_reverses
    (t : string → string) (octokit octokit' : Octokit) (key : SortKey)
    (s : State) :
  sortable key s →
  NoDup (valueOf key <$> _repoSummaryData s) →
  _repoOrder (_handleRequestSort t octokit' key
                (_handleRequestSort t octokit key s).1).1
  = reverse (_repoOrder (_handleRequestSort t octokit key s).1)
  ∧ _sortDirection (_handleRequestSort t octokit' key
                      (_handleRequestSort t octokit key s).1).1
    = opposite (_sortDirection (_handleRequestSort t octokit key s).1).
Proof.
  intros Hs Hvalues.
  pose proof (requestSort_outcome t octokit' key _
                (sortable_after_sort t octokit key key s Hs Hs)) as H2.
  pose proof (requestSort_outcome t octokit key s Hs) as H1.
  cbv zeta in H1, H2.
  destruct H1 as (Hkey1 & Hdir1 & Horder1 & _ & Hrows1 & _).
  destruct H2 as (_ & Hdir2 & Horder2 & _).
  rewrite Hkey1, decide_True in Hdir2, Horder2 by done.
  split; [|done].
  rewrite Horder2, Horder1, Hrows1, <-fmap_reverse. f_equal.
  set (direction := _sortDirection (_handleRequestSort t octokit key s).1)
    in *.
  rewrite <-Hdir1.
  apply (StronglySorted_unique_strong (in_order key (opposite direction))).
  - intros a b Ha Hb Hab Hba.
    rewrite elem_of_reverse in Hb.
    apply js_sort_elem in Ha, Hb.
    apply in_order_opposite in Hab, Hba.
    assert (valueOf key a = valueOf key b) as Heq.
    { destruct direction; simpl in *;
        by apply value_lt_trichotomy. }
    apply list_elem_of_lookup in Ha as [i Hi], Hb as [j Hj].
    assert (i = j) as ->; [|congruence].
    eapply NoDup_lookup; [exact Hvalues|..];
      rewrite list_lookup_fmap; [by rewrite Hi|by rewrite Hj, Heq].
  - apply js_sort_sorted; [apply _..|]. apply sortCompare_in_order.
  - eapply StronglySorted_impl; [|apply StronglySorted_reverse].
    + intros a b Hab. apply in_order_opposite. exact Hab.
    + apply js_sort_sorted; [apply _..|]. apply sortCompare_in_order.
  - by rewrite reverse_Permutation, !js_sort_perm.
Qed.

Lemma sorting_again_reverses_witness :
  _repoOrder (_handleRequestSort Examples.t Examples.okOctokit SortKey.stars
                (_handleRequestSort Examples.t Examples.okOctokit
                   SortKey.stars Examples.withToken).1).1
  = reverse (_repoOrder (_handleRequestSort Examples.t Examples.okOctokit
                           SortKey.stars Examples.withToken).1)
  ∧ _sortDirection (_handleRequestSort Examples.t Examples.okOctokit
                      SortKey.stars
                      (_handleRequestSort Examples.t Examples.okOctokit
                         SortKey.stars Examples.withToken).1).1
    = opposite (_sortDirection (_handleRequestSort Examples.t
                                  Examples.okOctokit SortKey.stars
                                  Examples.withToken).1).
Proof.
  apply (sorting_again_reverses Examples.t Examples.okOctokit
           Examples.okOctokit SortKey.stars Examples.withToken).
  - split; [done|]. left. vm_compute. done.
  - apply (bool_decide_unpack _). vm_compute. exact I.
Defined.

(** ** The address of the page *)

Lemma updateURL_current s :
  location_repos (_updateURL s) = urlOf (_repoOrder (_updateURL s)).
Proof.
  rewrite updateURL_location.
  by destruct (updateURL_fields s) as (_ & -> & _).
Qed.

(** The settling of a batch fetch writes the rows, the two maps of the
    releases, the order and the two flags, and nothing else. *)
Lemma fetchSettle_frame t promises s :
  let s' := fetchSettle t promises s in
  location_repos s' = location_repos s
  ∧ _stargazersData s' = _stargazersData s
  ∧ _issuesData s' = _issuesData s
  ∧ _githubToken s' = _githubToken s
  ∧ _sortKey s' = _sortKey s
  ∧ _sortDirection s' = _sortDirection s
  ∧ _chartMetric s' = _chartMetric s
  ∧ _authError s' = _authError s
  ∧ _newUsername s' = _newUsername s
  ∧ _newRepository s' = _newRepository s
  ∧ _loading s' = false.
Proof.
  intros s'. subst s'. unfold fetchSettle.
  destruct (Promise_all _); by destruct s.
Qed.

(** X4.  Every handler that changes the display order without a batch
    fetch writes the new order to the address before it returns: after a
    removal, a manual reorder, the clearing, and a sort that is carried
    out, the [repos] parameter of the address is the display order joined
    by commas, and it is absent when the order is empty. *)
Theorem order_changes_reach_the_address
    (t : string → string) (s : State) (i : Intent) :
  rewrites_order s i →
  location_repos (run t s i) = urlOf (_repoOrder (run t s i)).
Proof.
  by_intent i; try done; intros Hi; try apply updateURL_current.
  pose proof (requestSort_outcome t octokit key s Hi) as H.
  cbv zeta in H. by destruct H as (_ & _ & _ & -> & _).
Qed.

Lemma order_changes_reach_the_address_witness :
  location_repos
    (run Examples.t Examples.twoRepos
       (RemoveRepo {| username := "octocat"; repository := "Hello-World" |}))
  = urlOf (_repoOrder
             (run Examples.t Examples.twoRepos
                (RemoveRepo {| username := "octocat";
                               repository := "Hello-World" |}))).
Proof.
  apply (order_changes_reach_the_address Examples.t Examples.twoRepos
           (RemoveRepo {| username := "octocat";
                          repository := "Hello-World" |})).
  exact I.
Defined.

(** X5.  A handler that starts a batch fetch writes the address before the
    requests settle, so the address holds the display order of before: after
    adding a repository or loading a set the [repos] parameter is the prior
    display order (absent when that was empty), while the display order
    itself, when the batch succeeds, lists the new repo set; setting the
    credential does not write the address at all. *)
Theorem batch_leaves_prior_order_in_address
    (t : string → string) (s : State) (i : Intent)
    (octokit : Octokit) (repos : list Repo) :
  batchOf s i = Some (octokit, repos) →
  location_repos (run t s i)
  = match i with
    | SetCredential _ _ => location_repos s
    | _ => urlOf (_repoOrder s)
    end
  ∧ (batch_succeeds s i → _repoOrder (run t s i) = repoIdentifier <$> repos).
Proof.
  unfold batch_succeeds. intros Hbatch. rewrite Hbatch.
  by_intent i; try done.
  - (* the form *)
    set (s0 := s <| _newUsername := u |> <| _newRepository := v |>).
    pose proof (formSubmit_fields t octokit0 s0) as Hfields.
    cbv zeta in Hfields. destruct Hfields as (_ & Hfields).
    replace (_newUsername s0) with u in * by (by destruct s).
    replace (_newRepository s0) with v in * by (by destruct s).
    replace (_repos s0) with (_repos s) in * by (by destruct s).
    destruct (decide (u = EmptyString ∨ v = EmptyString)) as [|Hfull];
      [done|].
    destruct (decide (_ ∈ _repos s)) as [|Hnew]; [done|].
    simplify_eq.
    rewrite decide_False in Hfields by tauto.
    destruct Hfields as (_ & Hfields). split.
    + unfold _handleFormSubmit.
      replace (_newUsername s0) with u by (by destruct s).
      replace (_newRepository s0) with v by (by destruct s).
      replace (_repos s0) with (_repos s) by (by destruct s).
      rewrite decide_False by done. rewrite decide_False by done.
      unfold fetchBegin. cbv beta iota.
      match goal with
      | |- context [fetchSettle t ?p ?s3] =>
          destruct (fetchSettle_frame t p s3) as (-> & _)
      end.
      match goal with
      | |- context [_updateURL ?s1] =>
          transitivity (location_repos (_updateURL s1));
            [by destruct (_updateURL s1)|rewrite updateURL_location]
      end.
      by destruct s.
    + intros [results Hall]. rewrite Hall in Hfields. by destruct Hfields.
  - (* a saved set *)
    pose proof (loadSet_fields t octokit0 name s) as Hfields.
    cbv zeta in Hfields. destruct Hfields as (_ & Hfields).
    destruct (_savedSets s !! name) as [repoIdentifiers|] eqn:Hset; [|done].
    simplify_eq. destruct Hfields as (_ & Hfields). split.
    + unfold _handleLoadSet. rewrite Hset.
      unfold fetchBegin. cbv beta iota.
      match goal with
      | |- context [fetchSettle t ?p ?s3] =>
          destruct (fetchSettle_frame t p s3) as (-> & _)
      end.
      rewrite updateURL_location. by destruct s.
    + intros [results Hall]. rewrite Hall in Hfields. by destruct Hfields.
  - (* the credential *)
    pose proof (updateAuthToken_fields t octokit0 token s) as Hfields.
    cbv zeta in Hfields. destruct Hfields as (_ & _ & Hfields).
    destruct (decide (0 < length (_repos s))%nat) as [Hsome|]; [|done].
    simplify_eq. split.
    + unfold _updateAuthToken.
      replace (_repos (s <| _githubToken := token |>)) with (_repos s)
        by (by destruct s).
      rewrite decide_True by done. unfold _fetchDataForRepos.
      unfold fetchBegin. cbv beta iota.
      match goal with
      | |- context [fetchSettle t ?p ?s3] =>
          destruct (fetchSettle_frame t p s3) as (-> & _)
      end.
      by destruct s.
    + intros [results Hall]. rewrite Hall in Hfields. by destruct Hfields.
Qed.

Lemma batch_leaves_prior_order_in_address_witness :
  location_repos
    (run Examples.t Examples.twoRepos
       (AddRepo "nobody" "nothing" Examples.okOctokit))
  = urlOf (_repoOrder Examples.twoRepos)
  ∧ (batch_succeeds Examples.twoRepos
       (AddRepo "nobody" "nothing" Examples.okOctokit) →
     _repoOrder (run Examples.t Examples.twoRepos
                   (AddRepo "nobody" "nothing" Examples.okOctokit))
     = repoIdentifier
         <$> _repos Examples.twoRepos
             ++ [{| username := "nobody"; repository := "nothing" |}]).
Proof.
  apply (batch_leaves_prior_order_in_address Examples.t Examples.twoRepos
           (AddRepo "nobody" "nothing" Examples.okOctokit)
           Examples.okOctokit
           (_repos Examples.twoRepos
            ++ [{| username := "nobody"; repository := "nothing" |}])).
  vm_compute. reflexivity.
Defined.

Lemma urlOf_nonempty l : l ≠ [] → urlOf l = Some (join comma l).
Proof. by destruct l. Qed.

Lemma join_cons sep x y l :
  join sep (x :: y :: l) = x +:+ String sep (join sep (y :: l)).
Proof. done. Qed.

Lemma split_join sep l :
  l ≠ [] → Forall (λ x, includes sep x = false) l →
  split sep (join sep l) = l.
Proof.
  intros Hne Hl. induction Hl as [|x l Hx Hl IH]; [done|].
  destruct l as [|y l]; [by apply split_no_sep|].
  rewrite join_cons, split_app by done. f_equal. by apply IH.
Qed.

(** X6.  The address is a faithful store of the display order: when the
    page is opened at the address that the engine wrote for a display
    order (identifiers of repositories with proper names and without
    commas), the repo set read from it is those repositories in that order
    and, when the batch fetch succeeds, the display order and the rows are
    in that order too. *)
Theorem address_restores_display_order
    (t : string → string) (octokit : Octokit) (token : string)
    (sets : gmap string (list string)) (repos : list Repo) :
  Forall valid_repo repos →
  Forall (λ r, includes comma (repoIdentifier r) = false) repos →
  _repos (Startup._readStateFromURL t octokit
            (urlOf (repoIdentifier <$> repos)) (initial token sets))
  = repos
  ∧ (is_Some (Promise_all (fetchPair octokit <$> repos)) →
     _repoOrder (Startup._readStateFromURL t octokit
                   (urlOf (repoIdentifier <$> repos)) (initial token sets))
     = repoIdentifier <$> repos
     ∧ identifier
         <$> _repoSummaryData
               (Startup._readStateFromURL t octokit
                  (urlOf (repoIdentifier <$> repos)) (initial token sets))
       = repoIdentifier <$> repos).
Proof.
  intros Hvalid Hcomma. unfold Startup._readStateFromURL.
  destruct (decide (repos = [])) as [->|Hne]; [done|].
  rewrite urlOf_nonempty by (by destruct repos).
  rewrite split_join; [|by destruct repos|by apply Forall_fmap].
  rewrite parseRepo_identifiers by done.
  cbn [_repos set set_repos initial].
  rewrite decide_True by (destruct repos; simpl; (done || lia)).
  unfold _fetchDataForRepos, fetchBegin. cbv beta iota.
  match goal with
  | |- context [fetchSettle t (fetchPair octokit <$> _repos ?s1) ?s2] =>
      change (_repos s1) with (_repos s2);
      pose proof (fetchSettle_fields t octokit s2) as Hfields
  end.
  cbv zeta in Hfields. destruct Hfields as (Hrepos & _ & Hrest).
  split; [exact Hrepos|].
  intros [results Hall]. cbn [_repos set set_repos set_loading set_error]
    in Hrest. by rewrite Hall in Hrest.
Qed.

Lemma address_restores_display_order_witness :
  _repos (Startup._readStateFromURL Examples.t Examples.okOctokit
            (urlOf (repoIdentifier
                      <$> [{| username := "rocq"; repository := "stdlib" |};
                           {| username := "octocat";
                              repository := "Hello-World" |}]))
            (initial EmptyString ∅))
  = [{| username := "rocq"; repository := "stdlib" |};
     {| username := "octocat"; repository := "Hello-World" |}]
  ∧ (is_Some (Promise_all
                (fetchPair Examples.okOctokit
                   <$> [{| username := "rocq"; repository := "stdlib" |};
                        {| username := "octocat";
                           repository := "Hello-World" |}])) →
     _repoOrder (Startup._readStateFromURL Examples.t Examples.okOctokit
                   (urlOf (repoIdentifier
                             <$> [{| username := "rocq";
                                     repository := "stdlib" |};
                                  {| username := "octocat";
                                     repository := "Hello-World" |}]))
                   (initial EmptyString ∅))
     = repoIdentifier
         <$> [{| username := "rocq"; repository := "stdlib" |};
              {| username := "octocat"; repository := "Hello-World" |}]
     ∧ identifier
         <$> _repoSummaryData
               (Startup._readStateFromURL Examples.t Examples.okOctokit
                  (urlOf (repoIdentifier
                            <$> [{| username := "rocq";
                                    repository := "stdlib" |};
                                 {| username := "octocat";
                                    repository := "Hello-World" |}]))
                  (initial EmptyString ∅))
       = repoIdentifier
           <$> [{| username := "rocq"; repository := "stdlib" |};
                {| username := "octocat"; repository := "Hello-World" |}]).
Proof.
  apply (address_restores_display_order Examples.t Examples.okOctokit
           EmptyString ∅
           [{| username := "rocq"; repository := "stdlib" |};
            {| username := "octocat"; repository := "Hello-World" |}]).
  - repeat constructor; done.
  - repeat constructor.
Defined.

(** ** Removing repositories *)

Lemma filter_comm {A} (P Q : A → Prop)
    `{!∀ x, Decision (P x), !∀ x, Decision (Q x)} (l : list A) :
  filter P (filter Q l) = filter Q (filter P l).
Proof. rewrite !list_filter_filter. apply list_filter_iff. intros x. tauto. Qed.

Lemma filter_idemp {A} (P : A → Prop) `{!∀ x, Decision (P x)} (l : list A) :
  filter P (filter P l) = filter P l.
Proof. rewrite list_filter_filter. apply list_filter_iff. intros x. tauto. Qed.

(** The state after a removal, field by field. *)
Lemma removeRepo_state r s :
  _handleRemoveRepo r s
  = {| _newUsername := _newUsername s;
       _newRepository := _newRepository s;
       _repos := filter (λ r', repoIdentifier r' ≠ repoIdentifier r) (_repos s);
       _releasesData := delete (repoIdentifier r) (_releasesData s);
       _downloadsData := delete (repoIdentifier r) (_downloadsData s);
       _stargazersData := delete (repoIdentifier r) (_stargazersData s);
       _issuesData := delete (repoIdentifier r) (_issuesData s);
       _repoSummaryData :=
         filter (λ d, identifier d ≠ repoIdentifier r) (_repoSummaryData s);
       _repoOrder := filter (λ id, id ≠ repoIdentifier r) (_repoOrder s);
       _chartMetric := _chartMetric s;
       _sortKey := _sortKey s;
       _sortDirection := _sortDirection s;
       _loading := _loading s;
       _error := _error s;
       _authError := _authError s;
       _githubToken := _githubToken s;
       _savedSets := _savedSets s;
       location_repos :=
         urlOf (filter (λ id, id ≠ repoIdentifier r) (_repoOrder s)) |}.
Proof.
  unfold _handleRemoveRepo, _updateURL, urlOf. destruct s.
  cbn [set set_repos set_repoOrder set_releasesData set_downloadsData
       set_stargazersData set_issuesData set_repoSummaryData
       set_location_repos _newUsername _newRepository _repos _releasesData
       _downloadsData _stargazersData _issuesData _repoSummaryData
       _repoOrder _chartMetric _sortKey _sortDirection _loading _error
       _authError _githubToken _savedSets location_repos].
  destruct (filter _ _repoOrder0) eqn:Horder.
  - by rewrite decide_False by (simpl; lia).
  - by rewrite decide_True by (simpl; lia).
Qed.

(** X7.  Removals do not depend on their order, and removing a repository
    twice is removing it once: the whole state (repo set, display order,
    rows, the four maps and the address) is the same. *)
Theorem removals_commute (a b : Repo) (s : State) :
  _handleRemoveRepo a (_handleRemoveRepo b s)
  = _handleRemoveRepo b (_handleRemoveRepo a s)
  ∧ _handleRemoveRepo a (_handleRemoveRepo a s) = _handleRemoveRepo a s.
Proof.
  split.
  - rewrite (removeRepo_state a (_handleRemoveRepo b s)),
      (removeRepo_state b (_handleRemoveRepo a s)).
    rewrite (removeRepo_state b s), (removeRepo_state a s).
    cbn [_newUsername _newRepository _repos _releasesData
         _downloadsData _stargazersData _issuesData _repoSummaryData
         _repoOrder _chartMetric _sortKey _sortDirection _loading _error
         _authError _githubToken _savedSets location_repos].
    f_equal; try apply delete_delete; try apply filter_comm.
    f_equal. apply filter_comm.
  - rewrite (removeRepo_state a (_handleRemoveRepo a s)).
    rewrite (removeRepo_state a s).
    cbn [_newUsername _newRepository _repos _releasesData
         _downloadsData _stargazersData _issuesData _repoSummaryData
         _repoOrder _chartMetric _sortKey _sortDirection _loading _error
         _authError _githubToken _savedSets location_repos].
    f_equal; try apply delete_delete_eq; try apply filter_idemp.
    f_equal. apply filter_idemp.
Qed.

(** ** What the batch handlers leave alone *)

Lemma formSubmit_frame t octokit s :
  let s' := _handleFormSubmit t octokit s in
  _stargazersData s' = _stargazersData s
  ∧ _issuesData s' = _issuesData s
  ∧ _githubToken s' = _githubToken s
  ∧ _sortKey s' = _sortKey s
  ∧ _sortDirection s' = _sortDirection s
  ∧ _authError s' = _authError s
  ∧ (_loading s = false → _loading s' = false).
Proof.
  intros s'. subst s'. unfold _handleFormSubmit.
  case_decide; [done|]. case_decide; [by destruct s|].
  unfold fetchBegin. cbv beta iota.
  match goal with
  | |- context [fetchSettle t ?p ?s3] =>
      destruct (fetchSettle_frame t p s3)
        as (_ & -> & -> & -> & -> & -> & _ & -> & _ & _ & ->)
  end.
  unfold _updateURL. case_decide; by destruct s.
Qed.

Lemma loadSet_frame t octokit setName s :
  let s' := _handleLoadSet t octokit setName s in
  _stargazersData s' = _stargazersData s
  ∧ _issuesData s' = _issuesData s
  ∧ _githubToken s' = _githubToken s
  ∧ _sortKey s' = _sortKey s
  ∧ _sortDirection s' = _sortDirection s
  ∧ _authError s' = _authError s
  ∧ (_loading s = false → _loading s' = false).
Proof.
  intros s'. subst s'. unfold _handleLoadSet.
  destruct (_savedSets s !! setName); [|done].
  unfold fetchBegin. cbv beta iota.
  match goal with
  | |- context [fetchSettle t ?p ?s3] =>
      destruct (fetchSettle_frame t p s3)
        as (_ & -> & -> & -> & -> & -> & _ & -> & _ & _ & ->)
  end.
  unfold _updateURL. case_decide; by destruct s.
Qed.

Lemma updateAuthToken_frame t octokit token s :
  let s' := _updateAuthToken t octokit token s in
  _stargazersData s' = _stargazersData s
  ∧ _issuesData s' = _issuesData s
  ∧ _githubToken s' = token
  ∧ _sortKey s' = _sortKey s
  ∧ _sortDirection s' = _sortDirection s
  ∧ _authError s' = _authError s
  ∧ (_loading s = false → _loading s' = false).
Proof.
  intros s'. subst s'. unfold _updateAuthToken.
  case_decide; [|by destruct s].
  unfold _fetchDataForRepos, fetchBegin. cbv beta iota.
  match goal with
  | |- context [fetchSettle t ?p ?s3] =>
      destruct (fetchSettle_frame t p s3)
        as (_ & -> & -> & -> & -> & -> & _ & -> & _ & _ & ->)
  end.
  by destruct s.
Qed.




(** ** The loading flag *)

Lemma run_loading t s i : _loading s = false → _loading (run t s i) = false.
Proof.
  intros Hs. by_intent i.
  - pose proof (formSubmit_frame t octokit
                  (s <| _newUsername := u |> <| _newRepository := v |>))
      as H.
    cbv zeta in H. destruct H as (_ & _ & _ & _ & _ & _ & H).
    apply H. by destruct s.
  - rewrite removeRepo_state. done.
  - destruct (decide (sortable key s)) as [Hsort|Hno].
    + pose proof (requestSort_outcome t octokit key s Hsort) as H.
      cbv zeta in H. destruct H as (_ & _ & _ & _ & _ & _ & _ & H). auto.
    + unfold _handleRequestSort.
      case_decide; [by destruct s|]. case_decide; [by destruct s|].
      destruct Hno. split; [done|].
      destruct (decide (_githubToken s = EmptyString)); [|by left].
      right. split; intros ->; destruct s; simpl in *; tauto.
  - unfold _setNewOrder, _updateURL. case_decide; by destruct s.
  - unfold clearAction, _updateURL. case_decide; by destruct s.
  - unfold _handleSaveSetConfirm. case_decide; by destruct s.
  - pose proof (loadSet_frame t octokit name s) as H.
    cbv zeta in H. destruct H as (_ & _ & _ & _ & _ & _ & H). auto.
  - unfold deleteAction. by destruct s.
  - unfold _handleUpdateSet. by destruct s.
  - pose proof (updateAuthToken_frame t octokit token s) as H.
    cbv zeta in H. destruct H as (_ & _ & _ & _ & _ & _ & H). auto.
Qed.

(** X9.  The engine never comes to rest with the loading flag set: in
    every state reached from the initial one through any requests, with
    whatever answers or failures of the remote, [_loading] is false once
    the requests of the last handler have settled. *)
Theorem loading_flag_is_always_cleared
    (t : string → string) (ok : State → Intent → Prop)
    (token : string) (sets : gmap string (list string)) (s : State) :
  reaches t ok (initial token sets) s → _loading s = false.
Proof.
  induction 1 as [|s i _ IH _]; [done|]. by apply run_loading.
Qed.

Lemma loading_flag_is_always_cleared_witness :
  _loading Examples.thirdFailed = false.
Proof.
  apply (loading_flag_is_always_cleared Examples.t (λ _ _, True)
           EmptyString ∅ Examples.thirdFailed).
  unfold Examples.thirdFailed, Examples.twoRepos. cbn [foldl].
  repeat (apply reaches_step; [|exact I]). apply reaches_here.
Defined.

(** ** A repository that the remote does not answer for *)

Lemma formSubmit_error t octokit s :
  _newUsername s ≠ EmptyString → _newRepository s ≠ EmptyString →
  {| username := _newUsername s; repository := _newRepository s |}
    ∉ _repos s →
  _error (_handleFormSubmit t octokit s)
  = match Promise_all
            (fetchPair octokit
               <$> _repos s ++ [{| username := _newUsername s;
                                   repository := _newRepository s |}]) with
    | Some _ => EmptyString
    | None => t "errors.fetchRepoData"
    end.
Proof.
  intros Hu Hv Hnew. unfold _handleFormSubmit.
  rewrite decide_False by tauto. rewrite decide_False by done.
  unfold fetchBegin. cbv beta iota. unfold fetchSettle.
  match goal with
  | |- context [fetchPair octokit <$> _repos ?s1] =>
      replace (_repos s1)
        with (_repos s ++ [{| username := _newUsername s;
                              repository := _newRepository s |}])
        by (by destruct s)
  end.
  destruct (Promise_all _); unfold _updateURL; case_decide; by destruct s.
Qed.

(** X10.  A repository that the remote does not answer for blocks the
    engine.  The failed add leaves it in the repo set, where no pill shows
    it; the next add asks for it again, so that batch fails too although
    the remote knows the new repository: the display order and the rows
    are still those of before the first add, the error is flagged, and both
    repositories are in the repo set. *)
Theorem failed_add_blocks_later_adds
    (t : string → string) (s : State) (u v u' v' : string)
    (octokit octokit' : Octokit) :
  u ≠ EmptyString → v ≠ EmptyString →
  u' ≠ EmptyString → v' ≠ EmptyString →
  {| username := u; repository := v |} ∉ _repos s →
  {| username := u'; repository := v' |} ∉ _repos s →
  {| username := u'; repository := v' |}
    ≠ {| username := u; repository := v |} →
  fetchPair octokit {| username := u; repository := v |} = None →
  fetchPair octokit' {| username := u; repository := v |} = None →
  _repos (run t (run t s (AddRepo u v octokit)) (AddRepo u' v' octokit'))
  = _repos s ++ [{| username := u; repository := v |};
                 {| username := u'; repository := v' |}]
  ∧ _repoOrder (run t (run t s (AddRepo u v octokit))
                  (AddRepo u' v' octokit'))
    = _repoOrder s
  ∧ _repoSummaryData (run t (run t s (AddRepo u v octokit))
                        (AddRepo u' v' octokit'))
    = _repoSummaryData s
  ∧ _error (run t (run t s (AddRepo u v octokit)) (AddRepo u' v' octokit'))
    = t "errors.fetchRepoData"
  ∧ (∀ id, id ∈ pills (run t (run t s (AddRepo u v octokit))
                         (AddRepo u' v' octokit')) →
           id ∈ _repoOrder s).
Proof.
  intros Hu Hv Hu' Hv' Hnew Hnew' Hne Hfail Hfail'. cbn [run].
  set (s0 := s <| _newUsername := u |> <| _newRepository := v |>).
  set (s1 := _handleFormSubmit t octokit s0).
  set (s1' := s1 <| _newUsername := u' |> <| _newRepository := v' |>).
  assert (Promise_all
            (fetchPair octokit
               <$> _repos s ++ [{| username := u; repository := v |}])
          = None) as Hall.
  { apply Promise_all_None. eexists. split; [|exact Hfail]. set_solver. }
  assert (Promise_all
            (fetchPair octokit'
               <$> (_repos s ++ [{| username := u; repository := v |}])
                   ++ [{| username := u'; repository := v' |}])
          = None) as Hall'.
  { apply Promise_all_None. eexists. split; [|exact Hfail']. set_solver. }
  pose proof (formSubmit_fields t octokit s0) as H1. cbv zeta in H1.
  fold s1 in H1.
  replace (_newUsername s0) with u in H1 by (by destruct s).
  replace (_newRepository s0) with v in H1 by (by destruct s).
  replace (_repos s0) with (_repos s) in H1 by (by destruct s).
  replace (_repoOrder s0) with (_repoOrder s) in H1 by (by destruct s).
  replace (_repoSummaryData s0) with (_repoSummaryData s) in H1
    by (by destruct s).
  rewrite decide_False, Hall in H1 by tauto.
  destruct H1 as (_ & Hrepos1 & Horder1 & Hrows1).
  pose proof (formSubmit_fields t octokit' s1') as H2. cbv zeta in H2.
  pose proof (formSubmit_error t octokit' s1') as He.
  replace (_newUsername s1') with u' in H2, He by (by destruct s1).
  replace (_newRepository s1') with v' in H2, He by (by destruct s1).
  replace (_repos s1') with (_repos s1) in H2, He by (by destruct s1).
  replace (_repoOrder s1') with (_repoOrder s1) in H2 by (by destruct s1).
  replace (_repoSummaryData s1') with (_repoSummaryData s1) in H2
    by (by destruct s1).
  rewrite Hrepos1, Horder1, Hrows1 in H2. rewrite Hrepos1 in He.
  assert ({| username := u'; repository := v' |}
            ∉ _repos s ++ [{| username := u; repository := v |}]) as Hnotin.
  { rewrite elem_of_app, list_elem_of_singleton. tauto. }
  rewrite decide_False, Hall' in H2 by tauto.
  rewrite Hall' in He. specialize (He Hu' Hv' Hnotin).
  destruct H2 as (_ & Hrepos2 & Horder2 & Hrows2).
  unfold pills. rewrite Hrepos2, Horder2, Hrows2, He, <-(assoc_L (++)).
  split_and!; try done.
  intros id Hid. by apply list_elem_of_filter in Hid as [_ ?].
Qed.

Lemma failed_add_blocks_later_adds_witness :
  _repos (run Examples.t
            (run Examples.t Examples.twoRepos
               (AddRepo "nobody" "nothing" Examples.partialOctokit))
            (AddRepo "octocat" "Spoon-Knife" Examples.partialOctokit))
  = _repos Examples.twoRepos
    ++ [{| username := "nobody"; repository := "nothing" |};
        {| username := "octocat"; repository := "Spoon-Knife" |}]
  ∧ _repoOrder (run Examples.t
                  (run Examples.t Examples.twoRepos
                     (AddRepo "nobody" "nothing" Examples.partialOctokit))
                  (AddRepo "octocat" "Spoon-Knife" Examples.partialOctokit))
    = _repoOrder Examples.twoRepos
  ∧ _repoSummaryData
      (run Examples.t
         (run Examples.t Examples.twoRepos
            (AddRepo "nobody" "nothing" Examples.partialOctokit))
         (AddRepo "octocat" "Spoon-Knife" Examples.partialOctokit))
    = _repoSummaryData Examples.twoRepos
  ∧ _error (run Examples.t
              (run Examples.t Examples.twoRepos
                 (AddRepo "nobody" "nothing" Examples.partialOctokit))
              (AddRepo "octocat" "Spoon-Knife" Examples.partialOctokit))
    = Examples.t "errors.fetchRepoData"
  ∧ (∀ id,
       id ∈ pills (run Examples.t
                     (run Examples.t Examples.twoRepos
                        (AddRepo "nobody" "nothing" Examples.partialOctokit))
                     (AddRepo "octocat" "Spoon-Knife"
                        Examples.partialOctokit)) →
       id ∈ _repoOrder Examples.twoRepos).
Proof.
  apply (failed_add_blocks_later_adds Examples.t Examples.twoRepos
           "nobody" "nothing" "octocat" "Spoon-Knife"
           Examples.partialOctokit Examples.partialOctokit);
    try done.
  - apply (bool_decide_unpack _). vm_compute. exact I.
  - apply (bool_decide_unpack _). vm_compute. exact I.
Defined.

(** ** More on saved sets *)

Lemma run_savedSets t s i :
  _savedSets (run t s i)
  = match i with
    | SaveSet setName =>
        if decide (setName = EmptyString) then _savedSets s
        else <[setName := repoIdentifier <$> _repos s]> (_savedSets s)
    | UpdateSet setName =>
        <[setName := repoIdentifier <$> _repos s]> (_savedSets s)
    | DeleteSet setName => delete setName (_savedSets s)
    | _ => _savedSets s
    end.
Proof.
  by_intent i.
  - pose proof (formSubmit_fields t octokit
                  (s <| _newUsername := u |> <| _newRepository := v |>))
      as H.
    cbv zeta in H. destruct H as (-> & _). by destruct s.
  - by destruct (removeRepo_fields r s) as (_ & _ & _ & _ & _ & _ & _ & ->).
  - by destruct (requestSort_fields t octokit key s) as (-> & _).
  - by destruct (setNewOrder_fields newOrder s) as (-> & _).
  - by destruct (clearAction_fields s) as (-> & _).
  - unfold _handleSaveSetConfirm. case_decide; by destruct s.
  - pose proof (loadSet_fields t octokit name s) as H.
    cbv zeta in H. by destruct H as (-> & _).
  - unfold deleteAction. by destruct s.
  - unfold _handleUpdateSet. by destruct s.
  - pose proof (updateAuthToken_fields t octokit token s) as H.
    cbv zeta in H. by destruct H as (-> & _).
Qed.

(** X11.  A saved set is a snapshot: once stored under a name it stays as
    it is whatever is done to the repo set, the order or the credential
    afterwards, until a set is saved, updated or deleted under that very
    name. *)
Theorem saved_set_is_a_snapshot
    (t : string → string) (s : State) (i : Intent)
    (setName : string) (repoIdentifiers : list string) :
  _savedSets s !! setName = Some repoIdentifiers →
  i ≠ SaveSet setName → i ≠ UpdateSet setName → i ≠ DeleteSet setName →
  _savedSets (run t s i) !! setName = Some repoIdentifiers.
Proof.
  intros Hset Hsave Hupdate Hdelete. rewrite run_savedSets.
  destruct i as [| | | | |name| |name|name|]; try done.
  - case_decide; [done|]. rewrite lookup_insert_ne; [done|congruence].
  - rewrite lookup_delete_ne; [done|congruence].
  - rewrite lookup_insert_ne; [done|congruence].
Qed.

Lemma saved_set_is_a_snapshot_witness :
  _savedSets (run Examples.t Scenarios.savedPair ClearAll) !! "pair"
  = Some ["octocat/Hello-World"; "rocq/stdlib"].
Proof.
  apply (saved_set_is_a_snapshot Examples.t Scenarios.savedPair ClearAll
           "pair" ["octocat/Hello-World"; "rocq/stdlib"]).
  - vm_compute. reflexivity.
  - discriminate.
  - discriminate.
  - discriminate.
Defined.

(** X12.  Deleting a set undoes saving it: saving the repo set under a name
    that is not in use and deleting that name gives back the state of
    before, all of it, and so does updating the set of such a name and
    deleting it. *)
Theorem deleting_undoes_saving
    (t : string → string) (s : State) (setName : string) :
  _savedSets s !! setName = None →
  run t (run t s (SaveSet setName)) (DeleteSet setName) = s
  ∧ run t (run t s (UpdateSet setName)) (DeleteSet setName) = s.
Proof.
  intros Hnew. cbn [run].
  unfold _handleSaveSetConfirm, _handleUpdateSet, deleteAction.
  split.
  - case_decide.
    + destruct s. cbn in *. by rewrite delete_id.
    + destruct s. cbn in *. by rewrite delete_insert_id.
  - destruct s. cbn in *. by rewrite delete_insert_id.
Qed.

Lemma deleting_undoes_saving_witness :
  run Examples.t (run Examples.t Examples.twoRepos (SaveSet "pair"))
    (DeleteSet "pair")
  = Examples.twoRepos
  ∧ run Examples.t (run Examples.t Examples.twoRepos (UpdateSet "pair"))
      (DeleteSet "pair")
    = Examples.twoRepos.
Proof.
  apply (deleting_undoes_saving Examples.t Examples.twoRepos "pair").
  vm_compute. reflexivity.
Defined.

(** ** The rows, the downloads and the releases *)

Lemma insertAll_zip_fmap {A B V W} (f : V → W) (key : A → string)
    (val : A → B → V) (m : gmap string V) (xs : list A) (ys : list B) :
  insertAll (f <$> m) (zip_with (λ x y, (key x, f (val x y))) xs ys)
  = f <$> insertAll m (zip_with (λ x y, (key x, val x y)) xs ys).
Proof.
  revert ys m. induction xs as [|x xs IH]; intros [|y ys] m; try done.
  unfold insertAll in *. cbn [zip_with foldl fst snd].
  by rewrite <-fmap_insert, IH.
Qed.

Lemma insertAll_Forall {V} (P : string → V → Prop) (m : gmap string V) l :
  map_Forall P m → Forall (λ kv, P kv.1 kv.2) l → map_Forall P (insertAll m l).
Proof.
  intros Hm Hl. revert m Hm.
  induction Hl as [|[k v] l Hkv _ IH]; intros m Hm; [done|].
  unfold insertAll in *. cbn [foldl]. apply IH.
  by apply map_Forall_insert_2.
Qed.

Lemma published_Forall releasesResponse :
  Forall (λ r, is_Some (published_at r)) (Spec.published releasesResponse).
Proof.
  apply Forall_forall. intros r Hr.
  by apply list_elem_of_filter in Hr as [? _].
Qed.

Lemma coherent_ext t s s' :
  _releasesData s' = _releasesData s →
  _downloadsData s' = _downloadsData s →
  _repoSummaryData s' = _repoSummaryData s →
  coherent t s → coherent t s'.
Proof. unfold coherent. by intros -> -> ->. Qed.

(** What a batch that succeeds commits is coherent. *)
Lemma batch_coherent t repos (results : list (list GitHubRelease * RepoDetails)) :
  NoDup (repoIdentifier <$> repos) →
  ∀ s,
    _releasesData s
    = insertAll ∅ (zip_with (λ r res, (repoIdentifier r, Spec.published res.1))
                     repos results) →
    _downloadsData s
    = insertAll ∅ (zip_with
                     (λ r res,
                        (repoIdentifier r,
                         Spec.totalDownloads (Spec.published res.1)))
                     repos results) →
    _repoSummaryData s = zip_with (Spec.summaryRow t) repos results →
    coherent t s.
Proof.
  intros Hnodup s Hrel Hdown Hrows. unfold coherent.
  rewrite Hrel, Hdown, Hrows. split_and!.
  - rewrite <-(insertAll_zip_fmap totalDownloadsOf repoIdentifier
                 (λ _ res, Spec.published res.1)), fmap_empty.
    f_equal. apply zip_with_ext; [|done..]. intros r res.
    by rewrite totalDownloadsOf_sum.
  - apply insertAll_Forall; [apply map_Forall_empty|].
    apply Forall_forall. intros [k v] Hin.
    apply elem_of_lookup_zip_with in Hin as (j & r & res & [= -> ->] & _).
    apply published_Forall.
  - apply Forall_forall. intros row Hin.
    apply elem_of_lookup_zip_with in Hin as (j & r & res & -> & Hr & Hres).
    exists (Spec.published res.1). split_and!.
    + apply (insertAll_zip_lookup repoIdentifier
               (λ _ res, Spec.published res.1) ∅ repos results j r res Hr Hres).
      intros j' r' Hlt Hr' Heq.
      assert (j' = j) as ->; [|lia].
      eapply NoDup_lookup; [exact Hnodup|..];
        rewrite list_lookup_fmap; [by rewrite Hr'|by rewrite Hr, Heq].
    + simpl. by rewrite totalDownloadsOf_sum.
    + done.
Qed.

Lemma fetchSettle_coherent t octokit s :
  NoDup (repoIdentifier <$> _repos s) → coherent t s →
  coherent t (fetchSettle t (fetchPair octokit <$> _repos s) s).
Proof.
  intros Hnodup Hs. unfold fetchSettle.
  destruct (Promise_all _) as [results|] eqn:Hall.
  - apply Promise_all_Some, Forall2_length in Hall.
    destruct (commitResults_closed t (_repos s) results (_repos s) 0%nat
                {| newReleasesData := ∅; newDownloadsData := ∅;
                   newSummaryData := [] |} eq_refl Hall)
      as (Hsum & Hrel & Hdown).
    cbn [newReleasesData newDownloadsData newSummaryData app]
      in Hsum, Hrel, Hdown.
    apply (batch_coherent t (_repos s) results Hnodup).
    + rewrite <-Hrel. by destruct s.
    + rewrite <-Hdown. by destruct s.
    + rewrite <-Hsum. by destruct s.
  - eapply coherent_ext; [..|exact Hs]; by destruct s.
Qed.

(** The handlers that may start a batch fetch: either they end in the
    settling of that batch, on a state that has the new repo set and the
    data of before, or they leave the data alone. *)
Lemma run_batch_shape t s i octokit repos :
  batchOf s i = Some (octokit, repos) →
  ∃ s3,
    run t s i = fetchSettle t (fetchPair octokit <$> _repos s3) s3
    ∧ _repos s3 = repos
    ∧ _releasesData s3 = _releasesData s
    ∧ _downloadsData s3 = _downloadsData s
    ∧ _repoSummaryData s3 = _repoSummaryData s.
Proof.
  by_intent i; try done.
  - case_decide; [done|]. case_decide; [done|]. intros [= <- <-].
    unfold _handleFormSubmit.
    replace (_newUsername (s <| _newUsername := u |>
                             <| _newRepository := v |>))
      with u by (by destruct s).
    replace (_newRepository (s <| _newUsername := u |>
                               <| _newRepository := v |>))
      with v by (by destruct s).
    replace (_repos (s <| _newUsername := u |> <| _newRepository := v |>))
      with (_repos s) by (by destruct s).
    rewrite decide_False by done. rewrite decide_False by done.
    unfold fetchBegin. cbv beta iota.
    match goal with
    | |- context [fetchSettle t (fetchPair _ <$> _repos ?s1) ?s3] =>
        exists s3;
        assert (_repos s3 = _repos s1) as <-
          by (unfold _updateURL; case_decide; by destruct s)
    end.
    split; [done|]. unfold _updateURL. case_decide; by destruct s.
  - destruct (_savedSets s !! name) as [ids|] eqn:Hset; [|done].
    intros [= <- <-]. unfold _handleLoadSet. rewrite Hset.
    unfold fetchBegin. cbv beta iota.
    match goal with
    | |- context [fetchSettle t (fetchPair _ <$> _repos ?s1) ?s3] =>
        exists s3;
        assert (_repos s3 = _repos s1) as <-
          by (unfold _updateURL; case_decide; by destruct s)
    end.
    split; [done|]. unfold _updateURL. case_decide; by destruct s.
  - case_decide; [|done]. intros [= <- <-]. unfold _updateAuthToken.
    replace (_repos (s <| _githubToken := token |>)) with (_repos s)
      by (by destruct s).
    rewrite decide_True by done.
    unfold _fetchDataForRepos, fetchBegin. cbv beta iota.
    match goal with
    | |- context [fetchSettle t (fetchPair _ <$> _repos ?s1) ?s3] =>
        exists s3
    end.
    split; [done|]. by destruct s.
Qed.

Lemma run_quiet_data t s i :
  batchOf s i = None →
  match i with
  | AddRepo _ _ _ | LoadSet _ _ | SetCredential _ _ =>
      _releasesData (run t s i) = _releasesData s
      ∧ _downloadsData (run t s i) = _downloadsData s
      ∧ _repoSummaryData (run t s i) = _repoSummaryData s
  | _ => True
  end.
Proof.
  by_intent i; try done.
  - unfold _handleFormSubmit.
    replace (_newUsername (s <| _newUsername := u |>
                             <| _newRepository := v |>))
      with u by (by destruct s).
    replace (_newRepository (s <| _newUsername := u |>
                               <| _newRepository := v |>))
      with v by (by destruct s).
    replace (_repos (s <| _newUsername := u |> <| _newRepository := v |>))
      with (_repos s) by (by destruct s).
    case_decide; [by destruct s|]. case_decide; [by destruct s|done].
  - unfold _handleLoadSet. by destruct (_savedSets s !! name).
  - unfold _updateAuthToken.
    replace (_repos (s <| _githubToken := token |>)) with (_repos s)
      by (by destruct s).
    case_decide; [done|]. by destruct s.
Qed.

Lemma requestSort_releases t octokit key s :
  _releasesData (_handleRequestSort t octokit key s).1 = _releasesData s
  ∧ _downloadsData (_handleRequestSort t octokit key s).1 = _downloadsData s.
Proof.
  unfold _handleRequestSort.
  case_decide; [by destruct s|]. case_decide; [by destruct s|].
  match goal with
  | |- context [_updateURL ?s1] =>
      set (sorted := _updateURL s1);
      assert (_releasesData sorted = _releasesData s
              ∧ _downloadsData sorted = _downloadsData s) as [Hrel Hdown]
  end.
  { subst sorted.
    match goal with
    | |- context [_updateURL ?s1] =>
        destruct (updateURL_fields s1) as (_ & _ & _ & -> & -> & _)
    end.
    by destruct s. }
  case_decide.
  { by destruct (loadStargazers_frame t octokit sorted)
      as (_ & _ & _ & _ & _ & _ & _ & -> & -> & _). }
  case_decide.
  { by destruct (loadIssues_frame t octokit sorted)
      as (_ & _ & _ & _ & _ & _ & _ & -> & -> & _). }
  done.
Qed.

Lemma run_coherent t s i :
  intent_wf s i → base_inv s → coherent t s → coherent t (run t s i).
Proof.
  intros Hwf Hbase Hs.
  pose proof (run_base_inv t s i Hwf Hbase) as (_ & Hnodup & _).
  destruct (batchOf s i) as [[octokit repos]|] eqn:Hbatch.
  { destruct (run_batch_shape t s i octokit repos Hbatch)
      as (s3 & Hrun & Hrepos & Hrel & Hdown & Hrows).
    rewrite Hrun in Hnodup |- *.
    destruct (fetchSettle_fields t octokit s3) as (Hrepos' & _).
    rewrite Hrepos' in Hnodup.
    apply fetchSettle_coherent; [done|]. by eapply coherent_ext. }
  pose proof (run_quiet_data t s i Hbatch) as Hquiet.
  destruct i as [?u ?v ?octokit|?r|?key ?octokit|?newOrder| |?name
                |?name ?octokit|?name|?name|?token ?octokit];
    try (destruct Hquiet as (? & ? & ?); by eapply coherent_ext);
    cbn [run] in *.
  - (* remove-repo *)
    destruct Hs as (Hdown & Hpub & Hrows). rewrite removeRepo_state.
    unfold coherent.
    cbn [_releasesData _downloadsData _repoSummaryData].
    split_and!.
    + by rewrite Hdown, fmap_delete.
    + by apply map_Forall_delete.
    + rewrite Forall_forall in Hrows |- *. intros row Hrow.
      apply list_elem_of_filter in Hrow as [Hne Hrow].
      destruct (Hrows row Hrow) as (releases & ? & ? & ?).
      exists releases. by rewrite lookup_delete_ne.
  - (* request-sort *)
    destruct (requestSort_releases t octokit key s) as [Hrel Hdown].
    destruct (requestSort_fields t octokit key s) as (_ & _ & Hrows & _).
    by eapply coherent_ext.
  - (* set-manual-order *)
    eapply coherent_ext; [..|exact Hs];
      unfold _setNewOrder, _updateURL; case_decide; by destruct s.
  - (* clear-all *)
    unfold clearAction, _updateURL, coherent.
    case_decide; cbn; (split_and!; [by rewrite fmap_empty|
                                    apply map_Forall_empty|done]).
  - (* save-set *)
    eapply coherent_ext; [..|exact Hs];
      unfold _handleSaveSetConfirm; case_decide; by destruct s.
  - (* delete-set *)
    eapply coherent_ext; [..|exact Hs]; unfold deleteAction; by destruct s.
  - (* update-set *)
    eapply coherent_ext; [..|exact Hs]; unfold _handleUpdateSet;
      by destruct s.
Qed.

Lemma reaches_coherent t token sets s :
  sets_wf sets → reaches t intent_wf (initial token sets) s → coherent t s.
Proof.
  intros Hsets Hreach. induction Hreach as [|s i Hreach IH Hwf].
  - split_and!; [by cbn; rewrite fmap_empty|apply map_Forall_empty|done].
  - apply run_coherent; [done| |done].
    eapply reaches_base_inv; [|by apply initial_base_inv|exact Hreach].
    done.
Qed.

(** The same with the handlers and the settling of their fetches in any
    order. *)
Lemma settle_coherent t fetch s :
  NoDup (repoIdentifier <$> _repos s) → coherent t s →
  coherent t (settle t fetch s).
Proof.
  intros Hnodup Hs.
  destruct fetch as [fetchPromises|reposToFetch promises
                    |reposToFetch promises]; cbn [settle].
  - unfold fetchSettle.
    destruct (Promise_all fetchPromises) as [results|].
    + destruct (commitResults_zip t (_repos s) results 0%nat
                  {| newReleasesData := ∅; newDownloadsData := ∅;
                     newSummaryData := [] |}) as (Hsum & Hrel & Hdown).
      rewrite drop_0 in Hsum, Hrel, Hdown.
      cbn [newReleasesData newDownloadsData newSummaryData app]
        in Hsum, Hrel, Hdown.
      apply (batch_coherent t (_repos s) results Hnodup).
      * rewrite <-Hrel. by destruct s.
      * rewrite <-Hdown. by destruct s.
      * rewrite <-Hsum. by destruct s.
    + eapply coherent_ext; [..|exact Hs]; by destruct s.
  - eapply coherent_ext; [..|exact Hs];
      destruct (Promise_all promises); by destruct s.
  - eapply coherent_ext; [..|exact Hs];
      destruct (Promise_all promises); by destruct s.
Qed.

Lemma settle_all_data t fetches s :
  Forall commits_nothing fetches →
  let s' := foldl (λ s fetch, settle t fetch s) s fetches in
  _releasesData s' = _releasesData s
  ∧ _downloadsData s' = _downloadsData s
  ∧ _repoSummaryData s' = _repoSummaryData s.
Proof.
  cbv zeta. intros Hall. revert s.
  induction Hall as [|fetch fetches Hnothing _ IH]; intros s; [done|].
  cbn [foldl]. destruct (IH (settle t fetch s)) as (-> & -> & ->).
  destruct fetch as [fetchPromises|reposToFetch promises
                    |reposToFetch promises];
    cbn [settle commits_nothing] in *; unfold fetchSettle;
    [rewrite Hnothing|destruct (Promise_all promises)..]; by destruct s.
Qed.

Lemma start_coherent t s i :
  intent_wf s i → base_inv s → coherent t s → coherent t (start t s i).1.
Proof.
  intros Hwf Hbase Hs.
  destruct (batchOf s i) as [[octokit' repos]|] eqn:Hbatch.
  - (* the handler leaves the data alone and starts a batch fetch *)
    eapply coherent_ext; [..|exact Hs]; revert Hbatch;
      by_intent i; cbn [start fst]; try done.
    all: try (unfold startFormSubmit;
              replace (_newUsername _) with u by (by destruct s);
              replace (_newRepository _) with v by (by destruct s);
              replace (_repos (s <| _newUsername := u |>
                                 <| _newRepository := v |>))
                with (_repos s) by (by destruct s);
              repeat case_decide; try done; intros _;
              cbn [fetchBegin fst]; unfold _updateURL;
              case_decide; by destruct s).
    all: try (unfold startLoadSet;
              destruct (_savedSets s !! name); [|done]; intros _;
              cbn [fetchBegin fst]; unfold _updateURL;
              case_decide; by destruct s).
    all: unfold startAuthToken; cbv zeta;
      replace (_repos (s <| _githubToken := token |>)) with (_repos s)
        by (by destruct s);
      case_decide; [intros _|done]; by destruct s.
  - (* the handler starts no batch fetch *)
    pose proof (run_coherent t s i Hwf Hbase Hs) as Hrun.
    rewrite run_start in Hrun.
    pose proof (settle_all_data t (start t s i).2 (start t s i).1
                  (start_quiet t s i Hbatch)) as Hdata.
    cbv zeta in Hdata. destruct Hdata as (Hrel & Hdown & Hrows).
    eapply coherent_ext; [..|exact Hrun]; done.
Qed.

Lemma arrives_coherent t token sets s fetches :
  sets_wf sets → arrives t (initial token sets) s fetches → coherent t s.
Proof.
  intros Hsets Harrives.
  induction Harrives
    as [|s fetches i Harrives IH Hwf|s fetches1 fetch fetches2 Harrives IH].
  - split_and!; [by cbn; rewrite fmap_empty|apply map_Forall_empty|done].
  - apply start_coherent; [done| |done].
    eapply arrives_base_inv; [by apply initial_base_inv|exact Harrives].
  - assert (base_inv s) as (_ & Hnodup & _).
    { eapply arrives_base_inv; [by apply initial_base_inv|exact Harrives]. }
    by apply settle_coherent.
Qed.

(** X13.  The table, the downloads and the releases agree in every state
    that the engine arrives at, in whatever order the handlers run and
    their fetches settle.  Every release kept has a publication date.  The
    downloads map has an entry for exactly the identifiers that have
    releases kept, and the entry is the sum of the download counts of the
    assets of those releases.  Each row of the table has releases kept
    under its identifier; its total downloads are that sum, and its latest
    version is the tag of the first of these releases, or the text for
    "not available" when there is no release or the tag is empty. *)
Theorem rows_agree_with_releases
    (t : string → string) (token : string)
    (sets : gmap string (list string)) (s : State)
    (fetches : list Fetch) :
  sets_wf sets →
  arrives t (initial token sets) s fetches →
  (∀ id releases,
     _releasesData s !! id = Some releases →
     Forall (λ release, is_Some (published_at release)) releases
     ∧ _downloadsData s !! id
       = Some (Spec.Zsum (download_count <$> (releases ≫= assets))))
  ∧ (∀ id, _releasesData s !! id = None → _downloadsData s !! id = None)
  ∧ ∀ row,
      row ∈ _repoSummaryData s →
      ∃ releases,
        _releasesData s !! identifier row = Some releases
        ∧ totalDownloads row
          = Spec.Zsum (download_count <$> (releases ≫= assets))
        ∧ latestVersion row
          = match releases with
            | release :: _ =>
                if decide (tag_name release = EmptyString)
                then t "common.notAvailable" else tag_name release
            | [] => t "common.notAvailable"
            end.
Proof.
  intros Hsets Harrives.
  destruct (arrives_coherent t token sets s fetches Hsets Harrives)
    as (Hdown & Hpub & Hrows).
  split_and!.
  - intros id releases Hrel. split; [by eapply Hpub|].
    rewrite Hdown, lookup_fmap, Hrel. simpl.
    by rewrite totalDownloadsOf_sum.
  - intros id Hrel. by rewrite Hdown, lookup_fmap, Hrel.
  - intros row Hrow. rewrite Forall_forall in Hrows.
    destruct (Hrows row Hrow) as (releases & Hrel & Htotal & Hlatest).
    exists releases. split_and!; [done| |done].
    by rewrite Htotal, totalDownloadsOf_sum.
Qed.

Lemma rows_agree_with_releases_witness :
  let s := Scenarios.overtaken in
  (∀ id releases,
     _releasesData s !! id = Some releases →
     Forall (λ release, is_Some (published_at release)) releases
     ∧ _downloadsData s !! id
       = Some (Spec.Zsum (download_count <$> (releases ≫= assets))))
  ∧ (∀ id, _releasesData s !! id = None → _downloadsData s !! id = None)
  ∧ ∀ row,
      row ∈ _repoSummaryData s →
      ∃ releases,
        _releasesData s !! identifier row = Some releases
        ∧ totalDownloads row
          = Spec.Zsum (download_count <$> (releases ≫= assets))
        ∧ latestVersion row
          = match releases with
            | release :: _ =>
                if decide (tag_name release = EmptyString)
                then Examples.t "common.notAvailable" else tag_name release
            | [] => Examples.t "common.notAvailable"
            end.
Proof.
  apply (rows_agree_with_releases Examples.t EmptyString ∅
           Scenarios.overtaken []).
  - intros name ids Hlook. by rewrite lookup_empty in Hlook.
  - by destruct overtaken_add_loses_a_repository as [Harrives _].
Defined.

(** ** The chart of the downloads *)

Lemma Zsum_perm l1 l2 : l1 ≡ₚ l2 → Spec.Zsum l1 = Spec.Zsum l2.
Proof. induction 1; rewrite ?Zsum_cons; lia. Qed.

Lemma Zsum_nonneg l : Forall (λ z, 0 ≤ z) l → 0 ≤ Spec.Zsum l.
Proof. induction 1; rewrite ?Zsum_cons; [done|lia]. Qed.

Lemma Zsum_filter_pos l :
  Forall (λ z, 0 ≤ z) l → Spec.Zsum (filter (λ z, 0 < z) l) = Spec.Zsum l.
Proof.
  induction 1 as [|z l Hz _ IH]; [done|].
  rewrite filter_cons. case_decide; rewrite !Zsum_cons; lia.
Qed.

Lemma releaseDownloads_sum release :
  ChartMore.releaseDownloads release
  = Spec.Zsum (download_count <$> assets release).
Proof. unfold ChartMore.releaseDownloads. rewrite sum_assets. lia. Qed.

Lemma totalDownloadsOf_releases releases :
  totalDownloadsOf releases
  = Spec.Zsum (ChartMore.releaseDownloads <$> releases).
Proof.
  unfold totalDownloadsOf.
  assert (∀ a, foldl (λ total release,
                        total + foldl (λ sum asset, sum + download_count asset)
                                  0 (assets release)) a releases
               = a + Spec.Zsum (ChartMore.releaseDownloads <$> releases))
    as Hfold; [|by rewrite Hfold].
  induction releases as [|r releases IH]; intros a; [simpl; lia|].
  rewrite fmap_cons, Zsum_cons. cbn [foldl]. rewrite IH.
  unfold ChartMore.releaseDownloads. lia.
Qed.

Lemma lineData_points releases :
  ChartMore.lineData releases
  ≡ₚ filter (λ d, 0 < ChartMore.py d)
       ((λ release,
           {| ChartMore.px := default 0 (published_at release);
              ChartMore.py := ChartMore.releaseDownloads release;
              ChartMore.label := tag_name release |})
          <$> releases).
Proof. apply js_sort_perm. Qed.

Lemma lineData_sum releases :
  Forall (λ r, Forall (λ a, 0 ≤ download_count a) (assets r)) releases →
  Spec.Zsum (ChartMore.py <$> ChartMore.lineData releases)
  = totalDownloadsOf releases.
Proof.
  intros Hcounts.
  rewrite (Zsum_perm _ _ (fmap_Permutation _ _ _ (lineData_points releases))).
  rewrite (fmap_filter ChartMore.py (λ z, 0 < z)).
  rewrite <-list_fmap_compose, Zsum_filter_pos.
  - by rewrite totalDownloadsOf_releases.
  - apply Forall_fmap. eapply Forall_impl; [exact Hcounts|].
    intros r Hr. simpl. rewrite releaseDownloads_sum.
    apply Zsum_nonneg. by apply Forall_fmap.
Qed.

Lemma lineData_releases releases :
  ChartMore.lineData releases
  = js_sort (λ a b, ChartMore.px a - ChartMore.px b)
      ((λ release,
          {| ChartMore.px := default 0 (published_at release);
             ChartMore.py := Spec.Zsum (download_count <$> assets release);
             ChartMore.label := tag_name release |})
         <$> filter (λ release,
                       0 < Spec.Zsum (download_count <$> assets release))
               releases).
Proof.
  unfold ChartMore.lineData. f_equal.
  induction releases as [|release releases IH]; [done|].
  rewrite fmap_cons, !filter_cons. cbn [ChartMore.py].
  rewrite releaseDownloads_sum.
  case_decide; [rewrite fmap_cons|]; by rewrite IH.
Qed.

(** X14.  The points that the chart of the downloads draws for a
    repository.  A release whose assets have downloads gives one point:
    its publication date, the sum of the download counts of its assets,
    and its tag as the label; a release without downloads gives none.  The
    points drawn are these points, from the earliest publication date to
    the latest, those of one date in the order of the releases.  When no
    download count is negative the counts of the points add up to the sum
    of the download counts of all assets of all releases. *)
Theorem downloads_chart_points (releases : list GitHubRelease) :
  let point release :=
    {| ChartMore.px := default 0 (published_at release);
       ChartMore.py := Spec.Zsum (download_count <$> assets release);
       ChartMore.label := tag_name release |} in
  let drawn :=
    filter (λ release, 0 < Spec.Zsum (download_count <$> assets release))
      releases in
  ChartMore.lineData releases ≡ₚ point <$> drawn
  ∧ StronglySorted (λ a b, ChartMore.px a ≤ ChartMore.px b)
      (ChartMore.lineData releases)
  ∧ (∀ date,
       filter (λ p, ChartMore.px p = date) (ChartMore.lineData releases)
       = filter (λ p, ChartMore.px p = date) (point <$> drawn))
  ∧ (Forall (λ r, Forall (λ a, 0 ≤ download_count a) (assets r)) releases →
     Spec.Zsum (ChartMore.py <$> ChartMore.lineData releases)
     = Spec.Zsum (download_count <$> (releases ≫= assets))).
Proof.
  intros point drawn. split_and!.
  - rewrite lineData_releases. apply js_sort_perm.
  - apply js_sort_sorted.
    + intros a b c ??; simpl in *. lia.
    + intros a b; simpl. lia.
    + intros a b; simpl. lia.
  - intros date. rewrite lineData_releases.
    apply (js_sort_stable ChartMore.px). intros a b Hab. lia.
  - intros Hcounts. rewrite lineData_sum by done.
    apply totalDownloadsOf_sum.
Qed.

Lemma lineDatasets_data repoOrder keys releasesData label data :
  (label, data) ∈ ChartMore.lineDatasets repoOrder keys releasesData →
  ∃ releases,
    releasesData !! label = Some releases
    ∧ releases ≠ [] ∧ data = ChartMore.lineData releases.
Proof.
  unfold ChartMore.lineDatasets. rewrite list_elem_of_omap.
  intros (id & _ & Hid).
  destruct (releasesData !! id) as [[|e events]|] eqn:Hlook;
    simplify_eq. eauto.
Qed.

(** X15.  The chart and the table agree: in every state that the engine
    reaches, the points that the chart of the downloads draws for a
    repository add up to the total downloads in the row of that
    repository, when no download count is negative. *)
Theorem downloads_chart_matches_table
    (t : string → string) (token : string)
    (sets : gmap string (list string)) (s : State) (keys : list string)
    (label : string) (data : list ChartMore.LabelledPoint)
    (row : RepoSummary) :
  sets_wf sets →
  reaches t intent_wf (initial token sets) s →
  map_Forall
    (λ _ releases,
       Forall (λ r, Forall (λ a, 0 ≤ download_count a) (assets r)) releases)
    (_releasesData s) →
  (label, data)
    ∈ ChartMore.lineDatasets (_repoOrder s) keys (_releasesData s) →
  row ∈ _repoSummaryData s →
  identifier row = label →
  Spec.Zsum (ChartMore.py <$> data) = totalDownloads row.
Proof.
  intros Hsets Hreach Hcounts Hdata Hrow Hlabel.
  destruct (reaches_coherent t token sets s Hsets Hreach)
    as (_ & _ & Hrows).
  rewrite Forall_forall in Hrows.
  destruct (Hrows row Hrow) as (releases & Hrel & -> & _).
  apply lineDatasets_data in Hdata as (releases' & Hrel' & _ & ->).
  rewrite Hlabel, Hrel' in Hrel. simplify_eq.
  apply lineData_sum. by eapply Hcounts.
Qed.

Lemma downloads_chart_points_witness :
  let releases :=
    [{| tag_name := "v2"; published_at := Some 9;
        assets := [{| download_count := 3 |}; {| download_count := 4 |}] |};
     {| tag_name := "v1"; published_at := Some 5;
        assets := [{| download_count := 0 |}] |};
     {| tag_name := "v0"; published_at := Some 2;
        assets := [{| download_count := 1 |}] |}] in
  ChartMore.lineData releases
  = [{| ChartMore.px := 2; ChartMore.py := 1; ChartMore.label := "v0" |};
     {| ChartMore.px := 9; ChartMore.py := 7; ChartMore.label := "v2" |}]
  ∧ Forall (λ r, Forall (λ a, 0 ≤ download_count a) (assets r)) releases
  ∧ Spec.Zsum (ChartMore.py <$> ChartMore.lineData releases)
    = Spec.Zsum (download_count <$> (releases ≫= assets)).
Proof.
  intros releases.
  assert (Forall (λ r, Forall (λ a, 0 ≤ download_count a) (assets r))
            releases) as Hcounts
    by (repeat constructor; simpl; lia).
  split; [by vm_compute|]. split; [exact Hcounts|].
  pose proof (downloads_chart_points releases) as H. cbv zeta in H.
  destruct H as (_ & _ & _ & Hsum). by apply Hsum.
Defined.

Lemma downloads_chart_matches_table_witness :
  Spec.Zsum
    (ChartMore.py
       <$> ChartMore.lineData
             [{| tag_name := "v1"; published_at := Some 5;
                 assets := [{| download_count := 3 |};
                            {| download_count := 4 |}] |}])
  = totalDownloads
      {| identifier := "rocq/stdlib"; stars := 6; latestVersion := "v1";
         lastUpdate := "2024-01-01T00:00:00Z"; size := 7;
         totalDownloads := 7; openIssues := 2 |}.
Proof.
  apply (downloads_chart_matches_table Examples.t EmptyString ∅
           Examples.twoRepos ["octocat/Hello-World"; "rocq/stdlib"]
           "rocq/stdlib").
  - intros name ids Hlook. by rewrite lookup_empty in Hlook.
  - apply (reaches_step _ _ _ _
             (AddRepo "rocq" "stdlib" Examples.okOctokit)); [|by split].
    apply (reaches_step _ _ _ _
             (AddRepo "octocat" "Hello-World" Examples.okOctokit));
      [|by split].
    apply reaches_here.
  - apply (bool_decide_unpack _). vm_compute. exact I.
  - vm_compute. repeat constructor.
  - vm_compute. repeat constructor.
  - reflexivity.
Defined.

(** ** The chart of the open issues, further *)

Lemma issueData_openCount issues :
  Chart.issueData issues
  = match Chart.sortedTimes (Chart.eventsByTime issues) with
    | first :: _ => [Chart.mkPoint (first - 1) 0]
    | [] => []
    end
    ++ ((λ time, Chart.mkPoint time (Spec.openCount issues time))
          <$> Chart.sortedTimes (Chart.eventsByTime issues)).
Proof.
  pose proof (sortedTimes_sorted (Chart.eventsByTime issues)) as Hsorted.
  unfold Chart.issueData. cbv zeta. f_equal.
  destruct (Chart.sortedTimes (Chart.eventsByTime issues))
    as [|first rest] eqn:Htimes; [done|].
  assert (Forall (λ d, d.1 ∈ first :: rest) (Spec.deltas issues)) as Hin.
  { rewrite Forall_forall. intros d Hd. rewrite <-Htimes.
    apply sortedTimes_deltas. by apply list_elem_of_fmap_2. }
  apply StronglySorted_cons in Hsorted as Hfirst.
  destruct Hfirst as [Hfirst _].
  rewrite <-(openCount_before issues (first - 1)).
  - apply sweep_openCount; [done| |].
    + constructor; [lia|]. eapply Forall_impl; [exact Hfirst|].
      intros time ?. simpl in *. lia.
    + eapply Forall_impl; [exact Hin|]. by right.
  - eapply Forall_impl; [exact Hin|]. intros d Hd.
    apply elem_of_cons in Hd as [->|Hd]; [lia|].
    rewrite Forall_forall in Hfirst. specialize (Hfirst _ Hd). lia.
Qed.

Lemma deltas_cons issue issues :
  Spec.deltas (issue :: issues)
  = (Chart.created_at issue, 1)
      :: match Chart.closed_at issue with
         | Some closedTime => [(closedTime, -1)]
         | None => []
         end ++ Spec.deltas issues.
Proof. done. Qed.

Lemma openCount_nonneg issues time :
  Forall (λ i, ∀ c, Chart.closed_at i = Some c → Chart.created_at i ≤ c)
    issues →
  0 ≤ Spec.openCount issues time.
Proof.
  unfold Spec.openCount. induction 1 as [|issue issues Hissue _ IH]; [done|].
  rewrite deltas_cons.
  destruct (Chart.closed_at issue) as [c|] eqn:Hclosed.
  - specialize (Hissue c eq_refl). cbn [app].
    rewrite !filter_cons. cbn [fst].
    repeat case_decide; rewrite ?Zsum_snd_cons; cbn [snd]; lia.
  - cbn [app]. rewrite filter_cons. cbn [fst].
    case_decide; rewrite ?Zsum_snd_cons; cbn [snd]; lia.
Qed.

Lemma deltas_total issues :
  Spec.Zsum (snd <$> Spec.deltas issues)
  = Z.of_nat (length (filter (λ i, Chart.closed_at i = None) issues)).
Proof.
  induction issues as [|issue issues IH]; [done|].
  rewrite deltas_cons, filter_cons.
  destruct (Chart.closed_at issue) as [c|] eqn:Hclosed.
  - rewrite decide_False by done. cbn [app].
    rewrite !Zsum_snd_cons. cbn [snd]. lia.
  - rewrite decide_True by done. cbn [app length].
    rewrite Zsum_snd_cons. cbn [snd]. lia.
Qed.

(** X16.  When no issue was closed before it was created, the series of
    the open issues never goes below zero, and it ends at the number of the
    issues that are still open. *)
Theorem open_issue_series_is_never_negative
    (issues : list Chart.IssueEvent) :
  Forall (λ i, ∀ c, Chart.closed_at i = Some c → Chart.created_at i ≤ c)
    issues →
  Forall (λ p, 0 ≤ Chart.y p) (Chart.issueData issues)
  ∧ (issues ≠ [] →
     Chart.y <$> last (Chart.issueData issues)
     = Some (Z.of_nat
               (length (filter (λ i, Chart.closed_at i = None) issues)))).
Proof.
  intros Hclosed. rewrite issueData_openCount.
  pose proof (sortedTimes_sorted (Chart.eventsByTime issues)) as Hsorted.
  pose proof (sortedTimes_deltas issues) as Helem.
  set (times := Chart.sortedTimes (Chart.eventsByTime issues)) in *.
  split.
  - apply Forall_app. split.
    + destruct times; by repeat constructor.
    + apply Forall_fmap, Forall_forall. intros time _. simpl.
      by apply openCount_nonneg.
  - intros Hne.
    destruct (last times) as [final|] eqn:Hlast.
    + rewrite last_app, fmap_last, Hlast. cbn [fmap option_fmap option_map
        Chart.y].
      f_equal. rewrite <-deltas_total. unfold Spec.openCount.
      rewrite filter_all; [done|].
      apply last_Some in Hlast as [earlier Htimes].
      rewrite Htimes in Hsorted.
      apply StronglySorted_app in Hsorted as (Hlt & _ & _).
      apply Forall_forall. intros d Hd.
      assert (d.1 ∈ times) as Hin
        by (by apply Helem, list_elem_of_fmap_2).
      rewrite Htimes in Hin.
      apply elem_of_app in Hin as [Hin|Hin].
      * specialize (Hlt d.1 final Hin). rewrite list_elem_of_singleton in Hlt.
        specialize (Hlt eq_refl). lia.
      * apply list_elem_of_singleton in Hin. lia.
    + apply last_None in Hlast. destruct issues as [|issue issues]; [done|].
      assert (Chart.created_at issue ∈ times) as Hin.
      { apply Helem. rewrite deltas_cons, fmap_cons. left. }
      rewrite Hlast in Hin. by apply elem_of_nil in Hin.
Qed.

Lemma open_issue_series_is_never_negative_witness :
  Forall (λ p, 0 ≤ Chart.y p)
    (Chart.issueData
       [{| Chart.created_at := 1; Chart.closed_at := Some 5 |};
        {| Chart.created_at := 3; Chart.closed_at := None |}])
  ∧ ([{| Chart.created_at := 1; Chart.closed_at := Some 5 |};
      {| Chart.created_at := 3; Chart.closed_at := None |}] ≠ [] →
     Chart.y
       <$> last (Chart.issueData
                   [{| Chart.created_at := 1; Chart.closed_at := Some 5 |};
                    {| Chart.created_at := 3; Chart.closed_at := None |}])
     = Some (Z.of_nat
               (length
                  (filter (λ i, Chart.closed_at i = None)
                     [{| Chart.created_at := 1; Chart.closed_at := Some 5 |};
                      {| Chart.created_at := 3;
                         Chart.closed_at := None |}])))).
Proof.
  apply (open_issue_series_is_never_negative
           [{| Chart.created_at := 1; Chart.closed_at := Some 5 |};
            {| Chart.created_at := 3; Chart.closed_at := None |}]).
  repeat constructor; simpl; intros c Hc; simplify_eq; lia.
Defined.

(** ** The chart of the stars and the cache of the engine *)

(** The comparator of [starEvents.sort] and the order that it decides. *)
Lemma star_sort_idemp events :
  js_sort (λ a b, Chart.starred_at a - Chart.starred_at b)
    (js_sort (λ a b, Chart.starred_at a - Chart.starred_at b) events)
  = js_sort (λ a b, Chart.starred_at a - Chart.starred_at b) events.
Proof.
  apply (js_sort_sorted_id _
           (λ a b, Chart.starred_at a ≤ Chart.starred_at b)).
  - intros a b. lia.
  - apply js_sort_sorted.
    + intros a b c ??; simpl in *. lia.
    + intros a b; simpl. lia.
    + intros a b; simpl. lia.
Qed.

Lemma drawStar_step datasets m m0 id :
  sorted_version m m0 →
  (ChartMore.drawStar (datasets, m) id).1
  = datasets
    ++ match m0 !! id with
       | None | Some [] => []
       | Some starEvents => [(id, Chart.starData starEvents)]
       end
  ∧ sorted_version (ChartMore.drawStar (datasets, m) id).2 m0.
Proof.
  intros Hm. unfold ChartMore.drawStar.
  assert (∀ events,
            m0 !! id = Some events →
            m !! id = Some events
            ∨ m !! id
              = Some (js_sort
                        (λ a b, Chart.starred_at a - Chart.starred_at b)
                        events)) as Hid.
  { intros events Hevents. destruct (Hm id) as [H|H];
      rewrite H, Hevents; auto. }
  destruct (m0 !! id) as [[|e events]|] eqn:H0.
  - destruct (Hid [] eq_refl) as [-> | ->];
      cbn; by rewrite app_nil_r.
  - assert (∀ starEvents,
              m !! id = Some starEvents →
              starEvents ≠ []
              ∧ js_sort (λ a b, Chart.starred_at a - Chart.starred_at b)
                  starEvents
                = js_sort (λ a b, Chart.starred_at a - Chart.starred_at b)
                    (e :: events)) as Hsame.
    { intros starEvents Hstar.
      destruct (Hid _ eq_refl) as [H|H]; rewrite H in Hstar;
        simplify_eq; [done|].
      split; [|apply star_sort_idemp].
      intros Hnil. apply (f_equal length) in Hnil.
      by rewrite js_sort_length in Hnil. }
    destruct (m !! id) as [starEvents|] eqn:Hstar;
      [|by destruct (Hid _ eq_refl)].
    destruct (Hsame starEvents eq_refl) as [Hne Hsort].
    destruct starEvents as [|e' events']; [done|].
    cbn [fst snd]. rewrite Hsort. split; [done|].
    intros id'. destruct (decide (id' = id)) as [->|Hid'].
    + right. by rewrite lookup_insert_eq, H0.
    + rewrite lookup_insert_ne by done. apply Hm.
  - destruct (Hm id) as [H|H]; rewrite H, H0; cbn;
      by rewrite app_nil_r.
Qed.

Lemma drawStar_fold order datasets m m0 :
  sorted_version m m0 →
  (foldl ChartMore.drawStar (datasets, m) order).1
  = datasets
    ++ omap (λ repoIdentifier,
               match m0 !! repoIdentifier with
               | None | Some [] => None
               | Some starEvents =>
                   Some (repoIdentifier, Chart.starData starEvents)
               end)
         order
  ∧ sorted_version (foldl ChartMore.drawStar (datasets, m) order).2 m0.
Proof.
  revert datasets m. induction order as [|id order IH]; intros datasets m Hm.
  { simpl. by rewrite app_nil_r. }
  cbn [foldl].
  destruct (drawStar_step datasets m m0 id Hm) as [Hdata Hnext].
  destruct (ChartMore.drawStar (datasets, m) id) as [datasets' m'].
  cbn [fst snd] in *. subst datasets'.
  match goal with
  | |- context [foldl ChartMore.drawStar (?d, m') order] =>
      destruct (IH d m' Hnext) as [-> Hfinal]
  end.
  split; [|done].
  rewrite <-(assoc_L (++)). f_equal. cbn [omap list_omap].
  by destruct (m0 !! id) as [[|??]|].
Qed.

Lemma sorted_version_datasets (order : list string) m m0 :
  sorted_version m m0 →
  omap (λ repoIdentifier,
          match m !! repoIdentifier with
          | None | Some [] => None
          | Some starEvents =>
              Some (repoIdentifier, Chart.starData starEvents)
          end)
       order
  = omap (λ repoIdentifier,
            match m0 !! repoIdentifier with
            | None | Some [] => None
            | Some starEvents =>
                Some (repoIdentifier, Chart.starData starEvents)
            end)
         order.
Proof.
  intros Hm. induction order as [|id order IH]; [done|].
  cbn [omap list_omap]. rewrite IH.
  destruct (Hm id) as [-> | ->]; [done|].
  destruct (m0 !! id) as [[|e events]|]; try done.
  cbn [fmap option_fmap option_map].
  destruct (js_sort _ (e :: events)) as [|e' events'] eqn:Hsort.
  { apply (f_equal length) in Hsort. by rewrite js_sort_length in Hsort. }
  rewrite <-Hsort. unfold Chart.starData. cbv zeta.
  by rewrite star_sort_idemp.
Qed.

(** X17.  Drawing the chart of the stars sorts the arrays of the star
    events where they are, in the cache of the engine.  That does no harm:
    the datasets drawn are those of the events as they were, also when an
    identifier comes twice in the order; each array of the cache is
    afterwards what it was or that array sorted by date; and drawing again
    from the cache so changed gives the same datasets.  This holds for the
    display order and, when it is empty, for the keys of the cache in the
    order of their insertion, which the sort of an array leaves alone. *)
Theorem star_chart_sorts_cache_in_place
    (repoOrder keys : list string)
    (stargazersData : gmap string (list Chart.StarEvent)) :
  (ChartMore.drawStars repoOrder keys stargazersData).1
  = Chart.starDatasets repoOrder keys stargazersData
  ∧ (∀ id,
       (ChartMore.drawStars repoOrder keys stargazersData).2 !! id
       = stargazersData !! id
       ∨ (ChartMore.drawStars repoOrder keys stargazersData).2 !! id
         = js_sort (λ a b, Chart.starred_at a - Chart.starred_at b)
             <$> stargazersData !! id)
  ∧ (ChartMore.drawStars repoOrder keys
       (ChartMore.drawStars repoOrder keys stargazersData).2).1
    = (ChartMore.drawStars repoOrder keys stargazersData).1.
Proof.
  unfold ChartMore.drawStars, Chart.starDatasets.
  generalize (Chart.chartOrder repoOrder keys) as order. intros order.
  assert (sorted_version stargazersData stargazersData) as Hrefl
    by (by left).
  destruct (drawStar_fold order [] stargazersData stargazersData Hrefl)
    as [Hdata Hcache].
  split_and!; [done|done|].
  set (cache := (foldl ChartMore.drawStar ([], stargazersData) order).2)
    in *.
  assert (sorted_version cache cache) as Hrefl' by (by left).
  destruct (drawStar_fold order [] cache cache Hrefl') as [-> _].
  rewrite Hdata. cbn [app]. by apply sorted_version_datasets.
Qed.

Lemma star_chart_sorts_cache_in_place_witness :
  let stargazersData : gmap string (list Chart.StarEvent) :=
    {[ "a/b" := [{| Chart.starred_at := 2 |};
                 {| Chart.starred_at := 1 |}] ]} in
  (ChartMore.drawStars ["a/b"; "a/b"] ["a/b"] stargazersData).1
  = Chart.starDatasets ["a/b"; "a/b"] ["a/b"] stargazersData
  ∧ (ChartMore.drawStars ["a/b"; "a/b"] ["a/b"] stargazersData).2
    = {[ "a/b" := [{| Chart.starred_at := 1 |};
                   {| Chart.starred_at := 2 |}] ]}
  ∧ (ChartMore.drawStars [] ["a/b"]
       (ChartMore.drawStars [] ["a/b"] stargazersData).2).1
    = (ChartMore.drawStars [] ["a/b"] stargazersData).1.
Proof.
  intros stargazersData.
  destruct (star_chart_sorts_cache_in_place ["a/b"; "a/b"] ["a/b"]
              stargazersData) as (Hdrawn & _ & _).
  destruct (star_chart_sorts_cache_in_place [] ["a/b"] stargazersData)
    as (_ & _ & Hagain).
  split; [exact Hdrawn|]. split; [by vm_compute|exact Hagain].
Defined.

(** ** The table on display *)

(** Where every identifier has one row, looking the rows up by their
    identifiers gives the rows back. *)
Lemma orderedData_ids (rows shown : list RepoSummary) :
  NoDup (identifier <$> rows) →
  Forall (λ row, row ∈ rows) shown →
  Table.orderedData (identifier <$> shown) rows = shown.
Proof.
  intros Hnodup. unfold Table.orderedData.
  induction 1 as [|row shown Hrow _ IH]; [done|].
  rewrite fmap_cons. cbn [omap list_omap]. rewrite IH.
  destruct (list_find _ rows) as [[i d]|] eqn:Hfind; simpl.
  - apply list_find_Some in Hfind as (Hd & Hid & _).
    apply list_elem_of_lookup in Hrow as [j Hj].
    assert (i = j) as ->; [|congruence].
    eapply NoDup_lookup; [exact Hnodup|..];
      rewrite list_lookup_fmap; [by rewrite Hd|by rewrite Hj, Hid].
  - apply list_find_None in Hfind. rewrite Forall_forall in Hfind.
    by destruct (Hfind row Hrow).
Qed.

(** Every identifier has one row, in every state that the engine
    reaches. *)
Lemma run_rows_nodup t s i :
  intent_wf s i → base_inv s →
  NoDup (identifier <$> _repoSummaryData s) →
  NoDup (identifier <$> _repoSummaryData (run t s i)).
Proof.
  intros Hwf Hbase Hrows.
  pose proof (run_base_inv t s i Hwf Hbase) as (_ & Hnodup & _).
  destruct (batchOf s i) as [[octokit repos]|] eqn:Hbatch.
  { destruct (run_batch_shape t s i octokit repos Hbatch)
      as (s3 & Hrun & Hrepos & _ & _ & Hrows3).
    rewrite Hrun in Hnodup |- *.
    pose proof (fetchSettle_fields t octokit s3) as Hfields.
    cbv zeta in Hfields. destruct Hfields as (Hrepos' & _ & Hfields).
    rewrite Hrepos' in Hnodup.
    destruct (Promise_all _).
    - destruct Hfields as [_ ->]. done.
    - destruct Hfields as [_ ->]. by rewrite Hrows3. }
  pose proof (run_quiet_data t s i Hbatch) as Hquiet.
  destruct i as [?u ?v ?octokit|?r|?key ?octokit|?newOrder| |?name
                |?name ?octokit|?name|?name|?token ?octokit];
    try (destruct Hquiet as (_ & _ & ->); done);
    cbn [run] in *.
  - rewrite removeRepo_state. cbn [_repoSummaryData].
    pose proof (fmap_filter identifier (λ id, id ≠ repoIdentifier r)
                  (_repoSummaryData s)) as Hfilter.
    cbv beta in Hfilter. rewrite Hfilter. by apply NoDup_filter.
  - by destruct (requestSort_fields t octokit key s) as (_ & _ & -> & _).
  - by destruct (setNewOrder_fields newOrder s) as (_ & _ & -> & _).
  - destruct (clearAction_fields s) as (_ & _ & -> & _). constructor.
  - unfold _handleSaveSetConfirm. case_decide; by destruct s.
  - unfold deleteAction. by destruct s.
  - unfold _handleUpdateSet. by destruct s.
Qed.

Lemma reaches_rows_nodup t token sets s :
  sets_wf sets → reaches t intent_wf (initial token sets) s →
  NoDup (identifier <$> _repoSummaryData s).
Proof.
  intros Hsets Hreach. induction Hreach as [|s i Hreach IH Hwf].
  - constructor.
  - apply run_rows_nodup; [done| |done].
    eapply reaches_base_inv; [|by apply initial_base_inv|exact Hreach].
    done.
Qed.

(** X18.  After a sort that is carried out, in any state that the engine
    reaches, the table shows what was asked for: the rows that the table
    looks up along the display order are all the rows, each once, and from
    top to bottom their values under the key never go against the sort
    direction. *)
Theorem table_shows_the_sorted_rows
    (t : string → string) (token : string)
    (sets : gmap string (list string)) (s : State)
    (octokit : Octokit) (key : SortKey) :
  sets_wf sets →
  reaches t intent_wf (initial token sets) s →
  sortable key s →
  Table.orderedData (_repoOrder (_handleRequestSort t octokit key s).1)
    (_repoSummaryData (_handleRequestSort t octokit key s).1)
  ≡ₚ _repoSummaryData s
  ∧ StronglySorted
      (in_order key (_sortDirection (_handleRequestSort t octokit key s).1))
      (Table.orderedData (_repoOrder (_handleRequestSort t octokit key s).1)
         (_repoSummaryData (_handleRequestSort t octokit key s).1)).
Proof.
  intros Hsets Hreach Hsort.
  pose proof (reaches_rows_nodup t token sets s Hsets Hreach) as Hnodup.
  pose proof (requestSort_outcome t octokit key s Hsort) as H.
  cbv zeta in H. destruct H as (_ & Hdir & Horder & _ & Hrows & _).
  rewrite Horder, Hrows, Hdir, orderedData_ids; [|done|].
  - split; [apply js_sort_perm|].
    apply js_sort_sorted; [apply _..|]. apply sortCompare_in_order.
  - apply Forall_forall. intros row Hrow. by apply js_sort_elem in Hrow.
Qed.

Lemma table_shows_the_sorted_rows_witness :
  Table.orderedData
    (_repoOrder (_handleRequestSort Examples.t Examples.okOctokit
                   SortKey.size Examples.twoRepos).1)
    (_repoSummaryData (_handleRequestSort Examples.t Examples.okOctokit
                         SortKey.size Examples.twoRepos).1)
  ≡ₚ _repoSummaryData Examples.twoRepos
  ∧ StronglySorted
      (in_order SortKey.size
         (_sortDirection (_handleRequestSort Examples.t Examples.okOctokit
                            SortKey.size Examples.twoRepos).1))
      (Table.orderedData
         (_repoOrder (_handleRequestSort Examples.t Examples.okOctokit
                        SortKey.size Examples.twoRepos).1)
         (_repoSummaryData (_handleRequestSort Examples.t Examples.okOctokit
                              SortKey.size Examples.twoRepos).1)).
Proof.
  apply (table_shows_the_sorted_rows Examples.t EmptyString ∅
           Examples.twoRepos Examples.okOctokit SortKey.size).
  - intros name ids Hlook. by rewrite lookup_empty in Hlook.
  - apply (reaches_step _ _ _ _
             (AddRepo "rocq" "stdlib" Examples.okOctokit)); [|by split].
    apply (reaches_step _ _ _ _
             (AddRepo "octocat" "Hello-World" Examples.okOctokit));
      [|by split].
    apply reaches_here.
  - split; [done|]. right. done.
Defined.



(** ** The translations *)

Lemma append_cons c s1 s2 : String c s1 +:+ s2 = String c (s1 +:+ s2).
Proof. done. Qed.

Lemma append_nil s : EmptyString +:+ s = s.
Proof. done. Qed.

Lemma span_word_spec s :
  (Localize.span_word s).1 +:+ (Localize.span_word s).2 = s
  ∧ (String.length (Localize.span_word s).2 ≤ String.length s)%nat.
Proof.
  induction s as [|c s [IH1 IH2]]; [done|]. cbn [Localize.span_word].
  destruct (Localize.word_char c); [|by split].
  destruct (Localize.span_word s) as [word rest]. cbn [fst snd] in *.
  split; [by rewrite append_cons, IH1|]. cbn [String.length]. lia.
Qed.

Lemma string_app_assoc (s1 s2 s3 : string) :
  (s1 +:+ s2) +:+ s3 = s1 +:+ (s2 +:+ s3).
Proof.
  induction s1 as [|c s1 IH]; [done|]. by rewrite !append_cons, IH.
Qed.

Lemma placeholder_at_Some s placeholderKey rest :
  Localize.placeholder_at s = Some (placeholderKey, rest) →
  s = Localize.placeholder_of placeholderKey +:+ rest
  ∧ placeholderKey ≠ EmptyString
  ∧ (String.length rest < String.length s)%nat.
Proof.
  unfold Localize.placeholder_at. destruct s as [|c s]; [done|].
  case_decide as Hc; [|done]. subst c.
  destruct (span_word_spec s) as [Happ Hlen].
  destruct (Localize.span_word s) as [[|c' word] [|c'' rest']]; try done.
  case_decide as Hc''; [|done]. subst c''. intros [= <- <-].
  cbn [fst snd String.length] in *. split_and!; [|done|lia].
  subst s. unfold Localize.placeholder_of.
  by rewrite (append_cons Localize.lbrace), string_app_assoc.
Qed.

(** The bound on the steps is never reached: more steps than the string
    has characters change nothing. *)
Lemma replaceFrom_enough replacer n m s :
  (String.length s ≤ n)%nat → (String.length s ≤ m)%nat →
  Localize.replaceFrom n replacer s = Localize.replaceFrom m replacer s.
Proof.
  revert m s. induction n as [|n IH]; intros m s Hn Hm.
  { destruct s; [|simpl in Hn; lia]. by destruct m. }
  destruct m as [|m].
  { destruct s; [|simpl in Hm; lia]. done. }
  cbn [Localize.replaceFrom].
  destruct (Localize.placeholder_at s) as [[placeholderKey rest]|] eqn:Hat.
  - apply placeholder_at_Some in Hat as (_ & _ & Hlen).
    f_equal. apply IH; lia.
  - destruct s as [|c s]; [done|]. f_equal.
    cbn [String.length] in *. apply IH; lia.
Qed.

(** The replacement, step by step. *)
Lemma replace_unfold replacer s :
  Localize.replace replacer s
  = match Localize.placeholder_at s with
    | Some (placeholderKey, rest) =>
        replacer (Localize.placeholder_of placeholderKey) placeholderKey
        +:+ Localize.replace replacer rest
    | None =>
        match s with
        | String c rest => String c (Localize.replace replacer rest)
        | EmptyString => EmptyString
        end
    end.
Proof.
  unfold Localize.replace. destruct s as [|c s]; [done|].
  cbn [String.length Localize.replaceFrom].
  destruct (Localize.placeholder_at (String c s))
    as [[placeholderKey rest]|] eqn:Hat; [|done].
  apply placeholder_at_Some in Hat as (_ & _ & Hlen).
  f_equal. cbn [String.length] in Hlen. apply replaceFrom_enough; lia.
Qed.

(** A replacer that puts every placeholder back leaves the text as it
    is. *)
Lemma replace_id replacer s :
  (∀ placeholderKey,
     replacer (Localize.placeholder_of placeholderKey) placeholderKey
     = Localize.placeholder_of placeholderKey) →
  Localize.replace replacer s = s.
Proof.
  intros Hid. unfold Localize.replace.
  generalize (String.length s) as n. intros n. revert s.
  induction n as [|n IH]; intros s; [done|].
  cbn [Localize.replaceFrom].
  destruct (Localize.placeholder_at s) as [[placeholderKey rest]|] eqn:Hat.
  - apply placeholder_at_Some in Hat as (-> & _ & _). by rewrite Hid, IH.
  - destruct s as [|c s]; [done|]. by rewrite IH.
Qed.

(** No match starts in a text without an opening brace. *)
Lemma replace_prefix replacer prefix s :
  includes Localize.lbrace prefix = false →
  Localize.replace replacer (prefix +:+ s)
  = prefix +:+ Localize.replace replacer s.
Proof.
  induction prefix as [|c prefix IH]; [done|]. cbn [includes].
  case_decide as Hc; [done|]. intros Hprefix.
  rewrite append_cons, replace_unfold.
  unfold Localize.placeholder_at at 1. rewrite decide_False by done.
  by rewrite IH.
Qed.

Lemma replace_plain replacer s :
  includes Localize.lbrace s = false → Localize.replace replacer s = s.
Proof.
  intros Hs.
  assert (s +:+ EmptyString = s) as Happ.
  { clear. induction s as [|c s IH]; [done|]. rewrite append_cons. congruence. }
  rewrite <-Happ at 1. rewrite replace_prefix by done.
  by rewrite replace_unfold.
Qed.

Lemma span_word_word word rest :
  is_word word = true →
  (Localize.span_word (word +:+ String Localize.rbrace rest))
  = (word, String Localize.rbrace rest).
Proof.
  induction word as [|c word IH]; [done|]. cbn [is_word].
  intros [Hc Hword]%andb_true_iff. rewrite append_cons.
  cbn [Localize.span_word]. by rewrite Hc, IH.
Qed.

Lemma replace_placeholder replacer placeholderKey rest :
  placeholderKey ≠ EmptyString → is_word placeholderKey = true →
  Localize.replace replacer (Localize.placeholder_of placeholderKey +:+ rest)
  = replacer (Localize.placeholder_of placeholderKey) placeholderKey
    +:+ Localize.replace replacer rest.
Proof.
  intros Hne Hword. rewrite replace_unfold.
  unfold Localize.placeholder_of at 1. rewrite append_cons.
  unfold Localize.placeholder_at. rewrite decide_True by done.
  rewrite string_app_assoc, append_cons, append_nil.
  rewrite span_word_word by done.
  destruct placeholderKey as [|c word]; [done|].
  by rewrite decide_True.
Qed.

(** A replacer that puts the placeholders of the text back leaves the
    text as it is. *)
Lemma replaceFrom_id replacer n s :
  (∀ placeholderKey,
     placeholderKey ∈ placeholdersFrom n s →
     replacer (Localize.placeholder_of placeholderKey) placeholderKey
     = Localize.placeholder_of placeholderKey) →
  Localize.replaceFrom n replacer s = s.
Proof.
  revert s. induction n as [|n IH]; intros s Hid; [done|].
  cbn [Localize.replaceFrom placeholdersFrom] in *.
  destruct (Localize.placeholder_at s) as [[placeholderKey rest]|] eqn:Hat.
  - apply placeholder_at_Some in Hat as (-> & _ & _).
    rewrite Hid by left. rewrite IH; [done|].
    intros k Hk. apply Hid. by right.
  - destruct s as [|c s]; [done|]. by rewrite IH.
Qed.

(** X19.  A placeholder for which no value is given stays in the text:
    when the replacements give no value for the key of any placeholder of
    the text, whatever they give for other keys, [t] gives what it gives
    without replacements, braces included. *)
Theorem placeholders_without_value_stay
    (translations : Localize.Translations) (key : string)
    (replacements : string → option string) :
  (∀ text placeholderKey,
     Localize.walk (split Localize.dot key) translations
     = Some (Localize.Text text) →
     placeholderKey ∈ placeholders text →
     replacements placeholderKey = None) →
  Localize.t translations key (Some replacements)
  = Localize.t translations key None.
Proof.
  intros Hnone. unfold Localize.t. cbv zeta.
  destruct (Localize.walk _ translations) as [[text|entries]|]; try done.
  apply replaceFrom_id. intros placeholderKey Hkey.
  by rewrite (Hnone text placeholderKey).
Qed.

Lemma placeholders_without_value_stay_witness :
  let translations :=
    Localize.Table
      [("prompts",
        Localize.Table
          [("confirmDeleteSet", Localize.Text "Delete {setName}?")])] in
  let replacements (placeholderKey : string) :=
    if decide (placeholderKey = "constructor")
    then Some "function Object() { [native code] }"
    else if decide (placeholderKey = "name") then Some "v" else None in
  Localize.t translations "prompts.confirmDeleteSet" (Some replacements)
  = "Delete {setName}?".
Proof.
  intros translations replacements.
  apply (placeholders_without_value_stay translations
           "prompts.confirmDeleteSet" replacements).
  intros text placeholderKey [= <-] Hkey.
  vm_compute in Hkey. apply list_elem_of_singleton in Hkey. by subst.
Defined.

(** X20.  A placeholder is replaced by the value given for its key, and
    the value is put in as it is: for a text with one placeholder, of a key
    of word characters, between a prefix and a suffix without an opening
    brace, [t] gives the prefix, the value and the suffix, whatever the
    value contains. *)
Theorem placeholder_is_replaced_by_its_value
    (translations : Localize.Translations) (key : string)
    (replacements : string → option string)
    (prefix placeholderKey value suffix : string) :
  Localize.walk (split Localize.dot key) translations
  = Some (Localize.Text
            (prefix +:+ Localize.placeholder_of placeholderKey +:+ suffix)) →
  includes Localize.lbrace prefix = false →
  includes Localize.lbrace suffix = false →
  placeholderKey ≠ EmptyString →
  is_word placeholderKey = true →
  replacements placeholderKey = Some value →
  Localize.t translations key (Some replacements)
  = prefix +:+ value +:+ suffix.
Proof.
  intros Hwalk Hprefix Hsuffix Hne Hword Hvalue.
  unfold Localize.t. cbv zeta. rewrite Hwalk.
  rewrite replace_prefix, replace_placeholder, replace_plain by done.
  by rewrite Hvalue.
Qed.

Lemma placeholder_is_replaced_by_its_value_witness :
  Localize.t
    (Localize.Table
       [("prompts",
         Localize.Table
           [("confirmDeleteSet", Localize.Text "Delete {setName}?")])])
    "prompts.confirmDeleteSet"
    (Some (λ k, if decide (k = "setName") then Some "{my} set" else None))
  = "Delete " +:+ "{my} set" +:+ "?".
Proof.
  apply (placeholder_is_replaced_by_its_value
           (Localize.Table
              [("prompts",
                Localize.Table
                  [("confirmDeleteSet", Localize.Text "Delete {setName}?")])])
           "prompts.confirmDeleteSet"
           (λ k, if decide (k = "setName") then Some "{my} set" else None)
           "Delete " "setName" "{my} set" "?");
    (reflexivity || discriminate).
Defined.

(** X21.  A dotted key is a path: the part before the first dot chooses an
    entry of the table and the rest is looked up in that entry; [t] gives
    the text found at the end of the path, and the whole key when the path
    leads nowhere or ends at a table. *)
Theorem dotted_key_is_a_path
    (entries : list (string * Localize.Translations)) (k key' : string)
    (replacements : option (string → option string)) :
  includes Localize.dot k = false →
  Localize.t (Localize.Table entries) (k +:+ String Localize.dot key')
    replacements
  = match Localize.entry k entries with
    | Some sub =>
        match Localize.walk (split Localize.dot key') sub with
        | Some (Localize.Text _) => Localize.t sub key' replacements
        | _ => k +:+ String Localize.dot key'
        end
    | None => k +:+ String Localize.dot key'
    end.
Proof.
  intros Hk. unfold Localize.t. cbv zeta. rewrite split_app by done.
  cbn [Localize.walk].
  destruct (Localize.entry k entries) as [sub|]; [|done].
  by destruct (Localize.walk _ sub) as [[text|entries']|].
Qed.

Lemma dotted_key_is_a_path_witness :
  Localize.t
    (Localize.Table
       [("errors",
         Localize.Table [("fetchRepoData", Localize.Text "No data")])])
    ("errors" +:+ String Localize.dot "fetchRepoData") None
  = match Localize.entry "errors"
            [("errors",
              Localize.Table
                [("fetchRepoData", Localize.Text "No data")])] with
    | Some sub =>
        match Localize.walk (split Localize.dot "fetchRepoData") sub with
        | Some (Localize.Text _) => Localize.t sub "fetchRepoData" None
        | _ => "errors" +:+ String Localize.dot "fetchRepoData"
        end
    | None => "errors" +:+ String Localize.dot "fetchRepoData"
    end.
Proof.
  apply (dotted_key_is_a_path
           [("errors",
             Localize.Table [("fetchRepoData", Localize.Text "No data")])]
           "errors" "fetchRepoData" None).
  reflexivity.
Defined.

(** ** The probe of a user name *)

(** X22.  Typing a repository name that is among the suggestions is
    adding that repository: the engine is afterwards as after the request
    to add the repository under the user name in the form, and a name that
    is not among the suggestions is only put into the form. *)
Theorem suggested_name_submits_the_form
    (t : string → string) (octokit : Octokit) (detail : string)
    (f : Probe.Form) :
  Probe.engine (Probe._handleRepoInput t octokit detail f)
  = if decide (detail ∈ Probe._repoSuggestions f)
    then run t (Probe.engine f)
           (AddRepo (_newUsername (Probe.engine f)) detail octokit)
    else (Probe.engine f) <| _newRepository := detail |>.
Proof.
  unfold Probe._handleRepoInput. cbv zeta. cbn [Probe.engine run].
  replace (_newRepository ((Probe.engine f) <| _newRepository := detail |>))
    with detail by (by destruct (Probe.engine f)).
  case_decide; [|done]. f_equal; by destruct (Probe.engine f).
Qed.

(** The handlers of the probe with their requests settling at once are
    the handlers taken apart, each request settled when it is made. *)
Lemma usernameChange_apart t users f :
  Probe._handleUsernameChange t users f
  = let started := Probe.startUsernameChange users f in
    match started.2 with
    | [] => started.1
    | lookup :: _ =>
        let looked := Probe.settleLookup t lookup started.1 in
        match looked.2 with
        | [] => looked.1
        | listing :: _ => (Probe.settleLookup t listing looked.1).1
        end
    end.
Proof.
  unfold Probe._handleUsernameChange, Probe.startUsernameChange.
  cbv zeta. case_decide as Hname; [done|]. cbn [fst snd].
  destruct (Probe.getByUsername users _) as [repoCount|[status|]];
    cbn [Probe.settleLookup Probe.engine].
  - replace (_newUsername ((Probe.engine f) <| _error := EmptyString |>))
      with (_newUsername (Probe.engine f)) by (by destruct (Probe.engine f)).
    case_decide; [done|]. case_decide; [|done].
    unfold Probe._getUserRepos, Probe.startUserRepos.
    case_decide; [done|]. cbn [fst snd Probe.settleLookup].
    by destruct (Probe.listForUser users _).
  - repeat case_decide; done.
  - done.
Qed.

Lemma getUserRepos_apart t users username f :
  Probe._getUserRepos users username f
  = let started := Probe.startUserRepos users username f in
    match started.2 with
    | [] => started.1
    | listing :: _ => (Probe.settleLookup t listing started.1).1
    end.
Proof.
  unfold Probe._getUserRepos, Probe.startUserRepos. cbv zeta.
  case_decide; [done|]. cbn [fst snd Probe.settleLookup].
  by destruct (Probe.listForUser users _).
Qed.

Lemma listing_remains users (answer : Z + option Z)
    (lookups1 lookups2 more : list Probe.Lookup) :
  (∃ listed,
     Probe.RepoListing listed
     ∈ lookups1 ++ Probe.UserLookup users answer :: lookups2) →
  ∃ listed, Probe.RepoListing listed ∈ lookups1 ++ lookups2 ++ more.
Proof.
  intros [listed Hin]. exists listed.
  rewrite !elem_of_app in *. rewrite elem_of_cons in Hin.
  destruct Hin as [?|[?|?]]; [by left|done|by right; left].
Qed.

(** X23.  What the probe keeps true in whatever order the user names are
    changed, the button of the confirmation is pressed, the engine works
    and the requests settle.  The count of the confirmation is zero, when
    no confirmation is shown, or above fifty; when it is zero no user is
    named for a confirmation; and the flag of the suggestions being loaded
    is set only while a listing of repositories is under way. *)
Theorem confirmation_counts_above_threshold
    (t : string → string) (s0 : State) (f : Probe.Form)
    (lookups : list Probe.Lookup) :
  Probe.probes t (Probe.initialForm s0) f lookups →
  (Probe._repoCountForConfirm f = 0
   ∨ Probe.SUGGESTION_THRESHOLD < Probe._repoCountForConfirm f)
  ∧ (Probe._repoCountForConfirm f = 0 →
     Probe._userForConfirm f = EmptyString)
  ∧ (Probe._suggestionsLoading f = true →
     ∃ answer, Probe.RepoListing answer ∈ lookups).
Proof.
  induction 1 as [|f lookups s _ IH|f lookups users _ IH
                  |f lookups users _ IH
                  |f lookups1 lookup lookups2 _ IH].
  - split_and!; [by left|done|done].
  - done.
  - destruct IH as (Hcount & Huser & Hloading).
    unfold Probe.startUsernameChange. cbv zeta.
    case_decide; cbn [fst snd Probe._repoCountForConfirm
                        Probe._userForConfirm Probe._suggestionsLoading].
    + rewrite app_nil_r. done.
    + split_and!; [by left|done|].
      intros Hflag. destruct (Hloading Hflag) as [answer Hin].
      exists answer. apply elem_of_app. by left.
  - destruct IH as (Hcount & Huser & Hloading).
    unfold Probe.startUserRepos.
    case_decide; cbn [fst snd Probe._repoCountForConfirm
                        Probe._userForConfirm Probe._suggestionsLoading].
    + rewrite app_nil_r. done.
    + split_and!; [by left|done|]. intros _.
      eexists. apply elem_of_app. right. left.
  - destruct IH as (Hcount & Huser & Hloading).
    destruct lookup as [users [repoCount|[status|]]|answer];
      cbn [Probe.settleLookup].
    + case_decide as Hbig; [|case_decide as Hsome].
      * cbn [fst snd Probe._repoCountForConfirm Probe._userForConfirm
               Probe._suggestionsLoading].
        split_and!; [by right| |].
        -- intros Hzero. unfold Probe.SUGGESTION_THRESHOLD in Hbig. lia.
        -- intros Hflag. by eapply listing_remains, Hloading.
      * unfold Probe.startUserRepos.
        case_decide; cbn [fst snd Probe._repoCountForConfirm
                            Probe._userForConfirm
                            Probe._suggestionsLoading].
        -- split_and!; [done|done|].
           intros Hflag. by eapply listing_remains, Hloading.
        -- split_and!; [by left|done|]. intros _.
           eexists. rewrite !elem_of_app. right. right. left.
      * cbn [fst snd]. split_and!; [done|done|].
        intros Hflag. by eapply listing_remains, Hloading.
    + repeat case_decide;
        cbn [fst snd Probe._repoCountForConfirm Probe._userForConfirm
               Probe._suggestionsLoading];
        (split_and!; [done|done|]);
        intros Hflag; by eapply listing_remains, Hloading.
    + cbn [fst snd]. split_and!; [done|done|].
      intros Hflag. by eapply listing_remains, Hloading.
    + cbn [fst snd Probe._repoCountForConfirm Probe._userForConfirm
             Probe._suggestionsLoading].
      split_and!; [done|done|done].
Qed.

Lemma crossed_probes :
  Probe.probes Examples.t (Probe.initialForm Examples.fresh)
    Scenarios.crossed [].
Proof.
  pose proof (Probe.probes_here Examples.t
                (Probe.initialForm Examples.fresh)) as H.
  apply (Probe.probes_engine _ _ _ _
           (Examples.fresh <| _newUsername := "octocat" |>)) in H.
  apply (Probe.probes_change _ _ _ _ Scenarios.smallUsers) in H.
  match type of H with
  | Probe.probes _ _ _ ?lookups =>
      assert (lookups = [] ++ Probe.UserLookup Scenarios.smallUsers (inl 3)
                              :: []) as Hlookups
        by (vm_compute; reflexivity);
      rewrite Hlookups in H; clear Hlookups
  end.
  apply Probe.probes_settle in H.
  match type of H with
  | Probe.probes _ _ ?f _ =>
      apply (Probe.probes_engine _ _ _ _
               ((Probe.engine f) <| _newUsername := "torvalds" |>)) in H
  end.
  apply (Probe.probes_change _ _ _ _ Scenarios.bigUsers) in H.
  match type of H with
  | Probe.probes _ _ _ ?lookups =>
      assert (lookups
              = [Probe.RepoListing (Some ["dotfiles"])]
                  ++ Probe.UserLookup Scenarios.bigUsers (inl 120) :: [])
        as Hlookups by (vm_compute; reflexivity);
      rewrite Hlookups in H; clear Hlookups
  end.
  apply Probe.probes_settle in H.
  match type of H with
  | Probe.probes _ _ _ ?lookups =>
      assert (lookups = [] ++ Probe.RepoListing (Some ["dotfiles"]) :: [])
        as Hlookups by (vm_compute; reflexivity);
      rewrite Hlookups in H; clear Hlookups
  end.
  apply Probe.probes_settle in H.
  match type of H with
  | Probe.probes _ _ ?f ?lookups =>
      assert (f = Scenarios.crossed) as Hform by (vm_compute; reflexivity);
      assert (lookups = []) as Hlookups by (vm_compute; reflexivity);
      rewrite Hform, Hlookups in H
  end.
  exact H.
Qed.

Lemma confirmation_counts_above_threshold_witness :
  let f := Scenarios.crossed in
  (Probe._repoCountForConfirm f = 0
   ∨ Probe.SUGGESTION_THRESHOLD < Probe._repoCountForConfirm f)
  ∧ (Probe._repoCountForConfirm f = 0 →
     Probe._userForConfirm f = EmptyString)
  ∧ (Probe._suggestionsLoading f = true →
     ∃ answer, Probe.RepoListing answer ∈ ([] : list Probe.Lookup)).
Proof.
  apply (confirmation_counts_above_threshold Examples.t Examples.fresh
           Scenarios.crossed []).
  apply crossed_probes.
Defined.

(** Two probes that cross leave a confirmation on display together with
    suggestions: the confirmation is for the user typed in last, the
    suggestions are the repositories of the user typed in first. *)
Lemma crossed_probes_show_both :
  Probe._repoCountForConfirm Scenarios.crossed = 120
  ∧ Probe._userForConfirm Scenarios.crossed = "torvalds"
  ∧ Probe._repoSuggestions Scenarios.crossed = ["dotfiles"]
  ∧ Probe._suggestionsLoading Scenarios.crossed = false.
Proof. by vm_compute. Qed.


(** X24.  The probe of a user name touches nothing of the engine but the
    error message.  After a username change the engine is the one of
    before with its error message replaced; the message is the one of
    before (when the form has no user name), none, the one for the rate
    limit (only on status 403) or the one for the network (only on another
    status than 403 and 404); a user that is not found, and an error
    without a status, leave none. *)
Theorem probe_touches_only_the_error
    (t : string → string) (users : Probe.Users) (f : Probe.Form) :
  Probe.engine (Probe._handleUsernameChange t users f)
  = (Probe.engine f)
      <| _error := _error (Probe.engine
                             (Probe._handleUsernameChange t users f)) |>
  ∧ _error (Probe.engine (Probe._handleUsernameChange t users f))
    = if decide (_newUsername (Probe.engine f) = EmptyString)
      then _error (Probe.engine f)
      else match Probe.getByUsername users
                   (_newUsername (Probe.engine f)) with
           | inr (Some status) =>
               if decide (status = 403) then t "errors.rateLimitExceeded"
               else if decide (status = 404) then EmptyString
                    else t "errors.networkError"
           | _ => EmptyString
           end.
Proof.
  unfold Probe._handleUsernameChange. cbv zeta.
  case_decide as Hname; [by destruct (Probe.engine f)|].
  destruct (Probe.getByUsername users _) as [repoCount|[status|]].
  - unfold Probe._getUserRepos.
    rewrite (decide_False (P := _newUsername (Probe.engine f) = EmptyString))
      by done.
    repeat case_decide; by destruct (Probe.engine f).
  - repeat case_decide; by destruct (Probe.engine f).
  - by destruct (Probe.engine f).
Qed.

(** ** The chart of the stars and the bound of the collector *)

(** X25.  The chart of the stars of a repository never rises above a
    thousand.  The events that the collector returns are those of the first
    ten pages, a hundred a page at most, so the cumulative series drawn from
    them has at most a thousand points and counts from 1 up to their
    number, however many stars the repository has. *)
Theorem star_chart_is_capped
    (octokit : Octokit) (owner repo : string)
    (starEvents : list Chart.StarEvent) :
  page_sizes_ok (listStargazersForRepo octokit owner repo) →
  _fetchStargazers octokit owner repo = Some starEvents →
  (length (Chart.starData starEvents) ≤ 1000)%nat
  ∧ Forall (λ p, 1 ≤ Chart.y p ≤ 1000) (Chart.starData starEvents)
  ∧ Chart.y <$> last (Chart.starData starEvents)
    = if decide (starEvents = []) then None
      else Some (Z.of_nat (length starEvents)).
Proof.
  intros Hpages. unfold _fetchStargazers.
  rewrite stargazersLoop_take by (unfold MAX_STARGAZER_PAGES; lia).
  change (MAX_STARGAZER_PAGES - 0)%nat with 10%nat.
  destruct (Promise_all _) as [contents|] eqn:Hall; [|done].
  cbn. intros [= <-].
  destruct (first_pages_bound _ _ Hpages Hall) as [Hlen Hsize].
  apply concat_length_bound in Hsize.
  set (starEvents := concat contents) in *.
  assert (length starEvents ≤ 1000)%nat as Hbound by lia.
  clearbody starEvents. clear Hall Hlen Hsize contents Hpages.
  unfold Chart.starData. cbv zeta.
  set (sorted := js_sort _ starEvents).
  assert (length sorted = length starEvents) as Hsorted
    by apply js_sort_length.
  assert (Chart.y <$> Chart.cumulate 0 sorted
          = Z.of_nat <$> seq 1 (length starEvents)) as Hy.
  { rewrite cumulate_y, Hsorted. apply list_fmap_ext. intros _ i _. lia. }
  split_and!.
  - by rewrite <-(length_fmap Chart.y), Hy, length_fmap, length_seq.
  - apply (Forall_fmap Chart.y (λ z, 1 ≤ z ≤ 1000)). rewrite Hy.
    apply Forall_fmap, Forall_seq. intros i Hi. simpl. lia.
  - rewrite <-fmap_last, Hy. case_decide as Hnil.
    + by rewrite Hnil.
    + destruct (length starEvents) as [|n] eqn:Hn.
      { by destruct starEvents. }
      rewrite seq_S, fmap_app, last_app. simpl. f_equal; lia.
Qed.

Lemma star_chart_is_capped_witness :
  (length (Chart.starData
             (concat (replicate 10
                        (replicate 100 {| Chart.starred_at := 0 |})
                      ++ []))) ≤ 1000)%nat
  ∧ Forall (λ p, 1 ≤ Chart.y p ≤ 1000)
      (Chart.starData
         (concat (replicate 10 (replicate 100 {| Chart.starred_at := 0 |})
                  ++ [])))
  ∧ Chart.y
      <$> last (Chart.starData
                  (concat (replicate 10
                             (replicate 100 {| Chart.starred_at := 0 |})
                           ++ [])))
    = if decide (concat (replicate 10
                           (replicate 100 {| Chart.starred_at := 0 |})
                         ++ [])
                 = [])
      then None
      else Some (Z.of_nat
                   (length (concat (replicate 10
                                      (replicate 100
                                         {| Chart.starred_at := 0 |})
                                    ++ [])))).
Proof.
  apply (star_chart_is_capped
           {| listReleases := λ _ _, None;
              get := λ _ _, None;
              listStargazersForRepo := λ _ _,
                replicate 12 (Some (replicate 100 {| Chart.starred_at := 0 |}));
              listForRepo := λ _ _, [] |}
           "torvalds" "linux").
  - repeat constructor; simpl; rewrite length_replicate; lia.
  - vm_compute. reflexivity.
Defined.

(** ** The credential and the gate *)

(** X26.  Setting a credential opens the gate and removing it closes the
    gate again: after a credential that is not empty has been set, a sort
    by stars or by open issues is carried out, sort key and chart metric
    changed and no policy message shown; after the credential has been set
    to the empty text the same request is refused with the policy message
    and the sort key is left as it was. *)
Theorem credential_opens_the_gate
    (t : string → string) (octokit octokit' : Octokit) (token : string)
    (key : SortKey) (s : State) :
  key = SortKey.stars ∨ key = SortKey.openIssues →
  _sortKey (_handleRequestSort t octokit' key
              (run t s (SetCredential token octokit))).1
  = (if decide (token = EmptyString) then _sortKey s else key)
  ∧ _authError (_handleRequestSort t octokit' key
                  (run t s (SetCredential token octokit))).1
    = (if decide (token = EmptyString) then t "errors.authRequired"
       else EmptyString).
Proof.
  intros Hkey. cbn [run].
  pose proof (updateAuthToken_frame t octokit token s) as H.
  cbv zeta in H. destruct H as (_ & _ & Htoken & Hsort & _).
  case_decide as Hempty.
  - unfold _handleRequestSort. rewrite decide_True.
    + cbn [fst]. rewrite <-Hsort.
      by destruct (_updateAuthToken t octokit token s).
    + split; [done|]. rewrite <-Hempty, <-Htoken at 2.
      by destruct (_updateAuthToken t octokit token s).
  - assert (sortable key (_updateAuthToken t octokit token s)) as Hsortable.
    { split; [by destruct Hkey as [-> | ->]|]. left. by rewrite Htoken. }
    pose proof (requestSort_outcome t octokit' key _ Hsortable) as H.
    cbv zeta in H. destruct H as (Hk & _ & _ & _ & _ & _ & Ha & _).
    by split.
Qed.

Lemma credential_opens_the_gate_witness :
  _sortKey (_handleRequestSort Examples.t Examples.okOctokit SortKey.stars
              (run Examples.t Examples.twoRepos
                 (SetCredential "token" Examples.okOctokit))).1
  = (if decide ("token" = EmptyString) then _sortKey Examples.twoRepos
     else SortKey.stars)
  ∧ _authError (_handleRequestSort Examples.t Examples.okOctokit
                  SortKey.stars
                  (run Examples.t Examples.twoRepos
                     (SetCredential "token" Examples.okOctokit))).1
    = (if decide ("token" = EmptyString)
       then Examples.t "errors.authRequired" else EmptyString).
Proof.
  apply (credential_opens_the_gate Examples.t Examples.okOctokit
           Examples.okOctokit "token" SortKey.stars Examples.twoRepos).
  left. reflexivity.
Defined.

(** ** The sort key after a batch fetch *)

(** X27.  A batch fetch that succeeds puts the display order back into the
    order of the repo set and leaves the sort key and the sort direction as
    they were: after a repository is added, a set is loaded or a credential
    is set, the table is in the order of the repo set although the engine
    still names the key and the direction of the last sort, so that the
    next request for that key turns the direction round. *)
Theorem batch_resets_order_not_sort_key
    (t : string → string) (s : State) (i : Intent)
    (octokit : Octokit) (repos : list Repo) :
  batchOf s i = Some (octokit, repos) →
  batch_succeeds s i →
  _repoOrder (run t s i) = repoIdentifier <$> repos
  ∧ identifier <$> _repoSummaryData (run t s i) = repoIdentifier <$> repos
  ∧ _sortKey (run t s i) = _sortKey s
  ∧ _sortDirection (run t s i) = _sortDirection s.
Proof.
  intros Hbatch Hok. unfold batch_succeeds in Hok. rewrite Hbatch in Hok.
  destruct Hok as [results Hall].
  destruct (run_batch_shape t s i octokit repos Hbatch)
    as (s3 & Hrun & Hrepos & _).
  pose proof (fetchSettle_fields t octokit s3) as Hfields.
  cbv zeta in Hfields. destruct Hfields as (_ & _ & Hfields).
  rewrite Hrepos, Hall in Hfields. rewrite Hrun, Hrepos.
  destruct Hfields as [-> ->]. split_and!; [done..| |].
  - rewrite <-Hrepos, <-Hrun. by_intent i; try done.
    + pose proof (formSubmit_frame t octokit0
                    (s <| _newUsername := u |> <| _newRepository := v |>))
        as H.
      cbv zeta in H. destruct H as (_ & _ & _ & -> & _). by destruct s.
    + pose proof (loadSet_frame t octokit0 name s) as H.
      cbv zeta in H. by destruct H as (_ & _ & _ & -> & _).
    + pose proof (updateAuthToken_frame t octokit0 token s) as H.
      cbv zeta in H. by destruct H as (_ & _ & _ & -> & _).
  - rewrite <-Hrepos, <-Hrun. by_intent i; try done.
    + pose proof (formSubmit_frame t octokit0
                    (s <| _newUsername := u |> <| _newRepository := v |>))
        as H.
      cbv zeta in H. destruct H as (_ & _ & _ & _ & -> & _). by destruct s.
    + pose proof (loadSet_frame t octokit0 name s) as H.
      cbv zeta in H. by destruct H as (_ & _ & _ & _ & -> & _).
    + pose proof (updateAuthToken_frame t octokit0 token s) as H.
      cbv zeta in H. by destruct H as (_ & _ & _ & _ & -> & _).
Qed.

Lemma batch_resets_order_not_sort_key_witness :
  _repoOrder (run Examples.t Examples.reordered
                (AddRepo "nobody" "nothing" Examples.okOctokit))
  = repoIdentifier
      <$> _repos Examples.reordered
          ++ [{| username := "nobody"; repository := "nothing" |}]
  ∧ identifier
      <$> _repoSummaryData
            (run Examples.t Examples.reordered
               (AddRepo "nobody" "nothing" Examples.okOctokit))
    = repoIdentifier
        <$> _repos Examples.reordered
            ++ [{| username := "nobody"; repository := "nothing" |}]
  ∧ _sortKey (run Examples.t Examples.reordered
                (AddRepo "nobody" "nothing" Examples.okOctokit))
    = _sortKey Examples.reordered
  ∧ _sortDirection (run Examples.t Examples.reordered
                      (AddRepo "nobody" "nothing" Examples.okOctokit))
    = _sortDirection Examples.reordered.
Proof.
  apply (batch_resets_order_not_sort_key Examples.t Examples.reordered
           (AddRepo "nobody" "nothing" Examples.okOctokit)
           Examples.okOctokit
           (_repos Examples.reordered
            ++ [{| username := "nobody"; repository := "nothing" |}])).
  - vm_compute. reflexivity.
  - vm_compute. eauto.
Defined.
